(** * Coordinator meta-catalog core of dingo-store

    A shallow embedding of [CoordinatorControl]'s catalog operations
    (schemas, tables, indexes, range distribution, metrics) and the
    properties of the catalog specification checked against it.

    Conventions.
    - [uint64_t] values are modelled in [N]; additions that can wrap are
      written with [wrap64].  A comparison such as [schema_id < 0] on an
      unsigned value is therefore never true, as in the C++.
    - [int32_t] and the numeric fields of the index parameters are in [Z].
    - [std::string] is [string]; [std::string::compare] is the byte-wise
      lexicographic [String.compare].
    - A [butil::Status] is reduced to its error code [Errno]; messages and
      logging are dropped.
    - Every [DingoSafeMap] is a [gmap]; the protobuf messages are records,
      an optional sub-message is an [option], a [oneof] is a variant. *)

From Stdlib Require Import ZArith NArith Lia Ascii.
From stdpp Require Import base gmap list strings pretty numbers fin_maps.

(** ** Error codes ([pb::error::Errno]) *)

Inductive Errno :=
  | OK
  | EINTERNAL
  | EILLEGAL_PARAMTETERS
  | ESCHEMA_EXISTS
  | ESCHEMA_NOT_FOUND
  | ESCHEMA_NOT_EMPTY
  | ETABLE_EXISTS
  | ETABLE_NOT_FOUND
  | ETABLE_DEFINITION_ILLEGAL
  | ETABLE_REGION_CREATE_FAILED
  | ETABLE_METRICS_FAILED
  | EINDEX_EXISTS
  | EINDEX_NOT_FOUND
  | EINDEX_DEFINITION_ILLEGAL
  | EINDEX_REGION_CREATE_FAILED
  | EINDEX_METRICS_FAILED
  | EAUTO_INCREMENT_WHILE_CREATING_TABLE
  | ERRNO_OTHER (code : Z).

#[global] Instance Errno_eq_dec : EqDecision Errno.
Proof. solve_decision. Defined.

(** [status.ok()] *)
Definition ok (s : Errno) : bool :=
  match s with OK => true | _ => false end.

(** ** Unsigned 64-bit arithmetic *)

Definition UINT64_MOD : N := 2 ^ 64.
Definition UINT64_MAX : N := UINT64_MOD - 1.
Definition wrap64 (n : N) : N := n mod UINT64_MOD.

(** ** Index definitions ([pb::common], [pb::meta])

    The protobuf messages read by [ValidateIndexDefinition].  The fields are
    the accessors the validator calls; the enumerations are declared in the
    proto files of the repository. *)

(** Modelled from the spec: the enumeration [pb::common::IndexType] (declared
    in proto/common.proto); the index type is NONE, VECTOR or SCALAR. *)
Inductive IndexType := INDEX_TYPE_NONE | INDEX_TYPE_VECTOR | INDEX_TYPE_SCALAR.

(** Modelled from the spec: the enumeration [pb::common::VectorIndexType]
    (declared in proto/common.proto); NONE and the five types of the
    validation table. *)
Inductive VectorIndexType :=
  | VECTOR_INDEX_TYPE_NONE
  | VECTOR_INDEX_TYPE_FLAT
  | VECTOR_INDEX_TYPE_IVF_FLAT
  | VECTOR_INDEX_TYPE_IVF_PQ
  | VECTOR_INDEX_TYPE_HNSW
  | VECTOR_INDEX_TYPE_DISKANN.

(** Modelled from the spec: the enumeration [pb::common::MetricType]
    (declared in proto/common.proto); the validation only tells NONE from
    the other values. *)
Inductive MetricType :=
  | METRIC_TYPE_NONE
  | METRIC_TYPE_OTHER (value : N).

(** Modelled from the spec: the enumeration [pb::common::ScalarIndexType]
    (declared in proto/common.proto); the validation only tells NONE from
    the other values. *)
Inductive ScalarIndexType :=
  | SCALAR_INDEX_TYPE_NONE
  | SCALAR_INDEX_TYPE_OTHER (value : N).

#[global] Instance IndexType_eq_dec : EqDecision IndexType.
Proof. solve_decision. Defined.
#[global] Instance VectorIndexType_eq_dec : EqDecision VectorIndexType.
Proof. solve_decision. Defined.
#[global] Instance MetricType_eq_dec : EqDecision MetricType.
Proof. solve_decision. Defined.
#[global] Instance ScalarIndexType_eq_dec : EqDecision ScalarIndexType.
Proof. solve_decision. Defined.

Record CreateFlatParam := {
  flat_dimension : Z;
  flat_metric_type : MetricType }.

Record CreateIvfFlatParam := {
  ivf_flat_dimension : Z;
  ivf_flat_metric_type : MetricType;
  ivf_flat_ncentroids : Z }.

Record CreateIvfPqParam := {
  ivf_pq_dimension : Z;
  ivf_pq_metric_type : MetricType;
  ivf_pq_ncentroids : Z;
  ivf_pq_nsubvector : Z;
  ivf_pq_bucket_init_size : Z;
  ivf_pq_bucket_max_size : Z }.

Record CreateHnswParam := {
  hnsw_dimension : Z;
  hnsw_metric_type : MetricType;
  hnsw_efconstruction : Z;
  hnsw_max_elements : Z;
  hnsw_nlinks : Z }.

Record CreateDiskAnnParam := {
  diskann_dimension : Z;
  diskann_metric_type : MetricType;
  diskann_num_trees : Z;
  diskann_num_neighbors : Z;
  diskann_num_threads : Z }.

(** Modelled from the spec: the parameter blocks of
    [pb::common::VectorIndexParameter] (declared in proto/common.proto) form
    one [oneof]: at most one of them is set. *)
Inductive VectorParameterCase :=
  | VECTOR_PARAMETER_NOT_SET
  | FlatParameter (p : CreateFlatParam)
  | IvfFlatParameter (p : CreateIvfFlatParam)
  | IvfPqParameter (p : CreateIvfPqParam)
  | HnswParameter (p : CreateHnswParam)
  | DiskannParameter (p : CreateDiskAnnParam).

Record VectorIndexParameter := {
  vector_index_type : VectorIndexType;
  vector_parameter_case : VectorParameterCase }.

(** [has_x_parameter()] followed by [x_parameter()]. *)
Definition flat_parameter (v : VectorIndexParameter) : option CreateFlatParam :=
  match vector_parameter_case v with FlatParameter p => Some p | _ => None end.
Definition ivf_flat_parameter (v : VectorIndexParameter) : option CreateIvfFlatParam :=
  match vector_parameter_case v with IvfFlatParameter p => Some p | _ => None end.
Definition ivf_pq_parameter (v : VectorIndexParameter) : option CreateIvfPqParam :=
  match vector_parameter_case v with IvfPqParameter p => Some p | _ => None end.
Definition hnsw_parameter (v : VectorIndexParameter) : option CreateHnswParam :=
  match vector_parameter_case v with HnswParameter p => Some p | _ => None end.
Definition diskann_parameter (v : VectorIndexParameter) : option CreateDiskAnnParam :=
  match vector_parameter_case v with DiskannParameter p => Some p | _ => None end.

Record ScalarIndexParameter := {
  scalar_index_type : ScalarIndexType }.

Record IndexParameter := {
  index_type : IndexType;
  vector_index_parameter : option VectorIndexParameter;
  scalar_index_parameter : option ScalarIndexParameter }.

(** ** Ranges and partitions *)

Record Range := {
  start_key : string;
  end_key : string }.

(** [pb::meta::PartitionRule]: both sub-messages have their own presence
    bit, so a rule may carry a hash partition, a range partition, both or
    none. *)
Record PartitionRule := {
  hash_partition : option unit;
  range_partition : option (list Range) }.

Record ColumnDefinition := {
  column_name : string;
  is_auto_increment : bool }.

Record TableDefinition := {
  table_name : string;
  table_columns : list ColumnDefinition;
  table_replica : Z;
  table_partition : option PartitionRule;
  table_auto_increment : N }.

Record IndexDefinition := {
  index_name : string;
  index_replica : Z;
  index_partition : option PartitionRule;
  index_parameter : IndexParameter;
  with_auto_incrment : bool;
  index_auto_increment : N }.

(** ** Early return

    The validator is a sequence of [if (...) return ...;] statements; a
    block either returns a status or falls through to the next one. *)

Inductive flow :=
  | Return (s : Errno)
  | Continue.

Definition seq_flow (a b : flow) : flow :=
  match a with Return s => Return s | Continue => b end.

Notation "a ;;; b" := (seq_flow a b) (at level 100, right associativity).

Definition reject_if (b : bool) (s : Errno) : flow :=
  if b then Return s else Continue.

Definition finish (f : flow) (s : Errno) : Errno :=
  match f with Return e => e | Continue => s end.

(** ** [CoordinatorControl::ValidateIndexDefinition] *)

Definition validate_hnsw (v : VectorIndexParameter) : flow :=
  if decide (vector_index_type v = VECTOR_INDEX_TYPE_HNSW) then
    match hnsw_parameter v with
    | None => Return EILLEGAL_PARAMTETERS
    | Some p =>
        reject_if (hnsw_dimension p <=? 0)%Z EILLEGAL_PARAMTETERS ;;;
        reject_if (bool_decide (hnsw_metric_type p = METRIC_TYPE_NONE)) EILLEGAL_PARAMTETERS ;;;
        reject_if (hnsw_efconstruction p <=? 0)%Z EILLEGAL_PARAMTETERS ;;;
        reject_if (hnsw_max_elements p <=? 0)%Z EILLEGAL_PARAMTETERS ;;;
        reject_if (hnsw_nlinks p <=? 0)%Z EILLEGAL_PARAMTETERS
    end
  else Continue.

Definition validate_flat (v : VectorIndexParameter) : flow :=
  if decide (vector_index_type v = VECTOR_INDEX_TYPE_FLAT) then
    match flat_parameter v with
    | None => Return EILLEGAL_PARAMTETERS
    | Some p =>
        reject_if (flat_dimension p <=? 0)%Z EILLEGAL_PARAMTETERS ;;;
        reject_if (bool_decide (flat_metric_type p = METRIC_TYPE_NONE)) EILLEGAL_PARAMTETERS
    end
  else Continue.

Definition validate_ivf_flat (v : VectorIndexParameter) : flow :=
  if decide (vector_index_type v = VECTOR_INDEX_TYPE_IVF_FLAT) then
    match ivf_flat_parameter v with
    | None => Return EILLEGAL_PARAMTETERS
    | Some p =>
        reject_if (ivf_flat_dimension p <=? 0)%Z EILLEGAL_PARAMTETERS ;;;
        reject_if (bool_decide (ivf_flat_metric_type p = METRIC_TYPE_NONE)) EILLEGAL_PARAMTETERS ;;;
        reject_if (ivf_flat_ncentroids p <=? 0)%Z EILLEGAL_PARAMTETERS
    end
  else Continue.

(** The IVF_PQ and DISKANN blocks end in [return butil::Status::OK()]. *)
Definition validate_ivf_pq (v : VectorIndexParameter) : flow :=
  if decide (vector_index_type v = VECTOR_INDEX_TYPE_IVF_PQ) then
    match ivf_pq_parameter v with
    | None => Return EILLEGAL_PARAMTETERS
    | Some p =>
        reject_if (ivf_pq_dimension p <=? 0)%Z EILLEGAL_PARAMTETERS ;;;
        reject_if (bool_decide (ivf_pq_metric_type p = METRIC_TYPE_NONE)) EILLEGAL_PARAMTETERS ;;;
        reject_if (ivf_pq_ncentroids p <=? 0)%Z EILLEGAL_PARAMTETERS ;;;
        reject_if (ivf_pq_nsubvector p <=? 0)%Z EILLEGAL_PARAMTETERS ;;;
        reject_if (ivf_pq_bucket_init_size p <=? 0)%Z EILLEGAL_PARAMTETERS ;;;
        reject_if (ivf_pq_bucket_max_size p <=? 0)%Z EILLEGAL_PARAMTETERS ;;;
        Return OK
    end
  else Continue.

Definition validate_diskann (v : VectorIndexParameter) : flow :=
  if decide (vector_index_type v = VECTOR_INDEX_TYPE_DISKANN) then
    match diskann_parameter v with
    | None => Return EILLEGAL_PARAMTETERS
    | Some p =>
        reject_if (diskann_dimension p <=? 0)%Z EILLEGAL_PARAMTETERS ;;;
        reject_if (bool_decide (diskann_metric_type p = METRIC_TYPE_NONE)) EILLEGAL_PARAMTETERS ;;;
        reject_if (diskann_num_trees p <=? 0)%Z EILLEGAL_PARAMTETERS ;;;
        reject_if (diskann_num_neighbors p <=? 0)%Z EILLEGAL_PARAMTETERS ;;;
        reject_if (diskann_num_threads p <=? 0)%Z EILLEGAL_PARAMTETERS ;;;
        Return OK
    end
  else Continue.

Definition validate_vector (ip : IndexParameter) : flow :=
  match vector_index_parameter ip with
  | None => Return EILLEGAL_PARAMTETERS
  | Some v =>
      reject_if (bool_decide (vector_index_type v = VECTOR_INDEX_TYPE_NONE))
                EILLEGAL_PARAMTETERS ;;;
      validate_hnsw v ;;;
      validate_flat v ;;;
      validate_ivf_flat v ;;;
      validate_ivf_pq v ;;;
      validate_diskann v ;;;
      Return OK
  end.

Definition validate_scalar (ip : IndexParameter) : flow :=
  match scalar_index_parameter ip with
  | None => Return EILLEGAL_PARAMTETERS
  | Some s =>
      reject_if (bool_decide (scalar_index_type s = SCALAR_INDEX_TYPE_NONE))
                EILLEGAL_PARAMTETERS
  end.

Definition ValidateIndexDefinition (index_definition : IndexDefinition) : Errno :=
  let ip := index_parameter index_definition in
  finish
    (reject_if (bool_decide (index_name index_definition = "")) EILLEGAL_PARAMTETERS ;;;
     reject_if (bool_decide (index_type ip = INDEX_TYPE_NONE)) EILLEGAL_PARAMTETERS ;;;
     (if decide (index_type ip = INDEX_TYPE_VECTOR) then validate_vector ip
      else if decide (index_type ip = INDEX_TYPE_SCALAR) then validate_scalar ip
      else Continue))
    OK.

(** The constraints of the validation table, in the words of the
    specification: the parameter block that is set is the one named by
    [vector_index_type], and its numeric fields are positive. *)

Definition vector_parameter_legal (v : VectorIndexParameter) : Prop :=
  match vector_index_type v, vector_parameter_case v with
  | VECTOR_INDEX_TYPE_HNSW, HnswParameter p =>
      (0 < hnsw_dimension p)%Z ∧ hnsw_metric_type p ≠ METRIC_TYPE_NONE ∧
      (0 < hnsw_efconstruction p)%Z ∧ (0 < hnsw_max_elements p)%Z ∧
      (0 < hnsw_nlinks p)%Z
  | VECTOR_INDEX_TYPE_FLAT, FlatParameter p =>
      (0 < flat_dimension p)%Z ∧ flat_metric_type p ≠ METRIC_TYPE_NONE
  | VECTOR_INDEX_TYPE_IVF_FLAT, IvfFlatParameter p =>
      (0 < ivf_flat_dimension p)%Z ∧ ivf_flat_metric_type p ≠ METRIC_TYPE_NONE ∧
      (0 < ivf_flat_ncentroids p)%Z
  | VECTOR_INDEX_TYPE_IVF_PQ, IvfPqParameter p =>
      (0 < ivf_pq_dimension p)%Z ∧ ivf_pq_metric_type p ≠ METRIC_TYPE_NONE ∧
      (0 < ivf_pq_ncentroids p)%Z ∧ (0 < ivf_pq_nsubvector p)%Z ∧
      (0 < ivf_pq_bucket_init_size p)%Z ∧ (0 < ivf_pq_bucket_max_size p)%Z
  | VECTOR_INDEX_TYPE_DISKANN, DiskannParameter p =>
      (0 < diskann_dimension p)%Z ∧ diskann_metric_type p ≠ METRIC_TYPE_NONE ∧
      (0 < diskann_num_trees p)%Z ∧ (0 < diskann_num_neighbors p)%Z ∧
      (0 < diskann_num_threads p)%Z
  | _, _ => False
  end.

Definition index_parameter_legal (ip : IndexParameter) : Prop :=
  match index_type ip with
  | INDEX_TYPE_NONE => False
  | INDEX_TYPE_VECTOR =>
      match vector_index_parameter ip with
      | Some v => vector_parameter_legal v
      | None => False
      end
  | INDEX_TYPE_SCALAR =>
      match scalar_index_parameter ip with
      | Some s => scalar_index_type s ≠ SCALAR_INDEX_TYPE_NONE
      | None => False
      end
  end.

(** ** Regions ([pb::common::Region]) *)

Record Location := {
  host : string;
  port : Z }.

(** [Location] as a freshly created message. *)
Definition Location_default : Location := {| host := ""; port := 0 |}.

Inductive PeerRole := VOTER | LEARNER.

#[global] Instance PeerRole_eq_dec : EqDecision PeerRole.
Proof. solve_decision. Defined.

Record Peer := {
  store_id : N;
  role : PeerRole;
  server_location : Location }.

Record RegionDefinition := {
  region_range : Range;
  peers : list Peer }.

Record RegionMetrics := {
  row_count : N;
  min_key : string;
  max_key : string }.

Record Region := {
  definition : RegionDefinition;
  leader_store_id : N;
  metrics : option RegionMetrics }.

(** ** Catalog entities ([pb::coordinator_internal]) *)

Record SchemaInternal := {
  schema_internal_id : N;
  schema_internal_name : string;
  table_ids : list N;
  index_ids : list N }.

Record TableInternal := {
  table_internal_id : N;
  table_internal_schema_id : N;
  table_internal_definition : TableDefinition;
  table_partitions : list N }.

Record IndexInternal := {
  index_internal_id : N;
  index_internal_schema_id : N;
  index_internal_definition : IndexDefinition;
  index_partitions : list N }.

(** [pb::meta::TableMetrics] and [pb::meta::IndexMetrics] have the same four
    fields. *)
Record Metrics := {
  rows_count : N;
  metrics_min_key : string;
  metrics_max_key : string;
  part_count : N }.

Definition Metrics_default : Metrics :=
  {| rows_count := 0; metrics_min_key := ""; metrics_max_key := ""; part_count := 0 |}.

Record MetricsInternal := {
  metrics_internal_id : N;
  metrics_internal_metrics : Metrics }.

Definition MetricsInternal_default : MetricsInternal :=
  {| metrics_internal_id := 0; metrics_internal_metrics := Metrics_default |}.

(** ** Id and epoch counters *)

Inductive IdEpochType :=
  | ID_NEXT_SCHEMA
  | ID_NEXT_TABLE
  | ID_NEXT_INDEX
  | ID_NEXT_REGION
  | EPOCH_SCHEMA
  | EPOCH_TABLE
  | EPOCH_INDEX
  | EPOCH_REGION
  | EPOCH_STORE.

#[global] Instance IdEpochType_eq_dec : EqDecision IdEpochType.
Proof. solve_decision. Defined.

Definition IdEpochType_to_nat (k : IdEpochType) : nat :=
  match k with
  | ID_NEXT_SCHEMA => 0 | ID_NEXT_TABLE => 1 | ID_NEXT_INDEX => 2
  | ID_NEXT_REGION => 3 | EPOCH_SCHEMA => 4 | EPOCH_TABLE => 5
  | EPOCH_INDEX => 6 | EPOCH_REGION => 7 | EPOCH_STORE => 8
  end.

Definition IdEpochType_of_nat (n : nat) : IdEpochType :=
  match n with
  | 0 => ID_NEXT_SCHEMA | 1 => ID_NEXT_TABLE | 2 => ID_NEXT_INDEX
  | 3 => ID_NEXT_REGION | 4 => EPOCH_SCHEMA | 5 => EPOCH_TABLE
  | 6 => EPOCH_INDEX | 7 => EPOCH_REGION | _ => EPOCH_STORE
  end.

#[global] Instance IdEpochType_countable : Countable IdEpochType.
Proof.
  refine (inj_countable' IdEpochType_to_nat IdEpochType_of_nat _).
  intros []; reflexivity.
Defined.

(** ** The meta-increment *)

Inductive MetaIncrementOpType := CREATE | UPDATE | DELETE.

#[global] Instance MetaIncrementOpType_eq_dec : EqDecision MetaIncrementOpType.
Proof. solve_decision. Defined.

Record MetaIncrementSchema := {
  schema_increment_id : N;
  schema_increment_op_type : MetaIncrementOpType;
  schema_increment_schema_id : N;
  schema_increment_schema_internal : SchemaInternal }.

Record MetaIncrementTable := {
  table_increment_id : N;
  table_increment_op_type : MetaIncrementOpType;
  table_increment_table : TableInternal }.

Record MetaIncrementIndex := {
  index_increment_id : N;
  index_increment_op_type : MetaIncrementOpType;
  index_increment_index : IndexInternal }.

Record MetaIncrementIdEpoch := {
  idepoch_id : IdEpochType;
  idepoch_value : N }.

(** The sub-lists written by the catalog operations themselves.  The region
    sub-increments are produced inside the region service and are part of
    the collaborator trace below. *)
Record MetaIncrement := {
  schemas : list MetaIncrementSchema;
  tables : list MetaIncrementTable;
  indexes : list MetaIncrementIndex;
  idepochs : list MetaIncrementIdEpoch }.

Definition MetaIncrement_empty : MetaIncrement :=
  {| schemas := []; tables := []; indexes := []; idepochs := [] |}.

Definition add_schemas (x : MetaIncrementSchema) (mi : MetaIncrement) : MetaIncrement :=
  {| schemas := schemas mi ++ [x]; tables := tables mi;
     indexes := indexes mi; idepochs := idepochs mi |}.

Definition add_tables (x : MetaIncrementTable) (mi : MetaIncrement) : MetaIncrement :=
  {| schemas := schemas mi; tables := tables mi ++ [x];
     indexes := indexes mi; idepochs := idepochs mi |}.

Definition add_indexes (x : MetaIncrementIndex) (mi : MetaIncrement) : MetaIncrement :=
  {| schemas := schemas mi; tables := tables mi;
     indexes := indexes mi ++ [x]; idepochs := idepochs mi |}.

Definition add_idepochs (x : MetaIncrementIdEpoch) (mi : MetaIncrement) : MetaIncrement :=
  {| schemas := schemas mi; tables := tables mi;
     indexes := indexes mi; idepochs := idepochs mi ++ [x] |}.

(** ** Collaborators

    The region service ([CreateRegion], [DropRegion]) and the auto-increment
    service are collaborators of the catalog, defined in other files of the
    repository.  They are modelled by their interface: every call is
    appended to a trace, and its outcome is given by an oracle that sees the
    trace so far and the arguments of the call. *)

Inductive RegionType := STORE_REGION | INDEX_REGION.

#[global] Instance RegionType_eq_dec : EqDecision RegionType.
Proof. solve_decision. Defined.

Record CreateRegionRequest := {
  request_region_name : string;
  request_region_type : RegionType;
  request_resource_tag : string;
  request_replica_num : Z;
  request_region_range : Range;
  request_schema_id : N;
  request_table_id : N;
  request_index_id : N;
  request_index_parameter : option IndexParameter }.

Inductive Call :=
  | CallCreateRegion (request : CreateRegionRequest) (ret : Errno) (new_region_id : N)
  | CallDropRegion (region_id : N) (ret : Errno)
  | CallSyncSendCreateAutoIncrement (id start : N) (ret : Errno)
  | CallAsyncSendDeleteAutoIncrement (id : N).

(** What the catalog operations take from the rest of the repository: the
    constants [ROOT_SCHEMA] (proto/meta.proto) and [COORDINATOR_ID_OF_MAP_MIN]
    (coordinator_control.h), the check of [AutoIncrementControl] on a table
    definition, and the oracles of the calls. *)
Record Collaborators := {
  ROOT_SCHEMA : N;
  COORDINATOR_ID_OF_MAP_MIN : N;
  CheckAutoIncrementInTableDefinition : TableDefinition → Errno * bool;
  CreateRegion_outcome : list Call → CreateRegionRequest → Errno * N;
  DropRegion_outcome : list Call → N → Errno;
  SyncSendCreateAutoIncrementInternal_outcome : list Call → N → N → Errno }.

(** ** State of [CoordinatorControl]

    The maps read and written by the catalog operations, and the trace of
    the calls made to the collaborators. *)

Record CoordinatorControl := {
  schema_map_ : gmap N SchemaInternal;
  table_map_ : gmap N TableInternal;
  index_map_ : gmap N IndexInternal;
  region_map_ : gmap N Region;
  table_metrics_map_ : gmap N MetricsInternal;
  index_metrics_map_ : gmap N MetricsInternal;
  schema_name_map_safe_temp_ : gmap string N;
  table_name_map_safe_temp_ : gmap string N;
  index_name_map_safe_temp_ : gmap string N;
  id_epoch_map_safe_temp_ : gmap IdEpochType N;
  calls_ : list Call }.

Definition set_table_metrics_map_ (f : gmap N MetricsInternal → gmap N MetricsInternal)
    (cc : CoordinatorControl) : CoordinatorControl :=
  {| schema_map_ := schema_map_ cc; table_map_ := table_map_ cc;
     index_map_ := index_map_ cc; region_map_ := region_map_ cc;
     table_metrics_map_ := f (table_metrics_map_ cc);
     index_metrics_map_ := index_metrics_map_ cc;
     schema_name_map_safe_temp_ := schema_name_map_safe_temp_ cc;
     table_name_map_safe_temp_ := table_name_map_safe_temp_ cc;
     index_name_map_safe_temp_ := index_name_map_safe_temp_ cc;
     id_epoch_map_safe_temp_ := id_epoch_map_safe_temp_ cc;
     calls_ := calls_ cc |}.

Definition set_index_metrics_map_ (f : gmap N MetricsInternal → gmap N MetricsInternal)
    (cc : CoordinatorControl) : CoordinatorControl :=
  {| schema_map_ := schema_map_ cc; table_map_ := table_map_ cc;
     index_map_ := index_map_ cc; region_map_ := region_map_ cc;
     table_metrics_map_ := table_metrics_map_ cc;
     index_metrics_map_ := f (index_metrics_map_ cc);
     schema_name_map_safe_temp_ := schema_name_map_safe_temp_ cc;
     table_name_map_safe_temp_ := table_name_map_safe_temp_ cc;
     index_name_map_safe_temp_ := index_name_map_safe_temp_ cc;
     id_epoch_map_safe_temp_ := id_epoch_map_safe_temp_ cc;
     calls_ := calls_ cc |}.

Definition set_schema_name_map_safe_temp_ (f : gmap string N → gmap string N)
    (cc : CoordinatorControl) : CoordinatorControl :=
  {| schema_map_ := schema_map_ cc; table_map_ := table_map_ cc;
     index_map_ := index_map_ cc; region_map_ := region_map_ cc;
     table_metrics_map_ := table_metrics_map_ cc;
     index_metrics_map_ := index_metrics_map_ cc;
     schema_name_map_safe_temp_ := f (schema_name_map_safe_temp_ cc);
     table_name_map_safe_temp_ := table_name_map_safe_temp_ cc;
     index_name_map_safe_temp_ := index_name_map_safe_temp_ cc;
     id_epoch_map_safe_temp_ := id_epoch_map_safe_temp_ cc;
     calls_ := calls_ cc |}.

Definition set_table_name_map_safe_temp_ (f : gmap string N → gmap string N)
    (cc : CoordinatorControl) : CoordinatorControl :=
  {| schema_map_ := schema_map_ cc; table_map_ := table_map_ cc;
     index_map_ := index_map_ cc; region_map_ := region_map_ cc;
     table_metrics_map_ := table_metrics_map_ cc;
     index_metrics_map_ := index_metrics_map_ cc;
     schema_name_map_safe_temp_ := schema_name_map_safe_temp_ cc;
     table_name_map_safe_temp_ := f (table_name_map_safe_temp_ cc);
     index_name_map_safe_temp_ := index_name_map_safe_temp_ cc;
     id_epoch_map_safe_temp_ := id_epoch_map_safe_temp_ cc;
     calls_ := calls_ cc |}.

Definition set_index_name_map_safe_temp_ (f : gmap string N → gmap string N)
    (cc : CoordinatorControl) : CoordinatorControl :=
  {| schema_map_ := schema_map_ cc; table_map_ := table_map_ cc;
     index_map_ := index_map_ cc; region_map_ := region_map_ cc;
     table_metrics_map_ := table_metrics_map_ cc;
     index_metrics_map_ := index_metrics_map_ cc;
     schema_name_map_safe_temp_ := schema_name_map_safe_temp_ cc;
     table_name_map_safe_temp_ := table_name_map_safe_temp_ cc;
     index_name_map_safe_temp_ := f (index_name_map_safe_temp_ cc);
     id_epoch_map_safe_temp_ := id_epoch_map_safe_temp_ cc;
     calls_ := calls_ cc |}.

Definition set_id_epoch_map_safe_temp_ (f : gmap IdEpochType N → gmap IdEpochType N)
    (cc : CoordinatorControl) : CoordinatorControl :=
  {| schema_map_ := schema_map_ cc; table_map_ := table_map_ cc;
     index_map_ := index_map_ cc; region_map_ := region_map_ cc;
     table_metrics_map_ := table_metrics_map_ cc;
     index_metrics_map_ := index_metrics_map_ cc;
     schema_name_map_safe_temp_ := schema_name_map_safe_temp_ cc;
     table_name_map_safe_temp_ := table_name_map_safe_temp_ cc;
     index_name_map_safe_temp_ := index_name_map_safe_temp_ cc;
     id_epoch_map_safe_temp_ := f (id_epoch_map_safe_temp_ cc);
     calls_ := calls_ cc |}.

Definition set_calls_ (l : list Call) (cc : CoordinatorControl) : CoordinatorControl :=
  {| schema_map_ := schema_map_ cc; table_map_ := table_map_ cc;
     index_map_ := index_map_ cc; region_map_ := region_map_ cc;
     table_metrics_map_ := table_metrics_map_ cc;
     index_metrics_map_ := index_metrics_map_ cc;
     schema_name_map_safe_temp_ := schema_name_map_safe_temp_ cc;
     table_name_map_safe_temp_ := table_name_map_safe_temp_ cc;
     index_name_map_safe_temp_ := index_name_map_safe_temp_ cc;
     id_epoch_map_safe_temp_ := id_epoch_map_safe_temp_ cc;
     calls_ := l |}.

Definition add_call (c : Call) (cc : CoordinatorControl) : CoordinatorControl :=
  set_calls_ (calls_ cc ++ [c]) cc.

(** What a trace says about regions: the ids returned by the successful
    [CreateRegion] calls, the ids passed to [DropRegion], the requests sent
    to [CreateRegion], and whether a [CreateRegion] call failed. *)

Definition created_region (c : Call) : option N :=
  match c with
  | CallCreateRegion _ ret new_region_id => if ok ret then Some new_region_id else None
  | _ => None
  end.

Definition dropped_region (c : Call) : option N :=
  match c with
  | CallDropRegion region_id _ => Some region_id
  | _ => None
  end.

Definition create_request (c : Call) : option CreateRegionRequest :=
  match c with
  | CallCreateRegion request _ _ => Some request
  | _ => None
  end.

Definition failed_create (c : Call) : bool :=
  match c with
  | CallCreateRegion _ ret _ => negb (ok ret)
  | _ => false
  end.

Definition created_regions (trace : list Call) : list N := omap created_region trace.
Definition dropped_regions (trace : list Call) : list N := omap dropped_region trace.
Definition create_requests (trace : list Call) : list CreateRegionRequest :=
  omap create_request trace.

(** ** [DingoSafeMap] *)

(** Modelled from the spec: [DingoSafeMap::Get] (common/safe_map.h), the
    [get] of the catalog store; a missing key gives a negative code and
    leaves the output as it was. *)
Definition SafeMap_Get `{Countable K} {V} (m : gmap K V) (key : K) (value : V) : Z * V :=
  match m !! key with
  | Some v => (1%Z, v)
  | None => ((-1)%Z, value)
  end.

(** Modelled from the spec: [DingoSafeMap::Exists] (common/safe_map.h), the
    [exists] of the catalog store. *)
Definition SafeMap_Exists `{Countable K} {V} (m : gmap K V) (key : K) : bool :=
  bool_decide (is_Some (m !! key)).

(** Modelled from the spec: [DingoSafeMap::PutIfAbsent] (common/safe_map.h),
    the [put_if_absent(key, id) → ok|conflict] of the name index; on a
    conflict the code is negative and the map is as it was. *)
Definition SafeMap_PutIfAbsent `{Countable K} {V} (m : gmap K V) (key : K) (value : V)
    : Z * gmap K V :=
  match m !! key with
  | Some _ => ((-1)%Z, m)
  | None => (1%Z, <[key := value]> m)
  end.

(** Modelled from the spec: [DingoSafeMap::PutIfExists] (common/safe_map.h),
    the [put_if_exists] of the catalog store; for a missing key the code is
    negative and the map is as it was.  [Put] and [Erase] are [insert] and
    [delete]. *)
Definition SafeMap_PutIfExists `{Countable K} {V} (m : gmap K V) (key : K) (value : V)
    : Z * gmap K V :=
  match m !! key with
  | Some _ => (1%Z, <[key := value]> m)
  | None => ((-1)%Z, m)
  end.

(** ** Id allocation *)

(** Modelled from the spec: [CoordinatorControl::GetPresentId] (defined in
    another file of the repository), the [present(kind) → u64] of the
    allocator: it reads the counter named by [key]. *)
Definition GetPresentId (key : IdEpochType) (cc : CoordinatorControl) : N :=
  default 0%N (id_epoch_map_safe_temp_ cc !! key).

(** Modelled from the spec: [CoordinatorControl::GetNextId] (defined in
    another file of the repository), the [next(kind, meta_increment) → u64]
    of the allocator: it adds one to the 64-bit counter named by [key],
    returns the new value and appends the matching entry to the
    meta-increment. *)
Definition GetNextId (key : IdEpochType) (cc : CoordinatorControl) (mi : MetaIncrement)
    : N * CoordinatorControl * MetaIncrement :=
  let next_id := wrap64 (GetPresentId key cc + 1) in
  (next_id,
   set_id_epoch_map_safe_temp_ (insert key next_id) cc,
   add_idepochs {| idepoch_id := key; idepoch_value := next_id |} mi).

(** Name-index key of an entity: [std::to_string(schema_id) + name]. *)
Definition name_key (schema_id : N) (name : string) : string :=
  pretty schema_id +:+ name.

(** ** The catalog operations *)

Section Catalog.

Variable W : Collaborators.

(** *** Calls to the collaborators *)

Definition CreateRegion (request : CreateRegionRequest) (cc : CoordinatorControl)
    : Errno * N * CoordinatorControl :=
  let '(ret, new_region_id) := CreateRegion_outcome W (calls_ cc) request in
  (ret, new_region_id, add_call (CallCreateRegion request ret new_region_id) cc).

Definition DropRegion (region_id : N) (cc : CoordinatorControl)
    : Errno * CoordinatorControl :=
  let ret := DropRegion_outcome W (calls_ cc) region_id in
  (ret, add_call (CallDropRegion region_id ret) cc).

Definition SyncSendCreateAutoIncrementInternal (id start : N) (cc : CoordinatorControl)
    : Errno * CoordinatorControl :=
  let ret := SyncSendCreateAutoIncrementInternal_outcome W (calls_ cc) id start in
  (ret, add_call (CallSyncSendCreateAutoIncrement id start ret) cc).

Definition AsyncSendDeleteAutoIncrementInternal (id : N) (cc : CoordinatorControl)
    : CoordinatorControl :=
  add_call (CallAsyncSendDeleteAutoIncrement id) cc.

(** *** [ValidateSchema] *)

Definition ValidateSchema (schema_id : N) (cc : CoordinatorControl) : bool :=
  SafeMap_Exists (schema_map_ cc) schema_id.

(** *** [CreateSchema] *)

Definition CreateSchema (parent_schema_id : N) (schema_name : string)
    (new_schema_id : N) (cc : CoordinatorControl) (mi : MetaIncrement)
    : Errno * N * CoordinatorControl * MetaIncrement :=
  if bool_decide (parent_schema_id ≠ ROOT_SCHEMA W) then
    (EILLEGAL_PARAMTETERS, new_schema_id, cc, mi)
  else if bool_decide (schema_name = "") then
    (EILLEGAL_PARAMTETERS, new_schema_id, cc, mi)
  else
    let value := (SafeMap_Get (schema_name_map_safe_temp_ cc) schema_name 0%N).2 in
    if bool_decide (value ≠ 0%N) then (ESCHEMA_EXISTS, new_schema_id, cc, mi)
    else
      let '(new_schema_id, cc, mi) := GetNextId ID_NEXT_SCHEMA cc mi in
      let '(ret, names) :=
        SafeMap_PutIfAbsent (schema_name_map_safe_temp_ cc) schema_name new_schema_id in
      if (ret <? 0)%Z then (ESCHEMA_EXISTS, new_schema_id, cc, mi)
      else
        let cc := set_schema_name_map_safe_temp_ (λ _, names) cc in
        let new_schema_internal :=
          {| schema_internal_id := new_schema_id;
             schema_internal_name := schema_name;
             table_ids := []; index_ids := [] |} in
        let mi := add_schemas
          {| schema_increment_id := new_schema_id;
             schema_increment_op_type := CREATE;
             schema_increment_schema_id := parent_schema_id;
             schema_increment_schema_internal := new_schema_internal |} mi in
        let '(_, cc, mi) := GetNextId EPOCH_SCHEMA cc mi in
        (OK, new_schema_id, cc, mi).

(** *** [DropSchema] *)

Definition DropSchema (parent_schema_id schema_id : N)
    (cc : CoordinatorControl) (mi : MetaIncrement)
    : Errno * CoordinatorControl * MetaIncrement :=
  if (schema_id <=? COORDINATOR_ID_OF_MAP_MIN W)%N then (EILLEGAL_PARAMTETERS, cc, mi)
  else if (parent_schema_id <? 0)%N then (EILLEGAL_PARAMTETERS, cc, mi)
  else
    match schema_map_ cc !! schema_id with
    | None => (ESCHEMA_NOT_FOUND, cc, mi)
    | Some schema_internal_to_delete =>
        if (0 <? length (table_ids schema_internal_to_delete))%nat then
          (ESCHEMA_NOT_EMPTY, cc, mi)
        else
          let '(_, cc, mi) := GetNextId EPOCH_SCHEMA cc mi in
          let mi := add_schemas
            {| schema_increment_id := schema_id;
               schema_increment_op_type := DELETE;
               schema_increment_schema_id := parent_schema_id;
               schema_increment_schema_internal := schema_internal_to_delete |} mi in
          let cc := set_schema_name_map_safe_temp_
                      (delete (schema_internal_name schema_internal_to_delete)) cc in
          (OK, cc, mi)
    end.

(** *** [CreateTableId] and [CreateIndexId] *)

Definition CreateTableId (schema_id : N) (new_table_id : N)
    (cc : CoordinatorControl) (mi : MetaIncrement)
    : Errno * N * CoordinatorControl * MetaIncrement :=
  if negb (SafeMap_Exists (schema_map_ cc) schema_id) then
    (EILLEGAL_PARAMTETERS, new_table_id, cc, mi)
  else
    let '(new_table_id, cc, mi) := GetNextId ID_NEXT_TABLE cc mi in
    (OK, new_table_id, cc, mi).

Definition CreateIndexId (schema_id : N) (new_index_id : N)
    (cc : CoordinatorControl) (mi : MetaIncrement)
    : Errno * N * CoordinatorControl * MetaIncrement :=
  if negb (SafeMap_Exists (schema_map_ cc) schema_id) then
    (EILLEGAL_PARAMTETERS, new_index_id, cc, mi)
  else
    let '(new_index_id, cc, mi) := GetNextId ID_NEXT_TABLE cc mi in
    (OK, new_index_id, cc, mi).

(** *** Region loops shared by [CreateTable] and [CreateIndex]

    [create_regions] is the [for] loop over the declared ranges: it stops at
    the first [CreateRegion] that fails.  [drop_regions] is the loop of the
    compensation (and of [DropTable]/[DropIndex]): the status of each
    [DropRegion] is only logged. *)

Fixpoint create_regions (request : nat → Range → CreateRegionRequest)
    (i : nat) (ranges : list Range) (new_region_ids : list N)
    (cc : CoordinatorControl) : list N * CoordinatorControl :=
  match ranges with
  | [] => (new_region_ids, cc)
  | range :: ranges =>
      let '(ret, new_region_id, cc) := CreateRegion (request i range) cc in
      if ok ret then
        create_regions request (S i) ranges (new_region_ids ++ [new_region_id]) cc
      else (new_region_ids, cc)
  end.

Fixpoint drop_regions (region_ids : list N) (cc : CoordinatorControl)
    : CoordinatorControl :=
  match region_ids with
  | [] => cc
  | region_id :: region_ids => drop_regions region_ids (DropRegion region_id cc).2
  end.

Definition table_region_request (schema_id : N) (table_definition : TableDefinition)
    (replica : Z) (new_table_id : N) (i : nat) (range : Range) : CreateRegionRequest :=
  {| request_region_name :=
       "T_" +:+ pretty schema_id +:+ "_" +:+ table_name table_definition
            +:+ "_part_" +:+ pretty (N.of_nat i);
     request_region_type := STORE_REGION;
     request_resource_tag := "";
     request_replica_num := replica;
     request_region_range := range;
     request_schema_id := schema_id;
     request_table_id := new_table_id;
     request_index_id := 0;
     request_index_parameter := None |}.

Definition index_region_request (schema_id : N) (index_definition : IndexDefinition)
    (replica : Z) (new_index_id : N) (i : nat) (range : Range) : CreateRegionRequest :=
  {| request_region_name :=
       "I_" +:+ pretty schema_id +:+ "_" +:+ index_name index_definition
            +:+ "_part_" +:+ pretty (N.of_nat i);
     request_region_type := INDEX_REGION;
     request_resource_tag := "";
     request_replica_num := replica;
     request_region_range := range;
     request_schema_id := schema_id;
     request_table_id := 0;
     request_index_id := new_index_id;
     request_index_parameter := Some (index_parameter index_definition) |}.

(** The validation of the partition rule, common to both definitions; the
    result is the list of declared ranges. *)
Definition validate_partition (illegal : Errno) (partition : option PartitionRule)
    : Errno + list Range :=
  match partition with
  | None => inl illegal
  | Some rule =>
      match hash_partition rule with
      | Some _ => inl illegal
      | None =>
          match range_partition rule with
          | None => inl illegal
          | Some ranges =>
              if (length ranges =? 0)%nat then inl illegal else inr ranges
          end
      end
  end.

(** *** [CreateTable] *)

Definition CreateTable (schema_id : N) (table_definition : TableDefinition)
    (new_table_id : N) (cc : CoordinatorControl) (mi : MetaIncrement)
    : Errno * N * CoordinatorControl * MetaIncrement :=
  if (schema_id <? 0)%N || bool_decide (schema_id = ROOT_SCHEMA W) then
    (EILLEGAL_PARAMTETERS, new_table_id, cc, mi)
  else if negb (SafeMap_Exists (schema_map_ cc) schema_id) then
    (EILLEGAL_PARAMTETERS, new_table_id, cc, mi)
  else
    let '(ret, has_auto_increment_column) :=
      CheckAutoIncrementInTableDefinition W table_definition in
    if negb (ok ret) then (ret, new_table_id, cc, mi)
    else
      match validate_partition ETABLE_DEFINITION_ILLEGAL
              (table_partition table_definition) with
      | inl illegal => (illegal, new_table_id, cc, mi)
      | inr ranges =>
          let key := name_key schema_id (table_name table_definition) in
          let value := (SafeMap_Get (table_name_map_safe_temp_ cc) key 0%N).2 in
          if bool_decide (value ≠ 0%N) then (ETABLE_EXISTS, new_table_id, cc, mi)
          else
            let '(new_table_id, cc, mi) :=
              if (new_table_id <=? 0)%N then GetNextId ID_NEXT_TABLE cc mi
              else (new_table_id, cc, mi) in
            let '(status, cc) :=
              if has_auto_increment_column then
                SyncSendCreateAutoIncrementInternal new_table_id
                  (table_auto_increment table_definition) cc
              else (OK, cc) in
            if negb (ok status) then
              (EAUTO_INCREMENT_WHILE_CREATING_TABLE, new_table_id, cc, mi)
            else
              let '(put, names) :=
                SafeMap_PutIfAbsent (table_name_map_safe_temp_ cc) key new_table_id in
              if (put <? 0)%Z then (ETABLE_EXISTS, new_table_id, cc, mi)
              else
                let cc := set_table_name_map_safe_temp_ (λ _, names) cc in
                let replica := table_replica table_definition in
                let replica := if (replica <? 1)%Z then 3%Z else replica in
                let '(new_region_ids, cc) :=
                  create_regions
                    (table_region_request schema_id table_definition replica new_table_id)
                    0 ranges [] cc in
                if (length new_region_ids <? length ranges)%nat then
                  let cc := drop_regions new_region_ids cc in
                  let cc := set_table_name_map_safe_temp_ (delete key) cc in
                  (ETABLE_REGION_CREATE_FAILED, new_table_id, cc, mi)
                else
                  let '(_, cc, mi) := GetNextId EPOCH_REGION cc mi in
                  let table_internal :=
                    {| table_internal_id := new_table_id;
                       table_internal_schema_id := schema_id;
                       table_internal_definition := table_definition;
                       table_partitions := new_region_ids |} in
                  let '(_, cc, mi) := GetNextId EPOCH_TABLE cc mi in
                  let mi := add_tables
                    {| table_increment_id := new_table_id;
                       table_increment_op_type := CREATE;
                       table_increment_table := table_internal |} mi in
                  (OK, new_table_id, cc, mi)
      end.

(** *** [DropTable] *)

Definition DropTable (schema_id table_id : N)
    (cc : CoordinatorControl) (mi : MetaIncrement)
    : Errno * CoordinatorControl * MetaIncrement :=
  if (schema_id <? 0)%N then (EILLEGAL_PARAMTETERS, cc, mi)
  else if negb (ValidateSchema schema_id cc) then (EILLEGAL_PARAMTETERS, cc, mi)
  else
    match table_map_ cc !! table_id with
    | None => (ETABLE_NOT_FOUND, cc, mi)
    | Some table_internal =>
        let cc := drop_regions (table_partitions table_internal) cc in
        let mi := add_tables
          {| table_increment_id := table_id;
             table_increment_op_type := DELETE;
             table_increment_table := table_internal |} mi in
        let '(_, cc, mi) := GetNextId EPOCH_TABLE cc mi in
        let cc := set_table_name_map_safe_temp_
          (delete (name_key schema_id
                     (table_name (table_internal_definition table_internal)))) cc in
        let '(_, has_auto_increment_column) :=
          CheckAutoIncrementInTableDefinition W
            (table_internal_definition table_internal) in
        let cc :=
          if has_auto_increment_column then
            AsyncSendDeleteAutoIncrementInternal table_id cc
          else cc in
        (OK, cc, mi)
    end.

(** *** [CreateIndex] *)

Definition CreateIndex (schema_id : N) (index_definition : IndexDefinition)
    (new_index_id : N) (cc : CoordinatorControl) (mi : MetaIncrement)
    : Errno * N * CoordinatorControl * MetaIncrement :=
  if (schema_id <? 0)%N || bool_decide (schema_id = ROOT_SCHEMA W) then
    (EILLEGAL_PARAMTETERS, new_index_id, cc, mi)
  else if negb (SafeMap_Exists (schema_map_ cc) schema_id) then
    (EILLEGAL_PARAMTETERS, new_index_id, cc, mi)
  else
    let status := ValidateIndexDefinition index_definition in
    if negb (ok status) then (status, new_index_id, cc, mi)
    else
      match validate_partition EINDEX_DEFINITION_ILLEGAL
              (index_partition index_definition) with
      | inl illegal => (illegal, new_index_id, cc, mi)
      | inr ranges =>
          let key := name_key schema_id (index_name index_definition) in
          let value := (SafeMap_Get (index_name_map_safe_temp_ cc) key 0%N).2 in
          if bool_decide (value ≠ 0%N) then (EINDEX_EXISTS, new_index_id, cc, mi)
          else
            let '(new_index_id, cc, mi) :=
              if (new_index_id <=? 0)%N then GetNextId ID_NEXT_TABLE cc mi
              else (new_index_id, cc, mi) in
            let '(status, cc) :=
              if with_auto_incrment index_definition then
                SyncSendCreateAutoIncrementInternal new_index_id
                  (index_auto_increment index_definition) cc
              else (OK, cc) in
            if negb (ok status) then
              (EAUTO_INCREMENT_WHILE_CREATING_TABLE, new_index_id, cc, mi)
            else
              let '(put, names) :=
                SafeMap_PutIfAbsent (index_name_map_safe_temp_ cc) key new_index_id in
              if (put <? 0)%Z then (EINDEX_EXISTS, new_index_id, cc, mi)
              else
                let cc := set_index_name_map_safe_temp_ (λ _, names) cc in
                let replica := index_replica index_definition in
                let replica := if (replica <? 1)%Z then 3%Z else replica in
                let '(new_region_ids, cc) :=
                  create_regions
                    (index_region_request schema_id index_definition replica new_index_id)
                    0 ranges [] cc in
                if (length new_region_ids <? length ranges)%nat then
                  let cc := drop_regions new_region_ids cc in
                  let cc := set_index_name_map_safe_temp_ (delete key) cc in
                  (EINDEX_REGION_CREATE_FAILED, new_index_id, cc, mi)
                else
                  let '(_, cc, mi) := GetNextId EPOCH_REGION cc mi in
                  let index_internal :=
                    {| index_internal_id := new_index_id;
                       index_internal_schema_id := schema_id;
                       index_internal_definition := index_definition;
                       index_partitions := new_region_ids |} in
                  let '(_, cc, mi) := GetNextId EPOCH_INDEX cc mi in
                  let mi := add_indexes
                    {| index_increment_id := new_index_id;
                       index_increment_op_type := CREATE;
                       index_increment_index := index_internal |} mi in
                  (OK, new_index_id, cc, mi)
      end.

(** *** [DropIndex] *)

Definition DropIndex (schema_id index_id : N)
    (cc : CoordinatorControl) (mi : MetaIncrement)
    : Errno * CoordinatorControl * MetaIncrement :=
  if (schema_id <? 0)%N then (EILLEGAL_PARAMTETERS, cc, mi)
  else if negb (ValidateSchema schema_id cc) then (EILLEGAL_PARAMTETERS, cc, mi)
  else
    match index_map_ cc !! index_id with
    | None => (EINDEX_NOT_FOUND, cc, mi)
    | Some index_internal =>
        let cc := drop_regions (index_partitions index_internal) cc in
        let mi := add_indexes
          {| index_increment_id := index_id;
             index_increment_op_type := DELETE;
             index_increment_index := index_internal |} mi in
        let '(_, cc, mi) := GetNextId EPOCH_INDEX cc mi in
        let cc := set_index_name_map_safe_temp_
          (delete (name_key schema_id
                     (index_name (index_internal_definition index_internal)))) cc in
        let cc :=
          if with_auto_incrment (index_internal_definition index_internal) then
            AsyncSendDeleteAutoIncrementInternal index_id cc
          else cc in
        (OK, cc, mi)
    end.

End Catalog.

(** ** Read path ([pb::meta] views) *)

Inductive EntityType :=
  | ENTITY_TYPE_SCHEMA
  | ENTITY_TYPE_TABLE
  | ENTITY_TYPE_PART
  | ENTITY_TYPE_INDEX.

Record DingoCommonId := {
  entity_type : EntityType;
  parent_entity_id : N;
  entity_id : N }.

Record Schema := {
  schema_id : DingoCommonId;
  schema_name : string;
  schema_table_ids : list DingoCommonId }.

Record TableDefinitionWithId := {
  table_with_id_id : DingoCommonId;
  table_with_id_definition : TableDefinition }.

Record IndexDefinitionWithId := {
  index_with_id_id : DingoCommonId;
  index_with_id_definition : IndexDefinition }.

(** A sub-message that was never touched is [None]; [mutable_x()] makes it
    [Some] of the default message. *)
Record RangeDistribution := {
  distribution_id : DingoCommonId;
  distribution_range : option Range;
  distribution_leader : option Location;
  distribution_voters : list Location;
  distribution_learners : list Location;
  regionmap_epoch : N;
  storemap_epoch : N }.

Record MetricsWithId := {
  metrics_with_id_id : option DingoCommonId;
  metrics_with_id_metrics : option Metrics }.

(** [x.id().entity_id()]: zero when the id was never set. *)
Definition id_entity_id (id : option DingoCommonId) : N :=
  match id with Some i => entity_id i | None => 0%N end.

(** *** [GetSchemas], [GetTables], [GetIndexs] *)

Definition schema_view (parent : N) (entry : N * SchemaInternal) : Schema :=
  {| schema_id := {| entity_type := ENTITY_TYPE_SCHEMA;
                     parent_entity_id := parent; entity_id := entry.1 |};
     schema_name := schema_internal_name entry.2;
     schema_table_ids :=
       fold_left
         (λ ids it_table,
            ids ++ [ {| entity_type := ENTITY_TYPE_TABLE;
                        parent_entity_id := entry.1; entity_id := it_table |} ])
         (table_ids entry.2) [] |}.

(** The loop runs over a copy of [schema_map_], in the order of its
    iterator; taking the copy does not fail. *)
Definition GetSchemas (schema_id : N) (schemas : list Schema) (cc : CoordinatorControl)
    : Errno * list Schema :=
  if bool_decide (schema_id ≠ 0%N) then (EILLEGAL_PARAMTETERS, schemas)
  else if negb (bool_decide (schemas = [])) then (EILLEGAL_PARAMTETERS, schemas)
  else
    (OK, fold_left (λ out it, out ++ [schema_view schema_id it])
           (map_to_list (schema_map_ cc)) schemas).

Definition GetTables (schema_id : N) (table_definition_with_ids : list TableDefinitionWithId)
    (cc : CoordinatorControl) : Errno * list TableDefinitionWithId :=
  if (schema_id <? 0)%N then (EILLEGAL_PARAMTETERS, table_definition_with_ids)
  else if negb (bool_decide (table_definition_with_ids = [])) then
    (EILLEGAL_PARAMTETERS, table_definition_with_ids)
  else
    match schema_map_ cc !! schema_id with
    | None => (ESCHEMA_NOT_FOUND, table_definition_with_ids)
    | Some schema_internal =>
        (OK,
         fold_left
           (λ out table_id,
              match table_map_ cc !! table_id with
              | None => out
              | Some table_internal =>
                  out ++ [ {| table_with_id_id :=
                                {| entity_type := ENTITY_TYPE_TABLE;
                                   parent_entity_id := schema_id;
                                   entity_id := table_id |};
                              table_with_id_definition :=
                                table_internal_definition table_internal |} ]
              end)
           (table_ids schema_internal) table_definition_with_ids)
    end.

Definition GetIndexs (schema_id : N) (index_definition_with_ids : list IndexDefinitionWithId)
    (cc : CoordinatorControl) : Errno * list IndexDefinitionWithId :=
  if (schema_id <? 0)%N then (EILLEGAL_PARAMTETERS, index_definition_with_ids)
  else if negb (bool_decide (index_definition_with_ids = [])) then
    (EILLEGAL_PARAMTETERS, index_definition_with_ids)
  else
    match schema_map_ cc !! schema_id with
    | None => (ESCHEMA_NOT_FOUND, index_definition_with_ids)
    | Some schema_internal =>
        (OK,
         fold_left
           (λ out index_id,
              match index_map_ cc !! index_id with
              | None => out
              | Some index_internal =>
                  out ++ [ {| index_with_id_id :=
                                {| entity_type := ENTITY_TYPE_INDEX;
                                   parent_entity_id := schema_id;
                                   entity_id := index_id |};
                              index_with_id_definition :=
                                index_internal_definition index_internal |} ]
              end)
           (index_ids schema_internal) index_definition_with_ids)
    end.

(** *** [GetTableRange], [GetIndexRange]

    The body of the loop over the partitions is the same in both functions.
    [add_range_distribution()] and the id come first; when the region is not
    in [region_map_] the [continue] leaves the new entry with its id only. *)

Definition set_leader (l : Location) (rd : RangeDistribution) : RangeDistribution :=
  {| distribution_id := distribution_id rd;
     distribution_range := distribution_range rd;
     distribution_leader := Some l;
     distribution_voters := distribution_voters rd;
     distribution_learners := distribution_learners rd;
     regionmap_epoch := regionmap_epoch rd;
     storemap_epoch := storemap_epoch rd |}.

Definition add_voters (l : Location) (rd : RangeDistribution) : RangeDistribution :=
  {| distribution_id := distribution_id rd;
     distribution_range := distribution_range rd;
     distribution_leader := distribution_leader rd;
     distribution_voters := distribution_voters rd ++ [l];
     distribution_learners := distribution_learners rd;
     regionmap_epoch := regionmap_epoch rd;
     storemap_epoch := storemap_epoch rd |}.

Definition add_learners (l : Location) (rd : RangeDistribution) : RangeDistribution :=
  {| distribution_id := distribution_id rd;
     distribution_range := distribution_range rd;
     distribution_leader := distribution_leader rd;
     distribution_voters := distribution_voters rd;
     distribution_learners := distribution_learners rd ++ [l];
     regionmap_epoch := regionmap_epoch rd;
     storemap_epoch := storemap_epoch rd |}.

Definition set_epochs (region_map_epoch store_map_epoch : N) (rd : RangeDistribution)
    : RangeDistribution :=
  {| distribution_id := distribution_id rd;
     distribution_range := distribution_range rd;
     distribution_leader := distribution_leader rd;
     distribution_voters := distribution_voters rd;
     distribution_learners := distribution_learners rd;
     regionmap_epoch := region_map_epoch;
     storemap_epoch := store_map_epoch |}.

Definition add_peer (leader_store_id : N) (rd : RangeDistribution) (part_peer : Peer)
    : RangeDistribution :=
  let rd :=
    if bool_decide (store_id part_peer = leader_store_id) then
      set_leader (server_location part_peer) rd
    else rd in
  match role part_peer with
  | VOTER => add_voters (server_location part_peer) rd
  | LEARNER => add_learners (server_location part_peer) rd
  end.

Definition range_distribution_of (cc : CoordinatorControl) (parent_id region_id : N)
    : RangeDistribution :=
  let range_distribution :=
    {| distribution_id := {| entity_type := ENTITY_TYPE_PART;
                             parent_entity_id := parent_id;
                             entity_id := region_id |};
       distribution_range := None;
       distribution_leader := None;
       distribution_voters := [];
       distribution_learners := [];
       regionmap_epoch := 0;
       storemap_epoch := 0 |} in
  match region_map_ cc !! region_id with
  | None => range_distribution
  | Some part_region =>
      let range_distribution :=
        {| distribution_id := distribution_id range_distribution;
           distribution_range := Some (region_range (definition part_region));
           distribution_leader := Some Location_default;
           distribution_voters := [];
           distribution_learners := [];
           regionmap_epoch := 0;
           storemap_epoch := 0 |} in
      let range_distribution :=
        fold_left (add_peer (leader_store_id part_region))
          (peers (definition part_region)) range_distribution in
      set_epochs (GetPresentId EPOCH_REGION cc) (GetPresentId EPOCH_STORE cc)
        range_distribution
  end.

Definition add_range_distributions (cc : CoordinatorControl) (parent_id : N)
    (partitions : list N) (range : list RangeDistribution) : list RangeDistribution :=
  fold_left (λ out region_id, out ++ [range_distribution_of cc parent_id region_id])
    partitions range.

Definition GetTableRange (schema_id table_id : N) (table_range : list RangeDistribution)
    (cc : CoordinatorControl) : Errno * list RangeDistribution :=
  if (schema_id <? 0)%N then (EILLEGAL_PARAMTETERS, table_range)
  else if negb (SafeMap_Exists (schema_map_ cc) schema_id) then
    (ESCHEMA_NOT_FOUND, table_range)
  else
    match table_map_ cc !! table_id with
    | None => (ETABLE_NOT_FOUND, table_range)
    | Some table_internal =>
        (OK, add_range_distributions cc table_id
               (table_partitions table_internal) table_range)
    end.

Definition GetIndexRange (schema_id index_id : N) (index_range : list RangeDistribution)
    (cc : CoordinatorControl) : Errno * list RangeDistribution :=
  if (schema_id <? 0)%N then (EILLEGAL_PARAMTETERS, index_range)
  else if negb (SafeMap_Exists (schema_map_ cc) schema_id) then
    (ESCHEMA_NOT_FOUND, index_range)
  else
    match index_map_ cc !! index_id with
    | None => (EINDEX_NOT_FOUND, index_range)
    | Some index_internal =>
        (OK, add_range_distributions cc index_id
               (index_partitions index_internal) index_range)
    end.

(** ** Metrics *)

(** [std::string(10, c)] *)
Definition string_of_copies (n : nat) (c : ascii) : string :=
  Nat.iter n (String c) "".

Definition min_key_seed : string := string_of_copies 10 (ascii_of_N 0).
Definition max_key_seed : string := string_of_copies 10 (ascii_of_N 255).

(** One pass of the loop of [CalculateTableMetricsSingle] and
    [CalculateIndexMetricsSingle] over a partition: a region that is missing
    or has no metrics is passed over by [continue]. *)
Definition add_region_metrics (cc : CoordinatorControl)
    (acc : N * string * string) (region_id : N) : N * string * string :=
  let '(row_count_acc, min_key_acc, max_key_acc) := acc in
  match region_map_ cc !! region_id with
  | None => acc
  | Some part_region =>
      match metrics part_region with
      | None => acc
      | Some region_metrics =>
          let row_count_acc := wrap64 (row_count_acc + row_count region_metrics) in
          let min_key_acc :=
            if bool_decide (min_key_acc = "") then min_key region_metrics
            else
              match String.compare min_key_acc (min_key region_metrics) with
              | Gt => min_key region_metrics
              | _ => min_key_acc
              end in
          let max_key_acc :=
            if bool_decide (max_key_acc = "") then max_key region_metrics
            else
              match String.compare max_key_acc (max_key region_metrics) with
              | Lt => max_key region_metrics
              | _ => max_key_acc
              end in
          (row_count_acc, min_key_acc, max_key_acc)
      end
  end.

Definition calculate_metrics (cc : CoordinatorControl) (partitions : list N) : Metrics :=
  let '(row_count, min_key, max_key) :=
    fold_left (add_region_metrics cc) partitions (0%N, min_key_seed, max_key_seed) in
  {| rows_count := row_count;
     metrics_min_key := min_key;
     metrics_max_key := max_key;
     part_count := N.of_nat (length partitions) |}.

(** The return type is [uint64_t]: [return -1] yields [UINT64_MAX]. *)
Definition CalculateTableMetricsSingle (table_id : N) (table_metrics : Metrics)
    (cc : CoordinatorControl) : N * Metrics :=
  match table_map_ cc !! table_id with
  | None => (UINT64_MAX, table_metrics)
  | Some table_internal =>
      (0%N, calculate_metrics cc (table_partitions table_internal))
  end.

Definition CalculateIndexMetricsSingle (index_id : N) (index_metrics : Metrics)
    (cc : CoordinatorControl) : N * Metrics :=
  match index_map_ cc !! index_id with
  | None => (UINT64_MAX, index_metrics)
  | Some index_internal =>
      (0%N, calculate_metrics cc (index_partitions index_internal))
  end.

(** *** [GetTableMetrics], [GetIndexMetrics] *)

Definition GetTableMetrics (schema_id table_id : N) (table_metrics : MetricsWithId)
    (cc : CoordinatorControl) : Errno * MetricsWithId * CoordinatorControl :=
  if (schema_id <? 0)%N then (EILLEGAL_PARAMTETERS, table_metrics, cc)
  else if bool_decide (id_entity_id (metrics_with_id_id table_metrics) ≠ 0%N) then
    (EILLEGAL_PARAMTETERS, table_metrics, cc)
  else if negb (SafeMap_Exists (schema_map_ cc) schema_id) then
    (ESCHEMA_NOT_FOUND, table_metrics, cc)
  else if negb (SafeMap_Exists (table_map_ cc) table_id) then
    (ETABLE_NOT_FOUND, table_metrics, cc)
  else
    let '(ret, table_metrics_internal) :=
      SafeMap_Get (table_metrics_map_ cc) table_id MetricsInternal_default in
    let with_id (m : MetricsInternal) :=
      {| metrics_with_id_id :=
           Some {| entity_type := ENTITY_TYPE_TABLE;
                   parent_entity_id := schema_id; entity_id := table_id |};
         metrics_with_id_metrics := Some (metrics_internal_metrics m) |} in
    if (ret <? 0)%Z then
      let '(calc, table_metrics_single) :=
        CalculateTableMetricsSingle table_id
          (metrics_internal_metrics table_metrics_internal) cc in
      if (calc <? 0)%N then (ETABLE_METRICS_FAILED, table_metrics, cc)
      else
        let table_metrics_internal :=
          {| metrics_internal_id := table_id;
             metrics_internal_metrics := table_metrics_single |} in
        let cc := set_table_metrics_map_ (insert table_id table_metrics_internal) cc in
        (OK, with_id table_metrics_internal, cc)
    else (OK, with_id table_metrics_internal, cc).

Definition GetIndexMetrics (schema_id index_id : N) (index_metrics : MetricsWithId)
    (cc : CoordinatorControl) : Errno * MetricsWithId * CoordinatorControl :=
  if (schema_id <? 0)%N then (EILLEGAL_PARAMTETERS, index_metrics, cc)
  else if bool_decide (id_entity_id (metrics_with_id_id index_metrics) ≠ 0%N) then
    (EILLEGAL_PARAMTETERS, index_metrics, cc)
  else if negb (SafeMap_Exists (schema_map_ cc) schema_id) then
    (ESCHEMA_NOT_FOUND, index_metrics, cc)
  else if negb (SafeMap_Exists (index_map_ cc) index_id) then
    (EINDEX_NOT_FOUND, index_metrics, cc)
  else
    let '(ret, index_metrics_internal) :=
      SafeMap_Get (index_metrics_map_ cc) index_id MetricsInternal_default in
    let with_id (m : MetricsInternal) :=
      {| metrics_with_id_id :=
           Some {| entity_type := ENTITY_TYPE_INDEX;
                   parent_entity_id := schema_id; entity_id := index_id |};
         metrics_with_id_metrics := Some (metrics_internal_metrics m) |} in
    if (ret <? 0)%Z then
      let '(calc, index_metrics_single) :=
        CalculateIndexMetricsSingle index_id
          (metrics_internal_metrics index_metrics_internal) cc in
      if (calc <? 0)%N then (EINDEX_METRICS_FAILED, index_metrics, cc)
      else
        let index_metrics_internal :=
          {| metrics_internal_id := index_id;
             metrics_internal_metrics := index_metrics_single |} in
        let cc := set_index_metrics_map_ (insert index_id index_metrics_internal) cc in
        (OK, with_id index_metrics_internal, cc)
    else (OK, with_id index_metrics_internal, cc).

(** *** The periodic sweep: [CalculateTableMetrics], [CalculateIndexMetrics]

    The loop runs over a copy of the cache and updates the cache itself.
    The exporter calls ([DeleteTableBvar], [UpdateTableBvar]) do not touch
    the catalog and are dropped like logging. *)

Definition sweep_table_metrics (cc : CoordinatorControl) (entry : N * MetricsInternal)
    : CoordinatorControl :=
  let '(table_id, table_metrics_internal) := entry in
  let '(calc, table_metrics) :=
    CalculateTableMetricsSingle table_id Metrics_default cc in
  if (calc <? 0)%N then set_table_metrics_map_ (delete table_id) cc
  else
    let table_metrics_internal :=
      {| metrics_internal_id := metrics_internal_id table_metrics_internal;
         metrics_internal_metrics := table_metrics |} in
    set_table_metrics_map_
      (λ m, (SafeMap_PutIfExists m table_id table_metrics_internal).2) cc.

Definition CalculateTableMetrics (cc : CoordinatorControl) : CoordinatorControl :=
  fold_left sweep_table_metrics (map_to_list (table_metrics_map_ cc)) cc.

Definition sweep_index_metrics (cc : CoordinatorControl) (entry : N * MetricsInternal)
    : CoordinatorControl :=
  let '(index_id, index_metrics_internal) := entry in
  let '(calc, index_metrics) :=
    CalculateIndexMetricsSingle index_id Metrics_default cc in
  if (calc <? 0)%N then set_index_metrics_map_ (delete index_id) cc
  else
    let index_metrics_internal :=
      {| metrics_internal_id := metrics_internal_id index_metrics_internal;
         metrics_internal_metrics := index_metrics |} in
    set_index_metrics_map_
      (λ m, (SafeMap_PutIfExists m index_id index_metrics_internal).2) cc.

Definition CalculateIndexMetrics (cc : CoordinatorControl) : CoordinatorControl :=
  fold_left sweep_index_metrics (map_to_list (index_metrics_map_ cc)) cc.

(** The outcome of a run of the creation loop, read off the trace: the calls
    that succeeded, followed by the failed call that broke the loop, if
    any. *)
Record creation_run (request : nat → Range → CreateRegionRequest)
    (ranges : list Range) (new : list Call) (created : list N) : Prop := {
  run_requests : Forall (λ r, ∃ i range, r = request i range) (create_requests new);
  run_created : created_regions new = created;
  run_dropped : dropped_regions new = [];
  run_outcome :
    (existsb failed_create new = false ∧ length created = length ranges ∧
     length (create_requests new) = length ranges) ∨
    (existsb failed_create new = true ∧ (length created < length ranges)%nat) }.

(** ** Notions used to state the properties *)

(** A partition rule as the table and index validation refuses it: no rule
    at all, a rule with a hash partition, or a rule without any range. *)
Definition partition_rejected (partition : option PartitionRule) : Prop :=
  partition = None ∨
  ∃ rule, partition = Some rule ∧
    (is_Some (hash_partition rule) ∨ default [] (range_partition rule) = []).

(** The replica count of the specification: 3 when the declared one is
    below 1. *)
Definition replica_or_default (replica : Z) : Z :=
  if (replica <? 1)%Z then 3%Z else replica.

(** The number of entries of kind [key] among the id-epoch entries of a
    meta-increment: each entry is one [GetNextId] on that kind. *)
Definition bumps (key : IdEpochType) (mi : MetaIncrement) : nat :=
  length (filter (λ e, idepoch_id e = key) (idepochs mi)).

(** The range distribution of a partition in the words of the
    specification.  The leader is the location of the peer whose store id is
    the leader store id of the region (the last such peer if there are
    several, the empty location if there is none); the voters and learners
    are the locations of the peers of that role, in the order of the peers;
    the range is the one of the region record.  For a region that is not in
    the region map only the id is filled in. *)




(** The aggregate of the specification.  The regions that contribute are
    those of the partitions that are in the region map and carry metrics;
    [lex_min] and [lex_max] are the byte-wise lexicographic minimum and
    maximum of two keys. *)





(** ** Concrete scenarios

    The catalogs, definitions and collaborators used to evaluate the
    operations on explicit inputs. *)

Definition one_range : list Range := [ {| start_key := "a"; end_key := "m" |} ].

Definition two_ranges : list Range :=
  [ {| start_key := "a"; end_key := "m" |}; {| start_key := "m"; end_key := "z" |} ].

Definition range_rule (ranges : list Range) : PartitionRule :=
  {| hash_partition := None; range_partition := Some ranges |}.

Definition flat_index_parameter : IndexParameter :=
  {| index_type := INDEX_TYPE_VECTOR;
     vector_index_parameter :=
       Some {| vector_index_type := VECTOR_INDEX_TYPE_FLAT;
               vector_parameter_case :=
                 FlatParameter {| flat_dimension := 8;
                                  flat_metric_type := METRIC_TYPE_OTHER 1 |} |};
     scalar_index_parameter := None |}.

Definition flat_index (name : string) (ranges : list Range) : IndexDefinition :=
  {| index_name := name;
     index_replica := 0;
     index_partition := Some (range_rule ranges);
     index_parameter := flat_index_parameter;
     with_auto_incrment := false;
     index_auto_increment := 0 |}.

Definition unnamed_flat_index : IndexDefinition := flat_index "" one_range.

(** Collaborators of the scenarios: the root schema has id 0 and the ids up
    to 1000 are reserved; a table definition has an auto-increment column
    when one of its columns is flagged so; the region service numbers the
    regions 101, 102, ... in the order of the [CreateRegion] calls of the
    trace and, for [fail_at = Some k], refuses the call that follows [k]
    earlier ones; every other call succeeds. *)
Definition scenario_collaborators (fail_at : option nat) : Collaborators :=
  {| ROOT_SCHEMA := 0;
     COORDINATOR_ID_OF_MAP_MIN := 1000;
     CheckAutoIncrementInTableDefinition :=
       λ d, (OK, existsb is_auto_increment (table_columns d));
     CreateRegion_outcome :=
       λ trace _,
         if bool_decide (fail_at = Some (length (create_requests trace)))
         then (ERRNO_OTHER 1, 0%N)
         else (OK, (101 + N.of_nat (length (create_requests trace)))%N);
     DropRegion_outcome := λ _ _, OK;
     SyncSendCreateAutoIncrementInternal_outcome := λ _ _ _, OK |}.

Definition orders (replica : Z) (ranges : list Range) : TableDefinition :=
  {| table_name := "orders";
     table_columns := [];
     table_replica := replica;
     table_partition := Some (range_rule ranges);
     table_auto_increment := 0 |}.

Definition sales_schema (tables indexes : list N) : SchemaInternal :=
  {| schema_internal_id := 1001;
     schema_internal_name := "sales";
     table_ids := tables;
     index_ids := indexes |}.

(** A catalog with the user schema "sales" (id 1001) and nothing else. *)
Definition sales_catalog : CoordinatorControl :=
  {| schema_map_ := {[ 1001%N := sales_schema [] [] ]};
     table_map_ := ∅;
     index_map_ := ∅;
     region_map_ := ∅;
     table_metrics_map_ := ∅;
     index_metrics_map_ := ∅;
     schema_name_map_safe_temp_ := {[ "sales" := 1001%N ]};
     table_name_map_safe_temp_ := ∅;
     index_name_map_safe_temp_ := ∅;
     id_epoch_map_safe_temp_ := {[ ID_NEXT_SCHEMA := 1001%N ]};
     calls_ := [] |}.

Definition orders_table : TableInternal :=
  {| table_internal_id := 1002;
     table_internal_schema_id := 1001;
     table_internal_definition := orders 3 two_ranges;
     table_partitions := [101%N; 102%N] |}.

Definition location (n : Z) : Location := {| host := "store"; port := n |}.

Definition region (range : Range) (leader : N) (m : option RegionMetrics) : Region :=
  {| definition :=
       {| region_range := range;
          peers := [ {| store_id := 1; role := VOTER; server_location := location 1 |};
                     {| store_id := 2; role := VOTER; server_location := location 2 |};
                     {| store_id := 3; role := LEARNER; server_location := location 3 |} ] |};
     leader_store_id := leader;
     metrics := m |}.

(** The catalog after table "orders" (id 1002) was created in "sales" with
    the regions 101 and 102; region 101 has since been split at "g". *)
Definition orders_catalog : CoordinatorControl :=
  {| schema_map_ := {[ 1001%N := sales_schema [1002%N] [] ]};
     table_map_ := {[ 1002%N := orders_table ]};
     index_map_ := ∅;
     region_map_ :=
       {[ 101%N := region {| start_key := "a"; end_key := "g" |} 2 None;
          102%N := region {| start_key := "m"; end_key := "z" |} 1 None ]};
     table_metrics_map_ := ∅;
     index_metrics_map_ := ∅;
     schema_name_map_safe_temp_ := {[ "sales" := 1001%N ]};
     table_name_map_safe_temp_ := {[ name_key 1001 "orders" := 1002%N ]};
     index_name_map_safe_temp_ := ∅;
     id_epoch_map_safe_temp_ :=
       {[ ID_NEXT_SCHEMA := 1001%N; ID_NEXT_TABLE := 1002%N;
          EPOCH_REGION := 7%N; EPOCH_STORE := 4%N ]};
     calls_ := [] |}.

Definition unpartitioned_table : TableDefinition :=
  {| table_name := "orders";
     table_columns := [];
     table_replica := 3;
     table_partition := None;
     table_auto_increment := 0 |}.

Definition hash_partitioned_table : TableDefinition :=
  {| table_name := "orders";
     table_columns := [];
     table_replica := 3;
     table_partition :=
       Some {| hash_partition := Some (); range_partition := Some two_ranges |};
     table_auto_increment := 0 |}.

Definition archive : TableDefinition :=
  {| table_name := "archive";
     table_columns := [];
     table_replica := 3;
     table_partition := Some (range_rule one_range);
     table_auto_increment := 0 |}.

Definition by_vec_index : IndexInternal :=
  {| index_internal_id := 1003;
     index_internal_schema_id := 1001;
     index_internal_definition := flat_index "by_vec" one_range;
     index_partitions := [103%N] |}.

(** "sales" holds no table and the index "by_vec" (id 1003). *)
Definition sales_with_index_catalog : CoordinatorControl :=
  {| schema_map_ := {[ 1001%N := sales_schema [] [1003%N] ]};
     table_map_ := ∅;
     index_map_ := {[ 1003%N := by_vec_index ]};
     region_map_ :=
       {[ 103%N := region {| start_key := "a"; end_key := "m" |} 1 None ]};
     table_metrics_map_ := ∅;
     index_metrics_map_ := ∅;
     schema_name_map_safe_temp_ := {[ "sales" := 1001%N ]};
     table_name_map_safe_temp_ := ∅;
     index_name_map_safe_temp_ := {[ name_key 1001 "by_vec" := 1003%N ]};
     id_epoch_map_safe_temp_ :=
       {[ ID_NEXT_SCHEMA := 1001%N; ID_NEXT_TABLE := 1003%N ]};
     calls_ := [] |}.

Definition cached_metrics (id rows parts : N) : MetricsInternal :=
  {| metrics_internal_id := id;
     metrics_internal_metrics :=
       {| rows_count := rows;
          metrics_min_key := min_key_seed;
          metrics_max_key := max_key_seed;
          part_count := parts |} |}.

(** The catalog with "orders", whose metrics cache still holds an entry for
    the table 1009 that has been dropped. *)
Definition stale_cache_catalog : CoordinatorControl :=
  set_table_metrics_map_
    (λ _, {[ 1002%N := cached_metrics 1002 99 2; 1009%N := cached_metrics 1009 40 1 ]})
    orders_catalog.

Definition stub_distribution : RangeDistribution :=
  {| distribution_id := {| entity_type := ENTITY_TYPE_PART;
                           parent_entity_id := 9; entity_id := 9 |};
     distribution_range := None;
     distribution_leader := None;
     distribution_voters := [];
     distribution_learners := [];
     regionmap_epoch := 0;
     storemap_epoch := 0 |}.

Definition used_metrics : MetricsWithId :=
  {| metrics_with_id_id :=
       Some {| entity_type := ENTITY_TYPE_TABLE;
               parent_entity_id := 1001; entity_id := 1002 |};
     metrics_with_id_metrics := None |}.

Definition used_schema : Schema :=
  {| schema_id := {| entity_type := ENTITY_TYPE_SCHEMA;
                     parent_entity_id := 0; entity_id := 1001 |};
     schema_name := "sales";
     schema_table_ids := [] |}.


Definition counted (rows : N) (low high : string) : option RegionMetrics :=
  Some {| row_count := rows; min_key := low; max_key := high |}.

Definition events_table : TableInternal :=
  {| table_internal_id := 1004;
     table_internal_schema_id := 1001;
     table_internal_definition := orders 3 two_ranges;
     table_partitions := [201%N; 202%N; 203%N] |}.

(** A table with three regions of 10, 20 and 30 rows and the key ranges
    (a,c), (c,f) and (f,z). *)
Definition events_catalog : CoordinatorControl :=
  {| schema_map_ := {[ 1001%N := sales_schema [1004%N] [] ]};
     table_map_ := {[ 1004%N := events_table ]};
     index_map_ := ∅;
     region_map_ :=
       {[ 201%N := region {| start_key := "a"; end_key := "c" |} 1 (counted 10 "a" "c");
          202%N := region {| start_key := "c"; end_key := "f" |} 1 (counted 20 "c" "f");
          203%N := region {| start_key := "f"; end_key := "z" |} 1 (counted 30 "f" "z") ]};
     table_metrics_map_ := ∅;
     index_metrics_map_ := ∅;
     schema_name_map_safe_temp_ := {[ "sales" := 1001%N ]};
     table_name_map_safe_temp_ := ∅;
     index_name_map_safe_temp_ := ∅;
     id_epoch_map_safe_temp_ := ∅;
     calls_ := [] |}.

Definition fresh_metrics : MetricsWithId :=
  {| metrics_with_id_id := None; metrics_with_id_metrics := None |}.

(** ** Further read operations *)

Section Lookup.

Variable W : Collaborators.

(** *** [GetSchema], [GetSchemaByName]

    The id and the name of the output are overwritten; the table ids are
    added to those the output already holds. *)

Definition GetSchema (schema_id : N) (schema : Schema) (cc : CoordinatorControl)
    : Errno * Schema :=
  if (schema_id <? 0)%N then (EILLEGAL_PARAMTETERS, schema)
  else
    match schema_map_ cc !! schema_id with
    | None => (ESCHEMA_NOT_FOUND, schema)
    | Some temp_schema =>
        (OK,
         {| schema_id := {| entity_type := ENTITY_TYPE_SCHEMA;
                            parent_entity_id := ROOT_SCHEMA W;
                            entity_id := schema_internal_id temp_schema |};
            schema_name := schema_internal_name temp_schema;
            schema_table_ids :=
              fold_left
                (λ ids it,
                   ids ++ [ {| entity_type := ENTITY_TYPE_TABLE;
                               parent_entity_id := schema_id; entity_id := it |} ])
                (table_ids temp_schema) (schema_table_ids schema) |})
    end.

Definition GetSchemaByName (schema_name : string) (schema : Schema)
    (cc : CoordinatorControl) : Errno * Schema :=
  if bool_decide (schema_name = "") then (EILLEGAL_PARAMTETERS, schema)
  else
    let '(ret, temp_schema_id) :=
      SafeMap_Get (schema_name_map_safe_temp_ cc) schema_name 0%N in
    if (ret <? 0)%Z then (ESCHEMA_NOT_FOUND, schema)
    else GetSchema temp_schema_id schema cc.

End Lookup.

(** *** [GetTablesCount], [GetIndexsCount] *)

Definition GetTablesCount (schema_id : N) (tables_count : N) (cc : CoordinatorControl)
    : Errno * N :=
  if (schema_id <? 0)%N then (EILLEGAL_PARAMTETERS, tables_count)
  else
    match schema_map_ cc !! schema_id with
    | None => (ESCHEMA_NOT_FOUND, tables_count)
    | Some schema_internal => (OK, N.of_nat (length (table_ids schema_internal)))
    end.

Definition GetIndexsCount (schema_id : N) (indexs_count : N) (cc : CoordinatorControl)
    : Errno * N :=
  if (schema_id <? 0)%N then (EILLEGAL_PARAMTETERS, indexs_count)
  else
    match schema_map_ cc !! schema_id with
    | None => (ESCHEMA_NOT_FOUND, indexs_count)
    | Some schema_internal => (OK, N.of_nat (length (index_ids schema_internal)))
    end.

(** *** [GetTable], [GetIndex] *)

Definition GetTable (schema_id table_id : N)
    (table_definition_with_id : TableDefinitionWithId) (cc : CoordinatorControl)
    : Errno * TableDefinitionWithId :=
  if (schema_id <? 0)%N then (EILLEGAL_PARAMTETERS, table_definition_with_id)
  else if (table_id <=? 0)%N then (EILLEGAL_PARAMTETERS, table_definition_with_id)
  else if negb (ValidateSchema schema_id cc) then
    (ESCHEMA_NOT_FOUND, table_definition_with_id)
  else
    match table_map_ cc !! table_id with
    | None => (ETABLE_NOT_FOUND, table_definition_with_id)
    | Some table_internal =>
        (OK,
         {| table_with_id_id :=
              {| entity_type := ENTITY_TYPE_TABLE;
                 parent_entity_id := schema_id; entity_id := table_id |};
            table_with_id_definition := table_internal_definition table_internal |})
    end.

Definition GetIndex (schema_id index_id : N)
    (index_definition_with_id : IndexDefinitionWithId) (cc : CoordinatorControl)
    : Errno * IndexDefinitionWithId :=
  if (schema_id <? 0)%N then (EILLEGAL_PARAMTETERS, index_definition_with_id)
  else if (index_id <=? 0)%N then (EILLEGAL_PARAMTETERS, index_definition_with_id)
  else if negb (ValidateSchema schema_id cc) then
    (ESCHEMA_NOT_FOUND, index_definition_with_id)
  else
    match index_map_ cc !! index_id with
    | None => (EINDEX_NOT_FOUND, index_definition_with_id)
    | Some index_internal =>
        (OK,
         {| index_with_id_id :=
              {| entity_type := ENTITY_TYPE_INDEX;
                 parent_entity_id := schema_id; entity_id := index_id |};
            index_with_id_definition := index_internal_definition index_internal |})
    end.

(** *** [GetTableByName], [GetIndexByName] *)

Definition GetTableByName (schema_id : N) (table_name : string)
    (table_definition : TableDefinitionWithId) (cc : CoordinatorControl)
    : Errno * TableDefinitionWithId :=
  if (schema_id <? 0)%N then (EILLEGAL_PARAMTETERS, table_definition)
  else if bool_decide (table_name = "") then (EILLEGAL_PARAMTETERS, table_definition)
  else if negb (ValidateSchema schema_id cc) then (ESCHEMA_NOT_FOUND, table_definition)
  else
    let '(ret, temp_table_id) :=
      SafeMap_Get (table_name_map_safe_temp_ cc) (name_key schema_id table_name) 0%N in
    if (ret <? 0)%Z then (ETABLE_NOT_FOUND, table_definition)
    else GetTable schema_id temp_table_id table_definition cc.

Definition GetIndexByName (schema_id : N) (index_name : string)
    (index_definition : IndexDefinitionWithId) (cc : CoordinatorControl)
    : Errno * IndexDefinitionWithId :=
  if (schema_id <? 0)%N then (EILLEGAL_PARAMTETERS, index_definition)
  else if bool_decide (index_name = "") then (EILLEGAL_PARAMTETERS, index_definition)
  else if negb (ValidateSchema schema_id cc) then (ESCHEMA_NOT_FOUND, index_definition)
  else
    let '(ret, temp_index_id) :=
      SafeMap_Get (index_name_map_safe_temp_ cc) (name_key schema_id index_name) 0%N in
    if (ret <? 0)%Z then (EINDEX_NOT_FOUND, index_definition)
    else GetIndex schema_id temp_index_id index_definition cc.

(** ** Further notions used to state the properties *)

(** The schema, table and index maps of the committed catalog and the
    metrics caches are the same in both states; the name indexes, the
    counters and the call trace are left open. *)
Definition committed_unchanged (cc cc' : CoordinatorControl) : Prop :=
  schema_map_ cc' = schema_map_ cc ∧
  table_map_ cc' = table_map_ cc ∧
  index_map_ cc' = index_map_ cc ∧
  table_metrics_map_ cc' = table_metrics_map_ cc ∧
  index_metrics_map_ cc' = index_metrics_map_ cc.

(** Every list of the meta-increment [mi'] starts with the list of [mi]. *)
Definition meta_increment_extends (mi mi' : MetaIncrement) : Prop :=
  schemas mi `prefix_of` schemas mi' ∧
  tables mi `prefix_of` tables mi' ∧
  indexes mi `prefix_of` indexes mi' ∧
  idepochs mi `prefix_of` idepochs mi'.

(** ** Further scenarios *)

(** A table with an auto-increment column that starts at 100. *)
Definition invoices : TableDefinition :=
  {| table_name := "invoices";
     table_columns := [ {| column_name := "id"; is_auto_increment := true |};
                        {| column_name := "total"; is_auto_increment := false |} ];
     table_replica := 0;
     table_partition := Some (range_rule two_ranges);
     table_auto_increment := 100 |}.

(** The collaborators of the scenarios with an auto-increment service that
    refuses every creation. *)
Definition auto_increment_down : Collaborators :=
  {| ROOT_SCHEMA := 0;
     COORDINATOR_ID_OF_MAP_MIN := 1000;
     CheckAutoIncrementInTableDefinition :=
       λ d, (OK, existsb is_auto_increment (table_columns d));
     CreateRegion_outcome :=
       λ trace _, (OK, (101 + N.of_nat (length (create_requests trace)))%N);
     DropRegion_outcome := λ _ _, OK;
     SyncSendCreateAutoIncrementInternal_outcome := λ _ _ _, ERRNO_OTHER 2 |}.

(** The reply of [GetTable] and [GetIndex] for an entry of the map. *)
Definition table_view (schema_id table_id : N) (table_internal : TableInternal)
    : TableDefinitionWithId :=
  {| table_with_id_id :=
       {| entity_type := ENTITY_TYPE_TABLE;
          parent_entity_id := schema_id; entity_id := table_id |};
     table_with_id_definition := table_internal_definition table_internal |}.

Definition index_view (schema_id index_id : N) (index_internal : IndexInternal)
    : IndexDefinitionWithId :=
  {| index_with_id_id :=
       {| entity_type := ENTITY_TYPE_INDEX;
          parent_entity_id := schema_id; entity_id := index_id |};
     index_with_id_definition := index_internal_definition index_internal |}.

(** Every schema is stored under its own id. *)
Definition schema_ids_consistent (cc : CoordinatorControl) : Prop :=
  ∀ schema_id schema_internal,
    schema_map_ cc !! schema_id = Some schema_internal →
    schema_internal_id schema_internal = schema_id.

(** The cache entry that a pass of the sweep leaves for a cached entry: the
    id of the cached entry, with the metrics computed from the partitions
    found under the key, or the empty metrics when the key is not in the
    map. *)
Definition refreshed_metrics (cc : CoordinatorControl) (partitions : option (list N))
    (cached : MetricsInternal) : MetricsInternal :=
  {| metrics_internal_id := metrics_internal_id cached;
     metrics_internal_metrics :=
       match partitions with
       | Some partitions => calculate_metrics cc partitions
       | None => Metrics_default
       end |}.

(** The state after every region has gone from the region map. *)
Definition without_regions (cc : CoordinatorControl) : CoordinatorControl :=
  {| schema_map_ := schema_map_ cc;
     table_map_ := table_map_ cc;
     index_map_ := index_map_ cc;
     region_map_ := ∅;
     table_metrics_map_ := table_metrics_map_ cc;
     index_metrics_map_ := index_metrics_map_ cc;
     schema_name_map_safe_temp_ := schema_name_map_safe_temp_ cc;
     table_name_map_safe_temp_ := table_name_map_safe_temp_ cc;
     index_name_map_safe_temp_ := index_name_map_safe_temp_ cc;
     id_epoch_map_safe_temp_ := id_epoch_map_safe_temp_ cc;
     calls_ := calls_ cc |}.

(** A catalog with the schemas "sales" (id 1001) and "hr" (id 10013); the
    table "3orders" (id 1002) of "sales" is in the name index. *)
Definition sales_and_hr_catalog : CoordinatorControl :=
  {| schema_map_ :=
       {[ 1001%N := sales_schema [1002%N] [];
          10013%N := {| schema_internal_id := 10013; schema_internal_name := "hr";
                        table_ids := []; index_ids := [] |} ]};
     table_map_ := ∅;
     index_map_ := ∅;
     region_map_ := ∅;
     table_metrics_map_ := ∅;
     index_metrics_map_ := ∅;
     schema_name_map_safe_temp_ := {[ "sales" := 1001%N; "hr" := 10013%N ]};
     table_name_map_safe_temp_ := {[ name_key 1001 "3orders" := 1002%N ]};
     index_name_map_safe_temp_ := ∅;
     id_epoch_map_safe_temp_ :=
       {[ ID_NEXT_SCHEMA := 10013%N; ID_NEXT_TABLE := 1002%N ]};
     calls_ := [] |}.

(** * Properties *)

(** ** Index definition validation *)

Lemma reject_if_false b s : reject_if b s = Continue ↔ b = false.
Proof. destruct b; simpl; split; congruence. Qed.

Lemma validate_vector_cases (ip : IndexParameter) :
  validate_vector ip = Return OK ∨ validate_vector ip = Return EILLEGAL_PARAMTETERS.
Proof.
  unfold validate_vector.
  destruct (vector_index_parameter ip) as [[ty pc]|]; [|by right].
  unfold validate_hnsw, validate_flat, validate_ivf_flat, validate_ivf_pq,
    validate_diskann, hnsw_parameter, flat_parameter, ivf_flat_parameter,
    ivf_pq_parameter, diskann_parameter, reject_if; simpl.
  destruct ty, pc; simpl; repeat case_match; simpl; auto.
Qed.

Ltac unfold_validator :=
  unfold ValidateIndexDefinition, validate_vector, validate_scalar,
    validate_hnsw, validate_flat, validate_ivf_flat, validate_ivf_pq,
    validate_diskann, hnsw_parameter, flat_parameter, ivf_flat_parameter,
    ivf_pq_parameter, diskann_parameter, index_parameter_legal,
    vector_parameter_legal, reject_if in *;
  simpl in *.

Ltac split_checks :=
  repeat match goal with
    | |- context [bool_decide ?P] => destruct (bool_decide_reflect P); simpl
    | |- context [(?x <=? 0)%Z] => destruct (Z.leb_spec x 0); simpl
    | |- context [decide ?P] => destruct (decide P); simpl
    end.

(** The validator accepts exactly the named definitions whose parameter
    block is legal. *)
Lemma ValidateIndexDefinition_OK_iff (d : IndexDefinition) :
  ValidateIndexDefinition d = OK ↔
  index_name d ≠ "" ∧ index_parameter_legal (index_parameter d).
Proof.
  destruct d as [nm rep part [ty vp sp] ai aiv]; unfold_validator.
  destruct (bool_decide_reflect (nm = "")) as [->|Hnm]; simpl.
  { split; [discriminate | intros [[] _]; reflexivity]. }
  destruct ty; simpl.
  - split; [discriminate | tauto].
  - destruct vp as [[vty pc]|]; simpl; [|split; [discriminate | tauto]].
    destruct vty, pc; simpl; split_checks;
      (split; [try discriminate; intros _; repeat split; (assumption || lia)
              | try reflexivity; intros [_ Hleg]; exfalso; intuition (congruence || lia)]).
  - destruct sp as [[sty]|]; simpl; [|split; [discriminate | tauto]].
    destruct sty; simpl; split; try discriminate; try tauto; try (intros; split; congruence).
Qed.

Lemma ValidateIndexDefinition_codes (d : IndexDefinition) :
  ValidateIndexDefinition d = OK ∨ ValidateIndexDefinition d = EILLEGAL_PARAMTETERS.
Proof.
  unfold ValidateIndexDefinition.
  destruct (bool_decide (index_name d = "")); simpl; [by right|].
  destruct (bool_decide (index_type (index_parameter d) = INDEX_TYPE_NONE));
    simpl; [by right|].
  destruct (decide (index_type (index_parameter d) = INDEX_TYPE_VECTOR)).
  - destruct (validate_vector_cases (index_parameter d)) as [-> | ->]; simpl; auto.
  - destruct (decide _); simpl; [|by left].
    unfold validate_scalar, reject_if.
    destruct (scalar_index_parameter _); simpl; [|by right].
    destruct (bool_decide _); simpl; auto.
Qed.

(** C6 (amended).  [ValidateIndexDefinition] accepts a definition exactly
    when its name is not empty and its index parameter satisfies the
    constraints of its variant: the index type is not NONE; a VECTOR index
    carries the parameter block named by its vector index type (HNSW, FLAT,
    IVF_FLAT, IVF_PQ or DISKANN) with a positive dimension, a metric type
    other than NONE and positive variant-specific counters; a SCALAR index
    carries a scalar parameter whose type is not NONE.  Every other
    definition, a definition with an empty name included, is rejected with
    EILLEGAL_PARAMTETERS. *)
Theorem ValidateIndexDefinition_accepts_iff_named_and_legal (d : IndexDefinition) :
  (ValidateIndexDefinition d = OK ↔
     index_name d ≠ "" ∧ index_parameter_legal (index_parameter d)) ∧
  (ValidateIndexDefinition d = OK ∨ ValidateIndexDefinition d = EILLEGAL_PARAMTETERS).
Proof.
  split; [apply ValidateIndexDefinition_OK_iff | apply ValidateIndexDefinition_codes].
Qed.

(** C6 (counterexample).  A FLAT vector index of dimension 8 with a metric
    type other than NONE satisfies every constraint of its variant, yet
    without a name it is rejected. *)
Lemma ValidateIndexDefinition_rejects_legal_unnamed :
  index_parameter_legal (index_parameter unnamed_flat_index) ∧
  ValidateIndexDefinition unnamed_flat_index = EILLEGAL_PARAMTETERS.
Proof.
  split; [|reflexivity].
  cbn. split; [lia | discriminate].
Qed.

(** ** The collaborator trace *)

Lemma set_calls_set_calls l l' cc : set_calls_ l (set_calls_ l' cc) = set_calls_ l cc.
Proof. reflexivity. Qed.

Lemma set_calls_id cc : set_calls_ (calls_ cc) cc = cc.
Proof. by destruct cc. Qed.

Lemma created_regions_cons c l :
  created_regions (c :: l) =
  match created_region c with Some x => x :: created_regions l | None => created_regions l end.
Proof. reflexivity. Qed.

Lemma dropped_regions_cons c l :
  dropped_regions (c :: l) =
  match dropped_region c with Some x => x :: dropped_regions l | None => dropped_regions l end.
Proof. reflexivity. Qed.

Lemma create_requests_cons c l :
  create_requests (c :: l) =
  match create_request c with Some x => x :: create_requests l | None => create_requests l end.
Proof. reflexivity. Qed.

Lemma created_regions_app l1 l2 :
  created_regions (l1 ++ l2) = created_regions l1 ++ created_regions l2.
Proof. apply omap_app. Qed.

Lemma dropped_regions_app l1 l2 :
  dropped_regions (l1 ++ l2) = dropped_regions l1 ++ dropped_regions l2.
Proof. apply omap_app. Qed.

Lemma create_requests_app l1 l2 :
  create_requests (l1 ++ l2) = create_requests l1 ++ create_requests l2.
Proof. apply omap_app. Qed.

Section Trace.

Variable W : Collaborators.

Lemma create_regions_run request ranges : ∀ i new_region_ids cc ids' cc',
  create_regions W request i ranges new_region_ids cc = (ids', cc') →
  ∃ new created,
    cc' = set_calls_ (calls_ cc ++ new) cc ∧
    ids' = new_region_ids ++ created ∧
    creation_run request ranges new created.
Proof.
  induction ranges as [|range ranges IH]; intros i ids cc ids' cc' Hrun; simpl in Hrun.
  - inversion Hrun; subst. exists [], []. rewrite !app_nil_r, set_calls_id.
    split; [done|]. split; [done|]. constructor; simpl; auto.
  - unfold CreateRegion in Hrun.
    destruct (CreateRegion_outcome W (calls_ cc) (request i range)) as [ret rid] eqn:Hout.
    destruct (ok ret) eqn:Hok.
    + apply IH in Hrun as (new & created & -> & -> & [Hreq Hcre Hdrop Hres]).
      exists (CallCreateRegion (request i range) ret rid :: new), (rid :: created).
      split; [|split].
      * unfold add_call. simpl. by rewrite <- app_assoc.
      * by rewrite <- app_assoc.
      * constructor.
        -- rewrite create_requests_cons. simpl. constructor; eauto.
        -- rewrite created_regions_cons. simpl. by rewrite Hok, Hcre.
        -- by rewrite dropped_regions_cons.
        -- rewrite create_requests_cons. simpl. rewrite Hok. simpl.
           destruct Hres as [(? & ? & ?) | (? & ?)]; [left | right];
             repeat split; auto; lia.
    + inversion Hrun; subst.
      exists [CallCreateRegion (request i range) ret rid], [].
      rewrite app_nil_r. split; [done|]. split; [done|]. constructor.
      * repeat constructor. eauto.
      * rewrite created_regions_cons. simpl. by rewrite Hok.
      * done.
      * right. simpl. rewrite Hok. split; [done | lia].
Qed.

Lemma drop_regions_run : ∀ region_ids cc,
  ∃ new,
    drop_regions W region_ids cc = set_calls_ (calls_ cc ++ new) cc ∧
    dropped_regions new = region_ids ∧
    created_regions new = [] ∧
    create_requests new = [] ∧
    existsb failed_create new = false.
Proof.
  induction region_ids as [|region_id region_ids IH]; intros cc; cbn [drop_regions].
  - exists []. rewrite app_nil_r, set_calls_id. done.
  - destruct (IH (DropRegion W region_id cc).2) as (new & -> & Hd & Hc & Hr & Hf).
    exists (CallDropRegion region_id (DropRegion_outcome W (calls_ cc) region_id) :: new).
    split; [|split; [|split; [|split]]]; auto.
    + unfold DropRegion, add_call. simpl. by rewrite <- app_assoc.
    + rewrite dropped_regions_cons. simpl. by rewrite Hd.
Qed.

End Trace.

(** ** Table and index creation *)

Ltac unfold_services :=
  unfold GetNextId, SyncSendCreateAutoIncrementInternal,
    AsyncSendDeleteAutoIncrementInternal, SafeMap_PutIfAbsent, SafeMap_Get,
    SafeMap_Exists, ValidateSchema in *.

(** Splits a run of a catalog operation into its paths and rewrites the
    region loops into their traces. *)
Ltac split_paths :=
  repeat case_match; simplify_eq;
  unfold_services;
  repeat case_match; simplify_eq;
  repeat match goal with
    | H : create_regions _ _ _ _ _ _ = _ |- _ =>
        apply create_regions_run in H as (? & ? & -> & -> & [? ? ? ?])
    end;
  repeat match goal with
    | |- context [drop_regions ?W ?l ?c] =>
        let Hd := fresh "Hdrop" in
        destruct (drop_regions_run W l c) as (? & Hd & ? & ? & ? & ?);
        rewrite Hd; clear Hd
    end;
  simpl in *.


Ltac trace_simpl :=
  repeat first
    [ rewrite dropped_regions_app | rewrite created_regions_app
    | rewrite create_requests_app | rewrite existsb_app
    | rewrite dropped_regions_cons | rewrite created_regions_cons
    | rewrite create_requests_cons ];
  simpl;
  repeat match goal with
    | H : dropped_regions ?x = _ |- context [dropped_regions ?x] => rewrite H
    | H : created_regions ?x = _ |- context [created_regions ?x] => rewrite H
    | H : create_requests ?x = _ |- context [create_requests ?x] => rewrite H
    | H : existsb failed_create ?x = _ |- context [existsb failed_create ?x] => rewrite H
    end;
  simpl; rewrite ?app_nil_r, ?orb_false_r.

Lemma validate_partition_inl illegal partition e :
  validate_partition illegal partition = inl e → e = illegal.
Proof.
  unfold validate_partition. intros H. repeat case_match; congruence.
Qed.

(** The partition rule is rejected exactly when it is missing, declares a
    hash partition, or declares no range. *)
Lemma validate_partition_illegal illegal partition :
  (∃ e, validate_partition illegal partition = inl e) ↔ partition_rejected partition.
Proof.
  unfold validate_partition, partition_rejected. split.
  - intros [e He]. destruct partition as [rule|]; [right | by left].
    exists rule. split; [done|].
    destruct (hash_partition rule); [left; eauto | right].
    destruct (range_partition rule) as [[|]|]; simpl in *; congruence.
  - intros [-> | (rule & -> & [[u ->] | Hr])]; [by eexists | by eexists |].
    destruct (hash_partition rule); [by eexists|].
    destruct (range_partition rule) as [ranges|]; simpl in *; subst; by eexists.
Qed.

Section Creation.

Variable W : Collaborators.


Lemma CreateTable_ok schema_id table_definition new_table_id cc mi id' cc' mi' :
  CreateTable W schema_id table_definition new_table_id cc mi = (OK, id', cc', mi') →
  ∃ ranges new v1 v2,
    validate_partition ETABLE_DEFINITION_ILLEGAL
      (table_partition table_definition) = inr ranges ∧
    calls_ cc' = calls_ cc ++ new ∧
    existsb failed_create new = false ∧
    dropped_regions new = [] ∧
    length (created_regions new) = length ranges ∧
    length (create_requests new) = length ranges ∧
    Forall (λ r, ∃ i range,
              r = table_region_request schema_id table_definition
                    (if (table_replica table_definition <? 1)%Z then 3%Z
                     else table_replica table_definition) id' i range)
      (create_requests new) ∧
    id' = (if (new_table_id <=? 0)%N
           then wrap64 (GetPresentId ID_NEXT_TABLE cc + 1) else new_table_id) ∧
    schemas mi' = schemas mi ∧ indexes mi' = indexes mi ∧
    tables mi' = tables mi ++
      [ {| table_increment_id := id';
           table_increment_op_type := CREATE;
           table_increment_table :=
             {| table_internal_id := id';
                table_internal_schema_id := schema_id;
                table_internal_definition := table_definition;
                table_partitions := created_regions new |} |} ] ∧
    idepochs mi' = idepochs mi ++
      (if (new_table_id <=? 0)%N
       then [ {| idepoch_id := ID_NEXT_TABLE; idepoch_value := id' |} ] else []) ++
      [ {| idepoch_id := EPOCH_REGION; idepoch_value := v1 |};
        {| idepoch_id := EPOCH_TABLE; idepoch_value := v2 |} ] ∧
    table_name_map_safe_temp_ cc
      !! name_key schema_id (table_name table_definition) = None ∧
    table_name_map_safe_temp_ cc' =
      <[name_key schema_id (table_name table_definition) := id']>
        (table_name_map_safe_temp_ cc) ∧
    table_map_ cc' = table_map_ cc.
Proof.
  intros Hrun. unfold CreateTable in Hrun. split_paths; try done.
  all: try congruence.
  all: try (match goal with
            | H : validate_partition _ _ = inl _ |- _ =>
                apply validate_partition_inl in H; discriminate
            end).
  all: match goal with
       | H : _ ∨ _ |- _ =>
           destruct H as [(? & ? & ?) | (? & ?)];
           [| exfalso;
              match goal with
              | Hl : (_ <? _)%nat = false |- _ => apply Nat.ltb_ge in Hl; lia
              end]
       end.
  all: do 2 eexists; eexists _, _.
  all: split; [reflexivity|].
  all: split; [rewrite <- ?app_assoc; reflexivity|].
  all: trace_simpl.
  all: repeat (split; [done|]).
  all: rewrite <- ?app_assoc; simpl; try done.
Qed.


Lemma CreateIndex_ok schema_id index_definition new_index_id cc mi id' cc' mi' :
  CreateIndex W schema_id index_definition new_index_id cc mi = (OK, id', cc', mi') →
  ∃ ranges new v1 v2,
    validate_partition EINDEX_DEFINITION_ILLEGAL
      (index_partition index_definition) = inr ranges ∧
    calls_ cc' = calls_ cc ++ new ∧
    existsb failed_create new = false ∧
    dropped_regions new = [] ∧
    length (created_regions new) = length ranges ∧
    length (create_requests new) = length ranges ∧
    Forall (λ r, ∃ i range,
              r = index_region_request schema_id index_definition
                    (if (index_replica index_definition <? 1)%Z then 3%Z
                     else index_replica index_definition) id' i range)
      (create_requests new) ∧
    id' = (if (new_index_id <=? 0)%N
           then wrap64 (GetPresentId ID_NEXT_TABLE cc + 1) else new_index_id) ∧
    schemas mi' = schemas mi ∧ tables mi' = tables mi ∧
    indexes mi' = indexes mi ++
      [ {| index_increment_id := id';
           index_increment_op_type := CREATE;
           index_increment_index :=
             {| index_internal_id := id';
                index_internal_schema_id := schema_id;
                index_internal_definition := index_definition;
                index_partitions := created_regions new |} |} ] ∧
    idepochs mi' = idepochs mi ++
      (if (new_index_id <=? 0)%N
       then [ {| idepoch_id := ID_NEXT_TABLE; idepoch_value := id' |} ] else []) ++
      [ {| idepoch_id := EPOCH_REGION; idepoch_value := v1 |};
        {| idepoch_id := EPOCH_INDEX; idepoch_value := v2 |} ] ∧
    index_name_map_safe_temp_ cc
      !! name_key schema_id (index_name index_definition) = None ∧
    index_name_map_safe_temp_ cc' =
      <[name_key schema_id (index_name index_definition) := id']>
        (index_name_map_safe_temp_ cc) ∧
    index_map_ cc' = index_map_ cc.
Proof.
  intros Hrun. unfold CreateIndex in Hrun. split_paths; try done.
  all: try congruence.
  all: try (match goal with
            | H : negb (ok ?x) = true, E : ?x = OK |- _ => by rewrite E in H
            | H : negb (ok ?x) = true, E : OK = ?x |- _ => by rewrite <- E in H
            end).
  all: try (match goal with
            | H : validate_partition _ _ = inl _ |- _ =>
                apply validate_partition_inl in H; discriminate
            end).
  all: match goal with
       | H : _ ∨ _ |- _ =>
           destruct H as [(? & ? & ?) | (? & ?)];
           [| exfalso;
              match goal with
              | Hl : (_ <? _)%nat = false |- _ => apply Nat.ltb_ge in Hl; lia
              end]
       end.
  all: do 2 eexists; eexists _, _.
  all: split; [reflexivity|].
  all: split; [rewrite <- ?app_assoc; reflexivity|].
  all: trace_simpl.
  all: repeat (split; [done|]).
  all: rewrite <- ?app_assoc; simpl; try done.
Qed.

End Creation.




(** ** Table definition validation and replica count *)

Lemma CreateTable_rejected_partition W schema_id table_definition new_table_id cc mi :
  partition_rejected (table_partition table_definition) →
  (∃ e, e ≠ OK ∧
     CreateTable W schema_id table_definition new_table_id cc mi
       = (e, new_table_id, cc, mi)) ∧
  (schema_id ≠ ROOT_SCHEMA W →
   is_Some (schema_map_ cc !! schema_id) →
   (CheckAutoIncrementInTableDefinition W table_definition).1 = OK →
   CreateTable W schema_id table_definition new_table_id cc mi
     = (ETABLE_DEFINITION_ILLEGAL, new_table_id, cc, mi)).
Proof.
  intros Hrej. apply (validate_partition_illegal ETABLE_DEFINITION_ILLEGAL) in Hrej
    as [e He].
  pose proof (validate_partition_inl _ _ _ He) as ->.
  unfold CreateTable, SafeMap_Exists. rewrite He. split.
  - repeat case_match; simplify_eq; eexists; (split; [|reflexivity]); try done.
    intros ->. done.
  - intros Hroot Hschema Hcheck.
    rewrite (bool_decide_eq_false_2 _ Hroot), (bool_decide_eq_true_2 _ Hschema).
    destruct (CheckAutoIncrementInTableDefinition W table_definition) as [ret has].
    simpl in *. subst ret. simpl.
    by destruct (N.ltb_spec schema_id 0) as [Hneg|Hneg]; [lia|].
Qed.

Lemma validate_partition_inr illegal partition ranges :
  validate_partition illegal partition = inr ranges →
  ranges ≠ [] ∧
  partition = Some {| hash_partition := None; range_partition := Some ranges |}.
Proof.
  unfold validate_partition.
  destruct partition as [[[u|] [rs|]]|]; simpl; try discriminate.
  destruct rs; simpl; [discriminate|]. intros [= <-]. done.
Qed.

(** C7 (amended).  A table definition that lacks a table_partition, or
    declares a hash_partition, or declares no range is always rejected by
    [CreateTable] without any change of the state, the meta-increment or the
    id; the error is ETABLE_DEFINITION_ILLEGAL when the schema id is an
    existing schema other than the root schema and the auto-increment check
    of the definition passes (otherwise the earlier check decides the error
    code).  When [CreateTable] succeeds, it has sent one [CreateRegion] per
    declared range (there is at least one), each with replica count 3 when
    the declared replica is below 1 and with the declared replica
    otherwise. *)
Theorem CreateTable_partition_rejected_and_replica_default
    (W : Collaborators) (schema_id : N) (table_definition : TableDefinition)
    (new_table_id : N) (cc : CoordinatorControl) (mi : MetaIncrement) :
  (partition_rejected (table_partition table_definition) →
     (∃ e, e ≠ OK ∧
        CreateTable W schema_id table_definition new_table_id cc mi
          = (e, new_table_id, cc, mi)) ∧
     (schema_id ≠ ROOT_SCHEMA W →
      is_Some (schema_map_ cc !! schema_id) →
      (CheckAutoIncrementInTableDefinition W table_definition).1 = OK →
      CreateTable W schema_id table_definition new_table_id cc mi
        = (ETABLE_DEFINITION_ILLEGAL, new_table_id, cc, mi))) ∧
  (∀ id' cc' mi',
     CreateTable W schema_id table_definition new_table_id cc mi = (OK, id', cc', mi') →
     ∃ ranges new,
       table_partition table_definition
         = Some {| hash_partition := None; range_partition := Some ranges |} ∧
       ranges ≠ [] ∧
       calls_ cc' = calls_ cc ++ new ∧
       length (create_requests new) = length ranges ∧
       Forall (λ r, request_replica_num r
                    = replica_or_default (table_replica table_definition))
         (create_requests new)).
Proof.
  split; [apply CreateTable_rejected_partition|].
  intros id' cc' mi' Hrun.
  apply CreateTable_ok in Hrun
    as (ranges & new & v1 & v2 & Hval & Hcalls & _ & _ & _ & Hlen & Hreq & _).
  apply validate_partition_inr in Hval as [Hne Hpart].
  exists ranges, new. repeat (split; [done|]).
  eapply Forall_impl; [exact Hreq|].
  by intros r (i & range & ->).
Qed.

(** C7 (witness).  In "sales", a definition with a hash partition is
    rejected with ETABLE_DEFINITION_ILLEGAL and nothing changes; "orders"
    with replica 0 and two ranges is accepted and both regions are requested
    with replica 3. *)
Lemma CreateTable_hash_rejected_and_replica_zero_gives_three :
  CreateTable (scenario_collaborators None) 1001 hash_partitioned_table 0
    sales_catalog MetaIncrement_empty
    = (ETABLE_DEFINITION_ILLEGAL, 0%N, sales_catalog, MetaIncrement_empty) ∧
  let run := CreateTable (scenario_collaborators None) 1001 (orders 0 two_ranges) 0
               sales_catalog MetaIncrement_empty in
  run.1.1.1 = OK ∧
  map request_replica_num (create_requests (calls_ run.1.2)) = [3%Z; 3%Z].
Proof.
  split.
  - apply (CreateTable_partition_rejected_and_replica_default
             (scenario_collaborators None) 1001 hash_partitioned_table 0
             sales_catalog MetaIncrement_empty).
    + right. eexists. split; [reflexivity|]. left. by eexists.
    + vm_compute. discriminate.
    + vm_compute. by eexists.
    + reflexivity.
  - intros run.
    destruct (proj2 (CreateTable_partition_rejected_and_replica_default
                       (scenario_collaborators None) 1001 (orders 0 two_ranges) 0
                       sales_catalog MetaIncrement_empty)
                run.1.1.2 run.1.2 run.2)
      as (ranges & new & _ & _ & Hcalls & Hlen & Hreq).
    + vm_compute. reflexivity.
    + split; vm_compute; reflexivity.
Defined.

(** C7 (counterexample).  Schema 77 does not exist: a definition without a
    table_partition is rejected with EILLEGAL_PARAMTETERS, not with
    ETABLE_DEFINITION_ILLEGAL. *)
Lemma CreateTable_unpartitioned_unknown_schema :
  partition_rejected (table_partition unpartitioned_table) ∧
  CreateTable (scenario_collaborators None) 77 unpartitioned_table 0
    sales_catalog MetaIncrement_empty
    = (EILLEGAL_PARAMTETERS, 0%N, sales_catalog, MetaIncrement_empty).
Proof. split; [by left | vm_compute; reflexivity]. Qed.

(** ** Successful schema and drop operations *)

Section Builders.

Variable W : Collaborators.

Lemma CreateSchema_ok parent_schema_id schema_name new_schema_id cc mi id' cc' mi' :
  CreateSchema W parent_schema_id schema_name new_schema_id cc mi = (OK, id', cc', mi') →
  ∃ v,
    parent_schema_id = ROOT_SCHEMA W ∧ schema_name ≠ "" ∧
    id' = wrap64 (GetPresentId ID_NEXT_SCHEMA cc + 1) ∧
    schemas mi' = schemas mi ++
      [ {| schema_increment_id := id';
           schema_increment_op_type := CREATE;
           schema_increment_schema_id := parent_schema_id;
           schema_increment_schema_internal :=
             {| schema_internal_id := id'; schema_internal_name := schema_name;
                table_ids := []; index_ids := [] |} |} ] ∧
    tables mi' = tables mi ∧ indexes mi' = indexes mi ∧
    idepochs mi' = idepochs mi ++
      [ {| idepoch_id := ID_NEXT_SCHEMA; idepoch_value := id' |};
        {| idepoch_id := EPOCH_SCHEMA; idepoch_value := v |} ] ∧
    schema_name_map_safe_temp_ cc' =
      <[schema_name := id']> (schema_name_map_safe_temp_ cc).
Proof.
  intros Hrun. unfold CreateSchema in Hrun. split_paths; try done.
  all: try congruence.
  all: eexists; repeat split; try done.
  all: try (by match goal with
               | H : bool_decide (_ ≠ _) = false |- _ =>
                   apply bool_decide_eq_false in H; apply dec_stable in H
               end).
  all: try (by match goal with
               | H : bool_decide (_ = "") = false |- _ =>
                   apply bool_decide_eq_false in H
               end).
  all: by rewrite <- app_assoc.
Qed.

Lemma DropSchema_ok parent_schema_id schema_id cc mi cc' mi' :
  DropSchema W parent_schema_id schema_id cc mi = (OK, cc', mi') →
  ∃ schema_internal v,
    (COORDINATOR_ID_OF_MAP_MIN W < schema_id)%N ∧
    schema_map_ cc !! schema_id = Some schema_internal ∧
    table_ids schema_internal = [] ∧
    schemas mi' = schemas mi ++
      [ {| schema_increment_id := schema_id;
           schema_increment_op_type := DELETE;
           schema_increment_schema_id := parent_schema_id;
           schema_increment_schema_internal := schema_internal |} ] ∧
    tables mi' = tables mi ∧ indexes mi' = indexes mi ∧
    idepochs mi' = idepochs mi ++ [ {| idepoch_id := EPOCH_SCHEMA; idepoch_value := v |} ] ∧
    schema_name_map_safe_temp_ cc' =
      delete (schema_internal_name schema_internal) (schema_name_map_safe_temp_ cc) ∧
    schema_map_ cc' = schema_map_ cc.
Proof.
  intros Hrun. unfold DropSchema in Hrun. split_paths; try done.
  eexists _, _. repeat split; try done.
  - by apply N.leb_gt.
  - match goal with H : (0 <? length ?l)%nat = false |- _ =>
      destruct l; [done | simpl in H; discriminate] end.
Qed.



End Builders.

(** ** Epoch counters *)

Lemma bumps_extend key mi mi' l :
  idepochs mi' = idepochs mi ++ l →
  bumps key mi' = (bumps key mi + length (filter (λ e, idepoch_id e = key) l))%nat.
Proof. intros H. unfold bumps. by rewrite H, filter_app, length_app. Qed.




(** ** Id allocation *)

Lemma wrap64_small n : (n < UINT64_MOD)%N → wrap64 n = n.
Proof. intros. unfold wrap64. by apply N.mod_small. Qed.

Lemma GetPresentId_insert key key' v cc :
  GetPresentId key' (set_id_epoch_map_safe_temp_ (insert key v) cc) =
  if decide (key = key') then v else GetPresentId key' cc.
Proof.
  unfold GetPresentId. simpl. rewrite lookup_insert. by destruct (decide (key = key')).
Qed.

Lemma GetNextId_increases key cc mi n cc1 mi1 :
  GetNextId key cc mi = (n, cc1, mi1) →
  (GetPresentId key cc + 1 < UINT64_MOD)%N →
  (GetPresentId key cc < n)%N ∧
  GetPresentId key cc1 = n ∧
  (∀ key', key' ≠ key → GetPresentId key' cc1 = GetPresentId key' cc) ∧
  idepochs mi1 = idepochs mi ++ [ {| idepoch_id := key; idepoch_value := n |} ].
Proof.
  unfold GetNextId. intros [= <- <- <-] Hsmall. rewrite (wrap64_small _ Hsmall).
  split; [lia|]. split; [|split; [|done]].
  - rewrite GetPresentId_insert. by rewrite decide_True.
  - intros key' Hne. rewrite GetPresentId_insert. by rewrite decide_False.
Qed.

Ltac discard_impossible :=
  try done; try congruence;
  try (match goal with
       | H : validate_partition _ _ = inl _ |- _ =>
           apply validate_partition_inl in H; discriminate
       end);
  try (match goal with
       | H : negb (ok ?x) = true, E : ?x = OK |- _ => by rewrite E in H
       | H : negb (ok ?x) = true, E : OK = ?x |- _ => by rewrite <- E in H
       end).

Section Allocation.

Variable W : Collaborators.

Lemma CreateTable_counter schema_id table_definition new_table_id cc mi id' cc' mi' :
  CreateTable W schema_id table_definition new_table_id cc mi = (OK, id', cc', mi') →
  GetPresentId ID_NEXT_TABLE cc' =
    (if (new_table_id <=? 0)%N then id' else GetPresentId ID_NEXT_TABLE cc).
Proof.
  intros Hrun. unfold CreateTable in Hrun. split_paths; discard_impossible.
  all: rewrite ?GetPresentId_insert; simpl; try done.
  all: unfold GetPresentId; simpl; by rewrite ?lookup_insert_eq.
Qed.

Lemma CreateIndex_counter schema_id index_definition new_index_id cc mi id' cc' mi' :
  CreateIndex W schema_id index_definition new_index_id cc mi = (OK, id', cc', mi') →
  GetPresentId ID_NEXT_TABLE cc' =
    (if (new_index_id <=? 0)%N then id' else GetPresentId ID_NEXT_TABLE cc).
Proof.
  intros Hrun. unfold CreateIndex in Hrun. split_paths; discard_impossible.
  all: rewrite ?GetPresentId_insert; simpl; try done.
  all: unfold GetPresentId; simpl; by rewrite ?lookup_insert_eq.
Qed.

End Allocation.

(** C8 (amended).  Table ids and index ids come from the one counter
    ID_NEXT_TABLE: [CreateTableId] and [CreateIndexId], and [CreateTable]
    and [CreateIndex] when no id is supplied (id 0), return the next value
    of ID_NEXT_TABLE and record it in the meta-increment.  An id returned by
    the allocator is strictly greater than the counter before the call and
    becomes the new counter value, as long as the 64-bit counter does not
    overflow; the counters of the other kinds are not touched.  [CreateTable]
    and [CreateIndex] called with an id above 0 use that id as it is: nothing
    is allocated and the id is not compared with the counter. *)
Theorem table_and_index_ids_from_ID_NEXT_TABLE
    (W : Collaborators) (cc : CoordinatorControl) (mi : MetaIncrement) :
  (∀ key n cc1 mi1,
     GetNextId key cc mi = (n, cc1, mi1) →
     (GetPresentId key cc + 1 < UINT64_MOD)%N →
     (GetPresentId key cc < n)%N ∧
     GetPresentId key cc1 = n ∧
     (∀ key', key' ≠ key → GetPresentId key' cc1 = GetPresentId key' cc) ∧
     idepochs mi1 = idepochs mi ++ [ {| idepoch_id := key; idepoch_value := n |} ]) ∧
  (∀ schema_id new_id id' cc' mi',
     CreateTableId schema_id new_id cc mi = (OK, id', cc', mi') →
     GetNextId ID_NEXT_TABLE cc mi = (id', cc', mi')) ∧
  (∀ schema_id new_id id' cc' mi',
     CreateIndexId schema_id new_id cc mi = (OK, id', cc', mi') →
     GetNextId ID_NEXT_TABLE cc mi = (id', cc', mi')) ∧
  (∀ schema_id table_definition new_table_id id' cc' mi',
     CreateTable W schema_id table_definition new_table_id cc mi = (OK, id', cc', mi') →
     if (new_table_id <=? 0)%N then
       id' = (GetNextId ID_NEXT_TABLE cc mi).1.1 ∧
       GetPresentId ID_NEXT_TABLE cc' = id' ∧
       bumps ID_NEXT_TABLE mi' = S (bumps ID_NEXT_TABLE mi)
     else
       id' = new_table_id ∧
       GetPresentId ID_NEXT_TABLE cc' = GetPresentId ID_NEXT_TABLE cc ∧
       bumps ID_NEXT_TABLE mi' = bumps ID_NEXT_TABLE mi) ∧
  (∀ schema_id index_definition new_index_id id' cc' mi',
     CreateIndex W schema_id index_definition new_index_id cc mi = (OK, id', cc', mi') →
     if (new_index_id <=? 0)%N then
       id' = (GetNextId ID_NEXT_TABLE cc mi).1.1 ∧
       GetPresentId ID_NEXT_TABLE cc' = id' ∧
       bumps ID_NEXT_TABLE mi' = S (bumps ID_NEXT_TABLE mi)
     else
       id' = new_index_id ∧
       GetPresentId ID_NEXT_TABLE cc' = GetPresentId ID_NEXT_TABLE cc ∧
       bumps ID_NEXT_TABLE mi' = bumps ID_NEXT_TABLE mi).
Proof.
  split; [intros *; apply GetNextId_increases|].
  split; [|split; [|split]].
  - intros * Hrun. unfold CreateTableId in Hrun.
    destruct (negb _); [discriminate|].
    destruct (GetNextId ID_NEXT_TABLE cc mi) as [[? ?] ?]. congruence.
  - intros * Hrun. unfold CreateIndexId in Hrun.
    destruct (negb _); [discriminate|].
    destruct (GetNextId ID_NEXT_TABLE cc mi) as [[? ?] ?]. congruence.
  - intros * Hrun. pose proof (CreateTable_counter W _ _ _ _ _ _ _ _ Hrun) as Hcounter.
    apply CreateTable_ok in Hrun
      as (? & ? & ? & ? & _ & _ & _ & _ & _ & _ & _ & Hid & _ & _ & _ & Hep & _).
    rewrite (bumps_extend _ _ _ _ Hep).
    destruct (new_table_id <=? 0)%N; simpl; (split; [done|]); (split; [done|]); lia.
  - intros * Hrun. pose proof (CreateIndex_counter W _ _ _ _ _ _ _ _ Hrun) as Hcounter.
    apply CreateIndex_ok in Hrun
      as (? & ? & ? & ? & _ & _ & _ & _ & _ & _ & _ & Hid & _ & _ & _ & Hep & _).
    rewrite (bumps_extend _ _ _ _ Hep).
    destruct (new_index_id <=? 0)%N; simpl; (split; [done|]); (split; [done|]); lia.
Qed.

(** C8 (witness).  With "orders" (id 1002) in the catalog, creating a flat
    index without supplying an id allocates 1003 from ID_NEXT_TABLE, above
    the counter value 1002. *)
Lemma CreateIndex_after_orders_gets_next_table_id :
  let run := CreateIndex (scenario_collaborators None) 1001 (flat_index "by_vec" one_range)
               0 orders_catalog MetaIncrement_empty in
  GetPresentId ID_NEXT_TABLE orders_catalog = 1002%N ∧
  run.1.1.1 = OK ∧
  run.1.1.2 = 1003%N ∧
  GetPresentId ID_NEXT_TABLE run.1.2 = 1003%N ∧
  bumps ID_NEXT_TABLE run.2 = 1%nat.
Proof.
  intros run.
  pose proof (table_and_index_ids_from_ID_NEXT_TABLE (scenario_collaborators None)
                orders_catalog MetaIncrement_empty)
    as (_ & _ & _ & _ & Hindex).
  specialize (Hindex 1001%N (flat_index "by_vec" one_range) 0%N
                run.1.1.2 run.1.2 run.2).
  simpl in Hindex. destruct Hindex as (Hid & Hcounter & Hbumps).
  - vm_compute. reflexivity.
  - split; [reflexivity|]. split; [vm_compute; reflexivity|].
    split; [exact Hid|]. split; [by rewrite Hcounter, Hid | exact Hbumps].
Defined.

(** C8 (counterexample).  With "orders" (id 1002) in the catalog,
    [CreateTable] called with the id 5 succeeds: the table increment carries
    the id 5, below the id 1002 that is already in use, and nothing was
    allocated from ID_NEXT_TABLE. *)
Lemma CreateTable_with_supplied_id_reuses_lower_id :
  let run := CreateTable (scenario_collaborators None) 1001 archive 5
               orders_catalog MetaIncrement_empty in
  run.1.1.1 = OK ∧
  map table_increment_id (tables run.2) = [5%N] ∧
  table_map_ orders_catalog !! 1002%N = Some orders_table ∧
  (5 <= 1002)%N ∧
  bumps ID_NEXT_TABLE run.2 = 0%nat.
Proof. vm_compute. repeat split; try reflexivity. discriminate. Qed.

(** ** Dropping a schema *)

Section DropSchema.

Variable W : Collaborators.

(** A schema with tables is refused and nothing changes. *)
Lemma DropSchema_with_tables parent_schema_id schema_id cc mi schema_internal :
  (COORDINATOR_ID_OF_MAP_MIN W < schema_id)%N →
  schema_map_ cc !! schema_id = Some schema_internal →
  table_ids schema_internal ≠ [] →
  DropSchema W parent_schema_id schema_id cc mi = (ESCHEMA_NOT_EMPTY, cc, mi).
Proof.
  intros Hmin Hget Htables. unfold DropSchema.
  destruct (N.leb_spec schema_id (COORDINATOR_ID_OF_MAP_MIN W)); [lia|].
  destruct (N.ltb_spec parent_schema_id 0); [lia|].
  rewrite Hget. by destruct (table_ids schema_internal).
Qed.

(** A schema without tables is deleted, whatever its [index_ids]. *)
Lemma DropSchema_without_tables parent_schema_id schema_id cc mi schema_internal :
  (COORDINATOR_ID_OF_MAP_MIN W < schema_id)%N →
  schema_map_ cc !! schema_id = Some schema_internal →
  table_ids schema_internal = [] →
  ∃ cc' mi',
    DropSchema W parent_schema_id schema_id cc mi = (OK, cc', mi') ∧
    schemas mi' = schemas mi ++
      [ {| schema_increment_id := schema_id;
           schema_increment_op_type := DELETE;
           schema_increment_schema_id := parent_schema_id;
           schema_increment_schema_internal := schema_internal |} ] ∧
    bumps EPOCH_SCHEMA mi' = S (bumps EPOCH_SCHEMA mi) ∧
    schema_name_map_safe_temp_ cc' =
      delete (schema_internal_name schema_internal) (schema_name_map_safe_temp_ cc).
Proof.
  intros Hmin Hget Htables. unfold DropSchema.
  destruct (N.leb_spec schema_id (COORDINATOR_ID_OF_MAP_MIN W)); [lia|].
  destruct (N.ltb_spec parent_schema_id 0); [lia|].
  rewrite Hget, Htables. simpl. eexists _, _. split; [reflexivity|].
  split; [done|]. split; [|done].
  unfold bumps. simpl. rewrite filter_app, length_app. simpl. lia.
Qed.

End DropSchema.

(** C2 (the code at the failing input).  "sales" holds the index "by_vec"
    and no table.  [DropSchema] does not answer ESCHEMA_NOT_EMPTY: it
    succeeds, appends the DELETE of the schema with its index still listed,
    and erases the name "sales", while the index stays in the index map. *)
Theorem DropSchema_deletes_schema_holding_an_index :
  let run := DropSchema (scenario_collaborators None) 0 1001
               sales_with_index_catalog MetaIncrement_empty in
  index_ids (sales_schema [] [1003%N]) = [1003%N] ∧
  schema_map_ sales_with_index_catalog !! 1001%N = Some (sales_schema [] [1003%N]) ∧
  run.1.1 = OK ∧
  schemas run.2 =
    [ {| schema_increment_id := 1001;
         schema_increment_op_type := DELETE;
         schema_increment_schema_id := 0;
         schema_increment_schema_internal := sales_schema [] [1003%N] |} ] ∧
  schema_name_map_safe_temp_ run.1.2 !! "sales" = None ∧
  index_map_ run.1.2 !! 1003%N = Some by_vec_index.
Proof. vm_compute. repeat split; reflexivity. Qed.

(** ** The metrics cache *)

Lemma N_ltb_0 n : (n <? 0)%N = false.
Proof. apply N.ltb_ge. lia. Qed.

(** A pass of the sweep never takes the erase branch: the status of
    [CalculateTableMetricsSingle] is unsigned and is never below 0. *)
Lemma sweep_table_metrics_dom cc entry :
  dom (table_metrics_map_ (sweep_table_metrics cc entry)) = dom (table_metrics_map_ cc).
Proof.
  destruct entry as [table_id m]. unfold sweep_table_metrics.
  destruct (CalculateTableMetricsSingle table_id Metrics_default cc) as [calc tm].
  rewrite N_ltb_0. simpl. unfold SafeMap_PutIfExists.
  destruct (table_metrics_map_ cc !! table_id) eqn:Hget; simpl; [|done].
  by apply dom_insert_lookup_L.
Qed.

Lemma CalculateTableMetrics_dom cc :
  dom (table_metrics_map_ (CalculateTableMetrics cc)) = dom (table_metrics_map_ cc).
Proof.
  unfold CalculateTableMetrics.
  generalize (map_to_list (table_metrics_map_ cc)). intros l. revert cc.
  induction l as [|entry l IH]; intros cc; simpl; [done|].
  rewrite IH. apply sweep_table_metrics_dom.
Qed.

(** C9 (the code at the failing input).  The cache holds an entry for the
    table 1009, which is not in the table map.  After the sweep the entry is
    still in the cache, with its metrics reset to the empty message; the
    entry of the live table 1002 has been recomputed. *)
Theorem CalculateTableMetrics_keeps_entry_of_dropped_table :
  let cc' := CalculateTableMetrics stale_cache_catalog in
  table_map_ stale_cache_catalog !! 1009%N = None ∧
  table_metrics_map_ stale_cache_catalog !! 1009%N = Some (cached_metrics 1009 40 1) ∧
  table_metrics_map_ cc' !! 1009%N =
    Some {| metrics_internal_id := 1009; metrics_internal_metrics := Metrics_default |} ∧
  table_metrics_map_ stale_cache_catalog !! 1002%N = Some (cached_metrics 1002 99 2) ∧
  table_metrics_map_ cc' !! 1002%N = Some (cached_metrics 1002 0 2).
Proof. vm_compute. repeat split; reflexivity. Qed.

(** ** Outputs of the read operations *)

(** C10 (amended).  The listing operations [GetSchemas], [GetTables] and
    [GetIndexs] answer EILLEGAL_PARAMTETERS and leave the output as it is
    when the output vector is not empty, and [GetTableMetrics] and
    [GetIndexMetrics] do the same, leaving the catalog as it is, when the
    entity id of the output is not 0.  The other read operations have no
    such check: [GetTableRange] and [GetIndexRange] append to whatever the
    output already holds. *)
Theorem listing_and_metrics_reads_refuse_used_output
    (schema_id : N) (cc : CoordinatorControl) :
  (∀ schemas, schemas ≠ [] →
     GetSchemas schema_id schemas cc = (EILLEGAL_PARAMTETERS, schemas)) ∧
  (∀ out, out ≠ [] →
     GetTables schema_id out cc = (EILLEGAL_PARAMTETERS, out)) ∧
  (∀ out, out ≠ [] →
     GetIndexs schema_id out cc = (EILLEGAL_PARAMTETERS, out)) ∧
  (∀ table_id table_metrics,
     id_entity_id (metrics_with_id_id table_metrics) ≠ 0%N →
     GetTableMetrics schema_id table_id table_metrics cc
       = (EILLEGAL_PARAMTETERS, table_metrics, cc)) ∧
  (∀ index_id index_metrics,
     id_entity_id (metrics_with_id_id index_metrics) ≠ 0%N →
     GetIndexMetrics schema_id index_id index_metrics cc
       = (EILLEGAL_PARAMTETERS, index_metrics, cc)) ∧
  (∀ table_id table_range out,
     GetTableRange schema_id table_id table_range cc = (OK, out) →
     ∃ added, out = table_range ++ added) ∧
  (∀ index_id index_range out,
     GetIndexRange schema_id index_id index_range cc = (OK, out) →
     ∃ added, out = index_range ++ added).
Proof.
  assert (Happ : ∀ parent partitions range,
            ∃ added, add_range_distributions cc parent partitions range = range ++ added).
  { intros parent partitions. unfold add_range_distributions.
    induction partitions as [|p ps IH]; intros range; simpl.
    - exists []. by rewrite app_nil_r.
    - destruct (IH (range ++ [range_distribution_of cc parent p])) as [added ->].
      eexists. by rewrite <- app_assoc. }
  repeat split.
  - intros schemas Hne. unfold GetSchemas.
    destruct (bool_decide (schema_id ≠ 0%N)); [done|].
    by rewrite (bool_decide_eq_false_2 _ Hne).
  - intros out Hne. unfold GetTables. rewrite N_ltb_0.
    by rewrite (bool_decide_eq_false_2 _ Hne).
  - intros out Hne. unfold GetIndexs. rewrite N_ltb_0.
    by rewrite (bool_decide_eq_false_2 _ Hne).
  - intros table_id m Hne. unfold GetTableMetrics. rewrite N_ltb_0.
    by rewrite (bool_decide_eq_true_2 _ Hne).
  - intros index_id m Hne. unfold GetIndexMetrics. rewrite N_ltb_0.
    by rewrite (bool_decide_eq_true_2 _ Hne).
  - intros table_id table_range out. unfold GetTableRange.
    repeat case_match; intros [= <-]. apply Happ.
  - intros index_id index_range out. unfold GetIndexRange.
    repeat case_match; intros [= <-]. apply Happ.
Qed.

(** C10 (witness).  In the catalog with "orders", each of the five checked
    operations refuses an output that is already in use. *)
Lemma reads_refuse_used_output_in_orders_catalog :
  GetSchemas 0 [used_schema] orders_catalog = (EILLEGAL_PARAMTETERS, [used_schema]) ∧
  GetTableMetrics 1001 1002 used_metrics orders_catalog
    = (EILLEGAL_PARAMTETERS, used_metrics, orders_catalog).
Proof.
  pose proof (listing_and_metrics_reads_refuse_used_output 0 orders_catalog)
    as (Hschemas & _).
  pose proof (listing_and_metrics_reads_refuse_used_output 1001 orders_catalog)
    as (_ & _ & _ & Hmetrics & _).
  split.
  - apply Hschemas. discriminate.
  - apply Hmetrics. vm_compute. discriminate.
Defined.

(** C10 (counterexample).  [GetTableRange] is a read operation that fills
    the output of its caller; called with an output that already holds a
    range distribution it succeeds and returns three of them. *)
Lemma GetTableRange_accepts_used_output :
  let run := GetTableRange 1001 1002 [stub_distribution] orders_catalog in
  run.1 = OK ∧
  length run.2 = 3%nat ∧
  head run.2 = Some stub_distribution.
Proof. vm_compute. repeat split; reflexivity. Qed.

(** ** Range distribution *)







(** ** Byte-wise order of keys *)


Lemma ascii_compare_trans a b c :
  Ascii.compare a b ≠ Gt → Ascii.compare b c ≠ Gt → Ascii.compare a c ≠ Gt.
Proof.
  unfold Ascii.compare. rewrite !N.compare_le_iff. lia.
Qed.



Lemma ascii_compare_lt_trans_r a b c :
  Ascii.compare a b ≠ Gt → Ascii.compare b c = Lt → Ascii.compare a c = Lt.
Proof.
  unfold Ascii.compare. rewrite N.compare_le_iff, !N.compare_lt_iff. lia.
Qed.






(** ** Metrics aggregation *)









Lemma GetTableMetrics_miss schema_id table_id table_internal table_metrics cc :
  id_entity_id (metrics_with_id_id table_metrics) = 0%N →
  is_Some (schema_map_ cc !! schema_id) →
  table_map_ cc !! table_id = Some table_internal →
  table_metrics_map_ cc !! table_id = None →
  GetTableMetrics schema_id table_id table_metrics cc =
  (OK,
   {| metrics_with_id_id :=
        Some {| entity_type := ENTITY_TYPE_TABLE;
                parent_entity_id := schema_id; entity_id := table_id |};
      metrics_with_id_metrics :=
        Some (calculate_metrics cc (table_partitions table_internal)) |},
   set_table_metrics_map_
     (insert table_id
        {| metrics_internal_id := table_id;
           metrics_internal_metrics :=
             calculate_metrics cc (table_partitions table_internal) |}) cc).
Proof.
  intros Hid Hschema Htable Hmiss.
  unfold GetTableMetrics, SafeMap_Exists, SafeMap_Get, CalculateTableMetricsSingle.
  rewrite N_ltb_0, Hid, Htable, Hmiss. simpl.
  by rewrite (bool_decide_eq_true_2 _ Hschema).
Qed.

Lemma GetTableMetrics_hit schema_id table_id table_internal table_metrics cc cached :
  id_entity_id (metrics_with_id_id table_metrics) = 0%N →
  is_Some (schema_map_ cc !! schema_id) →
  table_map_ cc !! table_id = Some table_internal →
  table_metrics_map_ cc !! table_id = Some cached →
  GetTableMetrics schema_id table_id table_metrics cc =
  (OK,
   {| metrics_with_id_id :=
        Some {| entity_type := ENTITY_TYPE_TABLE;
                parent_entity_id := schema_id; entity_id := table_id |};
      metrics_with_id_metrics := Some (metrics_internal_metrics cached) |},
   cc).
Proof.
  intros Hid Hschema Htable Hhit.
  unfold GetTableMetrics, SafeMap_Exists, SafeMap_Get.
  rewrite N_ltb_0, Hid, Htable, Hhit. simpl.
  by rewrite (bool_decide_eq_true_2 _ Hschema).
Qed.




(** Two calls in a row, each with a fresh output, return the same value: the
    first call leaves the value it returns in the cache. *)
Lemma GetTableMetrics_twice schema_id table_id m1 m2 cc out cc' :
  id_entity_id (metrics_with_id_id m2) = 0%N →
  GetTableMetrics schema_id table_id m1 cc = (OK, out, cc') →
  GetTableMetrics schema_id table_id m2 cc' = (OK, out, cc').
Proof.
  intros Hid2 Hrun. unfold GetTableMetrics in Hrun.
  rewrite !N_ltb_0 in Hrun. unfold SafeMap_Exists, SafeMap_Get in Hrun.
  destruct (bool_decide (id_entity_id (metrics_with_id_id m1) ≠ 0%N)); [done|].
  destruct (bool_decide_reflect (is_Some (schema_map_ cc !! schema_id)))
    as [Hschema|]; [|done].
  destruct (table_map_ cc !! table_id) as [table_internal|] eqn:Htable;
    simpl in Hrun; [|done].
  destruct (table_metrics_map_ cc !! table_id) as [cached|] eqn:Hcache; simpl in Hrun.
  - injection Hrun as <- <-. by eapply GetTableMetrics_hit.
  - unfold CalculateTableMetricsSingle in Hrun. rewrite Htable in Hrun.
    simpl in Hrun. injection Hrun as <- <-.
    rewrite (GetTableMetrics_hit schema_id table_id table_internal m2 _
               {| metrics_internal_id := table_id;
                  metrics_internal_metrics :=
                    calculate_metrics cc (table_partitions table_internal) |});
      try done.
    simpl. by rewrite lookup_insert_eq.
Qed.

(** * Further properties of the catalog operations *)

(** ** Schema names *)

Section SchemaNames.

Variable W : Collaborators.

Lemma CreateSchema_free schema_name new_schema_id cc mi :
  schema_name ≠ "" →
  schema_name_map_safe_temp_ cc !! schema_name = None →
  ∃ cc' mi',
    CreateSchema W (ROOT_SCHEMA W) schema_name new_schema_id cc mi
      = (OK, wrap64 (GetPresentId ID_NEXT_SCHEMA cc + 1), cc', mi').
Proof.
  intros Hname Hfree. unfold CreateSchema, SafeMap_Get, SafeMap_PutIfAbsent, GetNextId.
  rewrite bool_decide_eq_false_2 by (intros H; by apply H).
  rewrite (bool_decide_eq_false_2 _ Hname). rewrite Hfree. simpl.
  rewrite Hfree. simpl. by eexists _, _.
Qed.

Lemma CreateSchema_taken schema_name new_schema_id cc mi v :
  schema_name ≠ "" →
  schema_name_map_safe_temp_ cc !! schema_name = Some v →
  (CreateSchema W (ROOT_SCHEMA W) schema_name new_schema_id cc mi).1.1.1 = ESCHEMA_EXISTS ∧
  (v ≠ 0%N →
   CreateSchema W (ROOT_SCHEMA W) schema_name new_schema_id cc mi
     = (ESCHEMA_EXISTS, new_schema_id, cc, mi)).
Proof.
  intros Hname Htaken. unfold CreateSchema, SafeMap_Get, SafeMap_PutIfAbsent, GetNextId.
  rewrite bool_decide_eq_false_2 by (intros H; by apply H).
  rewrite (bool_decide_eq_false_2 _ Hname). rewrite Htaken. simpl.
  destruct (bool_decide_reflect (v ≠ 0%N)) as [Hv|Hv]; [done|].
  simpl. rewrite Htaken. simpl. split; [done|]. intros Hv'. by destruct Hv.
Qed.

End SchemaNames.

(** X1.  [CreateSchema] succeeds exactly when the parent is the root schema,
    the name is not empty and the name index has no entry for the name.  For
    another parent or an empty name it answers EILLEGAL_PARAMTETERS and
    changes nothing; for a name that is in the name index it answers
    ESCHEMA_EXISTS.  Whenever it fails, the name index and the schema
    entries of the meta-increment are as before. *)
Theorem CreateSchema_succeeds_iff_root_named_and_free
    (W : Collaborators) (parent_schema_id : N) (schema_name : string)
    (new_schema_id : N) (cc : CoordinatorControl) (mi : MetaIncrement) :
  let run := CreateSchema W parent_schema_id schema_name new_schema_id cc mi in
  (run.1.1.1 = OK ↔
     parent_schema_id = ROOT_SCHEMA W ∧ schema_name ≠ "" ∧
     schema_name_map_safe_temp_ cc !! schema_name = None) ∧
  (parent_schema_id ≠ ROOT_SCHEMA W ∨ schema_name = "" →
     run = (EILLEGAL_PARAMTETERS, new_schema_id, cc, mi)) ∧
  (parent_schema_id = ROOT_SCHEMA W → schema_name ≠ "" →
     is_Some (schema_name_map_safe_temp_ cc !! schema_name) →
     run.1.1.1 = ESCHEMA_EXISTS) ∧
  (run.1.1.1 ≠ OK →
     schema_name_map_safe_temp_ run.1.2 = schema_name_map_safe_temp_ cc ∧
     schemas run.2 = schemas mi).
Proof.
  intros run. subst run.
  destruct (decide (parent_schema_id = ROOT_SCHEMA W)) as [->|Hparent].
  - destruct (decide (schema_name = "")) as [->|Hname].
    + unfold CreateSchema.
      rewrite bool_decide_eq_false_2 by (intros H; by apply H). simpl.
      split; [split; [done | by intros (_ & ? & _)]|].
      split; [done|]. split; [done|]. done.
    + destruct (schema_name_map_safe_temp_ cc !! schema_name) as [v|] eqn:Hget.
      * destruct (CreateSchema_taken W schema_name new_schema_id cc mi v Hname Hget)
          as [Hst Hsame].
        split; [split; [by rewrite Hst | by intros (_ & _ & ?)]|].
        split; [by intros [?|?]|]. split; [done|]. intros _.
        unfold CreateSchema, SafeMap_Get, SafeMap_PutIfAbsent, GetNextId.
        rewrite bool_decide_eq_false_2 by (intros H; by apply H).
        rewrite (bool_decide_eq_false_2 _ Hname). rewrite Hget. simpl.
        destruct (bool_decide (v ≠ 0%N)); [done|]. simpl. by rewrite Hget.
      * destruct (CreateSchema_free W schema_name new_schema_id cc mi Hname Hget)
          as (cc' & mi' & ->). simpl.
        split; [done|]. split; [by intros [?|?]|].
        split; [by intros _ _ [? ?]|]. done.
  - unfold CreateSchema. rewrite (bool_decide_eq_true_2 _ Hparent). simpl.
    split; [split; [done | by intros (? & _)]|].
    split; [done|]. split; [done|]. done.
Qed.

(** X2.  A schema name cannot be created twice.  After a successful
    [CreateSchema], a further [CreateSchema] of the same name answers
    ESCHEMA_EXISTS; when the id given to the first schema is not 0 the
    refusal leaves the catalog and the meta-increment as they were. *)
Theorem CreateSchema_same_name_again_refused
    (W : Collaborators) (parent_schema_id : N) (schema_name : string)
    (new_schema_id : N) (cc : CoordinatorControl) (mi : MetaIncrement)
    (id' : N) (cc' : CoordinatorControl) (mi' : MetaIncrement)
    (new_schema_id2 : N) (mi2 : MetaIncrement) :
  CreateSchema W parent_schema_id schema_name new_schema_id cc mi = (OK, id', cc', mi') →
  (CreateSchema W parent_schema_id schema_name new_schema_id2 cc' mi2).1.1.1
    = ESCHEMA_EXISTS ∧
  (id' ≠ 0%N →
   CreateSchema W parent_schema_id schema_name new_schema_id2 cc' mi2
     = (ESCHEMA_EXISTS, new_schema_id2, cc', mi2)).
Proof.
  intros Hrun.
  apply CreateSchema_ok in Hrun as (v & -> & Hname & _ & _ & _ & _ & _ & Hnames).
  apply CreateSchema_taken; [done|]. by rewrite Hnames, lookup_insert_eq.
Qed.

(** X2 (witness).  Creating "hr" in the catalog with "sales" succeeds; the
    second attempt is refused and changes nothing. *)
Lemma CreateSchema_hr_twice :
  let first := CreateSchema (scenario_collaborators None) 0 "hr" 0
                 sales_catalog MetaIncrement_empty in
  first.1.1.1 = OK ∧
  CreateSchema (scenario_collaborators None) 0 "hr" 0 first.1.2 first.2
    = (ESCHEMA_EXISTS, 0%N, first.1.2, first.2).
Proof.
  intros first. split; [vm_compute; reflexivity|].
  apply (CreateSchema_same_name_again_refused (scenario_collaborators None) 0 "hr" 0
           sales_catalog MetaIncrement_empty first.1.1.2 first.1.2 first.2 0 first.2).
  - vm_compute. reflexivity.
  - vm_compute. discriminate.
Defined.

(** X3.  [DropSchema] frees the name of the schema it deletes.  After a
    successful [DropSchema] of a schema with a non-empty name, the name
    index has no entry for that name, the entries of the other names are as
    before, and a [CreateSchema] of that name under the root succeeds. *)
Theorem DropSchema_frees_the_name
    (W : Collaborators) (parent_schema_id schema_id : N)
    (cc : CoordinatorControl) (mi : MetaIncrement)
    (cc' : CoordinatorControl) (mi' : MetaIncrement)
    (schema_internal : SchemaInternal) (new_schema_id : N) (mi2 : MetaIncrement) :
  DropSchema W parent_schema_id schema_id cc mi = (OK, cc', mi') →
  schema_map_ cc !! schema_id = Some schema_internal →
  schema_internal_name schema_internal ≠ "" →
  schema_name_map_safe_temp_ cc' !! schema_internal_name schema_internal = None ∧
  (∀ other, other ≠ schema_internal_name schema_internal →
     schema_name_map_safe_temp_ cc' !! other = schema_name_map_safe_temp_ cc !! other) ∧
  (CreateSchema W (ROOT_SCHEMA W) (schema_internal_name schema_internal)
     new_schema_id cc' mi2).1.1.1 = OK.
Proof.
  intros Hrun Hget Hname.
  apply DropSchema_ok in Hrun as (s & v & _ & Hget' & _ & _ & _ & _ & _ & Hnames & _).
  rewrite Hget in Hget'. injection Hget' as <-.
  assert (Hfree : schema_name_map_safe_temp_ cc'
                    !! schema_internal_name schema_internal = None)
    by (by rewrite Hnames, lookup_delete_eq).
  split; [done|]. split.
  - intros other Hother. by rewrite Hnames, lookup_delete_ne.
  - destruct (CreateSchema_free W _ new_schema_id cc' mi2 Hname Hfree) as (? & ? & ->).
    done.
Qed.

(** X3 (witness).  Dropping the empty schema "sales" frees its name: a new
    schema "sales" can be created at once. *)
Lemma DropSchema_sales_then_CreateSchema_sales :
  let drop := DropSchema (scenario_collaborators None) 0 1001
                sales_catalog MetaIncrement_empty in
  drop.1.1 = OK ∧
  schema_name_map_safe_temp_ drop.1.2 !! "sales" = None ∧
  (CreateSchema (scenario_collaborators None) 0 "sales" 0 drop.1.2 drop.2).1.1.1 = OK.
Proof.
  intros drop. split; [vm_compute; reflexivity|].
  destruct (DropSchema_frees_the_name (scenario_collaborators None) 0 1001
              sales_catalog MetaIncrement_empty drop.1.2 drop.2
              (sales_schema [] []) 0 drop.2) as (Hfree & _ & Hcreate).
  - vm_compute. reflexivity.
  - vm_compute. reflexivity.
  - vm_compute. discriminate.
  - split; [exact Hfree | exact Hcreate].
Defined.

(** ** What the builder operations leave alone *)

Ltac solve_extends :=
  unfold committed_unchanged, meta_increment_extends; simpl;
  rewrite <- ?app_assoc;
  repeat split;
  first [ done | reflexivity | by eexists | by apply prefix_app_r ].

Section Frame.

Variable W : Collaborators.

Lemma CreateSchema_appends parent_schema_id schema_name new_schema_id cc mi st id' cc' mi' :
  CreateSchema W parent_schema_id schema_name new_schema_id cc mi = (st, id', cc', mi') →
  committed_unchanged cc cc' ∧ meta_increment_extends mi mi' ∧ calls_ cc' = calls_ cc.
Proof.
  intros Hrun. unfold CreateSchema in Hrun. split_paths; solve_extends.
Qed.

Lemma DropSchema_appends parent_schema_id schema_id cc mi st cc' mi' :
  DropSchema W parent_schema_id schema_id cc mi = (st, cc', mi') →
  committed_unchanged cc cc' ∧ meta_increment_extends mi mi' ∧ calls_ cc' = calls_ cc.
Proof.
  intros Hrun. unfold DropSchema in Hrun. split_paths; solve_extends.
Qed.

Lemma CreateTable_appends schema_id table_definition new_table_id cc mi st id' cc' mi' :
  CreateTable W schema_id table_definition new_table_id cc mi = (st, id', cc', mi') →
  committed_unchanged cc cc' ∧ meta_increment_extends mi mi' ∧
  calls_ cc `prefix_of` calls_ cc'.
Proof.
  intros Hrun. unfold CreateTable in Hrun. split_paths; solve_extends.
Qed.

Lemma CreateIndex_appends schema_id index_definition new_index_id cc mi st id' cc' mi' :
  CreateIndex W schema_id index_definition new_index_id cc mi = (st, id', cc', mi') →
  committed_unchanged cc cc' ∧ meta_increment_extends mi mi' ∧
  calls_ cc `prefix_of` calls_ cc'.
Proof.
  intros Hrun. unfold CreateIndex in Hrun. split_paths; solve_extends.
Qed.

Lemma DropTable_appends schema_id table_id cc mi st cc' mi' :
  DropTable W schema_id table_id cc mi = (st, cc', mi') →
  committed_unchanged cc cc' ∧ meta_increment_extends mi mi' ∧
  calls_ cc `prefix_of` calls_ cc'.
Proof.
  intros Hrun. unfold DropTable in Hrun. split_paths; solve_extends.
Qed.

Lemma DropIndex_appends schema_id index_id cc mi st cc' mi' :
  DropIndex W schema_id index_id cc mi = (st, cc', mi') →
  committed_unchanged cc cc' ∧ meta_increment_extends mi mi' ∧
  calls_ cc `prefix_of` calls_ cc'.
Proof.
  intros Hrun. unfold DropIndex in Hrun. split_paths; solve_extends.
Qed.

End Frame.

(** X4.  The builder operations never write the committed catalog
    themselves: whatever their outcome, [CreateSchema], [DropSchema],
    [CreateTable], [CreateIndex], [DropTable] and [DropIndex] leave the
    schema, table and index maps and both metrics caches as they were, and
    they only append to the lists of the meta-increment.  The schema
    operations call no service; the other four only add calls to the region
    and auto-increment services after those made before. *)
Theorem builders_leave_catalog_and_only_append
    (W : Collaborators) (cc : CoordinatorControl) (mi : MetaIncrement) :
  (∀ parent_schema_id schema_name new_schema_id st id' cc' mi',
     CreateSchema W parent_schema_id schema_name new_schema_id cc mi
       = (st, id', cc', mi') →
     committed_unchanged cc cc' ∧ meta_increment_extends mi mi' ∧
     calls_ cc' = calls_ cc) ∧
  (∀ parent_schema_id schema_id st cc' mi',
     DropSchema W parent_schema_id schema_id cc mi = (st, cc', mi') →
     committed_unchanged cc cc' ∧ meta_increment_extends mi mi' ∧
     calls_ cc' = calls_ cc) ∧
  (∀ schema_id table_definition new_table_id st id' cc' mi',
     CreateTable W schema_id table_definition new_table_id cc mi
       = (st, id', cc', mi') →
     committed_unchanged cc cc' ∧ meta_increment_extends mi mi' ∧
     calls_ cc `prefix_of` calls_ cc') ∧
  (∀ schema_id index_definition new_index_id st id' cc' mi',
     CreateIndex W schema_id index_definition new_index_id cc mi
       = (st, id', cc', mi') →
     committed_unchanged cc cc' ∧ meta_increment_extends mi mi' ∧
     calls_ cc `prefix_of` calls_ cc') ∧
  (∀ schema_id table_id st cc' mi',
     DropTable W schema_id table_id cc mi = (st, cc', mi') →
     committed_unchanged cc cc' ∧ meta_increment_extends mi mi' ∧
     calls_ cc `prefix_of` calls_ cc') ∧
  (∀ schema_id index_id st cc' mi',
     DropIndex W schema_id index_id cc mi = (st, cc', mi') →
     committed_unchanged cc cc' ∧ meta_increment_extends mi mi' ∧
     calls_ cc `prefix_of` calls_ cc').
Proof.
  split; [|split; [|split; [|split; [|split]]]]; intros *.
  - apply CreateSchema_appends.
  - apply DropSchema_appends.
  - apply CreateTable_appends.
  - apply CreateIndex_appends.
  - apply DropTable_appends.
  - apply DropIndex_appends.
Qed.

(** ** Names of tables and indexes *)

Section EntityNames.

Variable W : Collaborators.

Lemma CreateTable_ok_checks schema_id table_definition new_table_id cc mi id' cc' mi' :
  CreateTable W schema_id table_definition new_table_id cc mi = (OK, id', cc', mi') →
  schema_id ≠ ROOT_SCHEMA W ∧ is_Some (schema_map_ cc !! schema_id) ∧
  (CheckAutoIncrementInTableDefinition W table_definition).1 = OK.
Proof.
  intros Hrun. unfold CreateTable in Hrun. split_paths; discard_impossible.
  all: repeat match goal with
       | H : _ || _ = false |- _ => apply orb_false_elim in H as [? ?]
       | H : bool_decide _ = false |- _ => apply bool_decide_eq_false in H
       | H : negb _ = false |- _ => apply negb_false_iff in H
       | H : bool_decide _ = true |- _ => apply bool_decide_eq_true in H
       end.
  all: repeat split; try done.
  all: by match goal with H : ok ?x = true |- ?x = OK => destruct x end.
Qed.

Lemma CreateIndex_ok_checks schema_id index_definition new_index_id cc mi id' cc' mi' :
  CreateIndex W schema_id index_definition new_index_id cc mi = (OK, id', cc', mi') →
  schema_id ≠ ROOT_SCHEMA W ∧ is_Some (schema_map_ cc !! schema_id) ∧
  ValidateIndexDefinition index_definition = OK.
Proof.
  intros Hrun. unfold CreateIndex in Hrun. split_paths; discard_impossible.
  all: repeat match goal with
       | H : _ || _ = false |- _ => apply orb_false_elim in H as [? ?]
       | H : bool_decide _ = false |- _ => apply bool_decide_eq_false in H
       | H : negb _ = false |- _ => apply negb_false_iff in H
       | H : bool_decide _ = true |- _ => apply bool_decide_eq_true in H
       end.
  all: repeat split; try done.
  all: by match goal with H : ok ?x = true |- ?x = OK => destruct x end.
Qed.

(** A name that is in the name index with an id other than 0 is refused
    once the earlier checks have passed, and nothing changes. *)
Lemma CreateTable_taken schema_id table_definition new_table_id cc mi v :
  schema_id ≠ ROOT_SCHEMA W →
  is_Some (schema_map_ cc !! schema_id) →
  (CheckAutoIncrementInTableDefinition W table_definition).1 = OK →
  ¬ partition_rejected (table_partition table_definition) →
  table_name_map_safe_temp_ cc
    !! name_key schema_id (table_name table_definition) = Some v →
  v ≠ 0%N →
  CreateTable W schema_id table_definition new_table_id cc mi
    = (ETABLE_EXISTS, new_table_id, cc, mi).
Proof.
  intros Hroot Hschema Hcheck Hpart Hget Hv. unfold CreateTable, SafeMap_Exists, SafeMap_Get.
  rewrite N_ltb_0, (bool_decide_eq_false_2 _ Hroot), (bool_decide_eq_true_2 _ Hschema).
  simpl. destruct (CheckAutoIncrementInTableDefinition W table_definition) as [ret has].
  simpl in Hcheck. subst ret. simpl.
  destruct (validate_partition ETABLE_DEFINITION_ILLEGAL
              (table_partition table_definition)) as [e|ranges] eqn:Hvalid.
  - destruct Hpart. apply (validate_partition_illegal ETABLE_DEFINITION_ILLEGAL). eauto.
  - rewrite Hget. simpl. by rewrite (bool_decide_eq_true_2 _ Hv).
Qed.

Lemma CreateIndex_taken schema_id index_definition new_index_id cc mi v :
  schema_id ≠ ROOT_SCHEMA W →
  is_Some (schema_map_ cc !! schema_id) →
  ValidateIndexDefinition index_definition = OK →
  ¬ partition_rejected (index_partition index_definition) →
  index_name_map_safe_temp_ cc
    !! name_key schema_id (index_name index_definition) = Some v →
  v ≠ 0%N →
  CreateIndex W schema_id index_definition new_index_id cc mi
    = (EINDEX_EXISTS, new_index_id, cc, mi).
Proof.
  intros Hroot Hschema Hcheck Hpart Hget Hv. unfold CreateIndex, SafeMap_Exists, SafeMap_Get.
  rewrite N_ltb_0, (bool_decide_eq_false_2 _ Hroot), (bool_decide_eq_true_2 _ Hschema).
  simpl. rewrite Hcheck. simpl.
  destruct (validate_partition EINDEX_DEFINITION_ILLEGAL
              (index_partition index_definition)) as [e|ranges] eqn:Hvalid.
  - destruct Hpart. apply (validate_partition_illegal EINDEX_DEFINITION_ILLEGAL). eauto.
  - rewrite Hget. simpl. by rewrite (bool_decide_eq_true_2 _ Hv).
Qed.

End EntityNames.

(** X5.  A table name cannot be created twice in a schema.  After a
    successful [CreateTable] that gave the table an id other than 0, a
    further [CreateTable] in that schema of a definition with the same name
    (one that passes the auto-increment check and has an accepted partition
    rule) answers ETABLE_EXISTS and leaves the catalog, the meta-increment
    and the passed id as they were. *)
Theorem CreateTable_same_name_again_refused
    (W : Collaborators) (schema_id : N) (table_definition : TableDefinition)
    (new_table_id : N) (cc : CoordinatorControl) (mi : MetaIncrement)
    (id' : N) (cc' : CoordinatorControl) (mi' : MetaIncrement)
    (table_definition2 : TableDefinition) (new_table_id2 : N) (mi2 : MetaIncrement) :
  CreateTable W schema_id table_definition new_table_id cc mi = (OK, id', cc', mi') →
  id' ≠ 0%N →
  table_name table_definition2 = table_name table_definition →
  (CheckAutoIncrementInTableDefinition W table_definition2).1 = OK →
  ¬ partition_rejected (table_partition table_definition2) →
  CreateTable W schema_id table_definition2 new_table_id2 cc' mi2
    = (ETABLE_EXISTS, new_table_id2, cc', mi2).
Proof.
  intros Hrun Hid Hname Hcheck Hpart.
  destruct (CreateTable_ok_checks W _ _ _ _ _ _ _ _ Hrun) as (Hroot & Hschema & _).
  destruct (CreateTable_appends W _ _ _ _ _ _ _ _ _ Hrun) as ((Hmap & _) & _).
  apply CreateTable_ok in Hrun
    as (? & ? & ? & ? & _ & _ & _ & _ & _ & _ & _ & _ & _ & _ & _ & _ & _ & Hnames & _).
  apply (CreateTable_taken W schema_id table_definition2 new_table_id2 cc' mi2 id');
    try done.
  - by rewrite Hmap.
  - by rewrite Hname, Hnames, lookup_insert_eq.
Qed.

(** X5 (witness).  After "orders" has been created in "sales", another
    definition named "orders" is refused with ETABLE_EXISTS. *)
Lemma CreateTable_orders_twice :
  let first := CreateTable (scenario_collaborators None) 1001 (orders 3 two_ranges) 0
                 sales_catalog MetaIncrement_empty in
  first.1.1.1 = OK ∧
  CreateTable (scenario_collaborators None) 1001 (orders 1 one_range) 0
    first.1.2 first.2 = (ETABLE_EXISTS, 0%N, first.1.2, first.2).
Proof.
  intros first. split; [vm_compute; reflexivity|].
  apply (CreateTable_same_name_again_refused (scenario_collaborators None) 1001
           (orders 3 two_ranges) 0 sales_catalog MetaIncrement_empty
           first.1.1.2 first.1.2 first.2).
  - vm_compute. reflexivity.
  - vm_compute. discriminate.
  - reflexivity.
  - reflexivity.
  - intros Hrej. apply (validate_partition_illegal ETABLE_DEFINITION_ILLEGAL) in Hrej.
    destruct Hrej as [e He]. vm_compute in He. discriminate.
Defined.

(** X6.  An index name cannot be created twice in a schema.  After a
    successful [CreateIndex] that gave the index an id other than 0, a
    further [CreateIndex] in that schema of a definition with the same name
    (one that [ValidateIndexDefinition] accepts and that has an accepted
    partition rule) answers EINDEX_EXISTS and leaves the catalog, the
    meta-increment and the passed id as they were. *)
Theorem CreateIndex_same_name_again_refused
    (W : Collaborators) (schema_id : N) (index_definition : IndexDefinition)
    (new_index_id : N) (cc : CoordinatorControl) (mi : MetaIncrement)
    (id' : N) (cc' : CoordinatorControl) (mi' : MetaIncrement)
    (index_definition2 : IndexDefinition) (new_index_id2 : N) (mi2 : MetaIncrement) :
  CreateIndex W schema_id index_definition new_index_id cc mi = (OK, id', cc', mi') →
  id' ≠ 0%N →
  index_name index_definition2 = index_name index_definition →
  ValidateIndexDefinition index_definition2 = OK →
  ¬ partition_rejected (index_partition index_definition2) →
  CreateIndex W schema_id index_definition2 new_index_id2 cc' mi2
    = (EINDEX_EXISTS, new_index_id2, cc', mi2).
Proof.
  intros Hrun Hid Hname Hcheck Hpart.
  destruct (CreateIndex_ok_checks W _ _ _ _ _ _ _ _ Hrun) as (Hroot & Hschema & _).
  destruct (CreateIndex_appends W _ _ _ _ _ _ _ _ _ Hrun) as ((Hmap & _) & _).
  apply CreateIndex_ok in Hrun
    as (? & ? & ? & ? & _ & _ & _ & _ & _ & _ & _ & _ & _ & _ & _ & _ & _ & Hnames & _).
  apply (CreateIndex_taken W schema_id index_definition2 new_index_id2 cc' mi2 id');
    try done.
  - by rewrite Hmap.
  - by rewrite Hname, Hnames, lookup_insert_eq.
Qed.

(** X6 (witness).  After the index "by_vec" has been created in "sales",
    another definition named "by_vec" is refused with EINDEX_EXISTS. *)
Lemma CreateIndex_by_vec_twice :
  let first := CreateIndex (scenario_collaborators None) 1001
                 (flat_index "by_vec" two_ranges) 0
                 sales_catalog MetaIncrement_empty in
  first.1.1.1 = OK ∧
  CreateIndex (scenario_collaborators None) 1001 (flat_index "by_vec" one_range) 0
    first.1.2 first.2 = (EINDEX_EXISTS, 0%N, first.1.2, first.2).
Proof.
  intros first. split; [vm_compute; reflexivity|].
  apply (CreateIndex_same_name_again_refused (scenario_collaborators None) 1001
           (flat_index "by_vec" two_ranges) 0 sales_catalog MetaIncrement_empty
           first.1.1.2 first.1.2 first.2).
  - vm_compute. reflexivity.
  - vm_compute. discriminate.
  - reflexivity.
  - vm_compute. reflexivity.
  - intros Hrej. apply (validate_partition_illegal EINDEX_DEFINITION_ILLEGAL) in Hrej.
    destruct Hrej as [e He]. vm_compute in He. discriminate.
Defined.

(** ** The calls of a successful creation *)

Section Requests.

Variable W : Collaborators.

(** A run of the creation loop that returns one more id per range has made
    exactly one call per range, in the order of the ranges, and every call
    succeeded. *)
Lemma create_regions_complete request ranges : ∀ i new_region_ids cc ids' cc',
  create_regions W request i ranges new_region_ids cc = (ids', cc') →
  length ids' = (length new_region_ids + length ranges)%nat →
  ∃ new,
    cc' = set_calls_ (calls_ cc ++ new) cc ∧
    create_requests new = imap (λ k, request (i + k)%nat) ranges ∧
    ids' = new_region_ids ++ created_regions new ∧
    length (created_regions new) = length new ∧
    length new = length ranges.
Proof.
  induction ranges as [|range ranges IH]; intros i ids cc ids' cc' Hrun Hlen;
    simpl in Hrun.
  - injection Hrun as <- <-. exists []. by rewrite !app_nil_r, set_calls_id.
  - unfold CreateRegion in Hrun.
    destruct (CreateRegion_outcome W (calls_ cc) (request i range)) as [ret rid] eqn:Hout.
    destruct (ok ret) eqn:Hok.
    + apply IH in Hrun as (new & -> & Hreq & -> & Hcre & Hnew);
        [|rewrite length_app; simpl in *; lia].
      exists (CallCreateRegion (request i range) ret rid :: new).
      split; [by unfold add_call; simpl; rewrite <- app_assoc|].
      rewrite create_requests_cons, created_regions_cons. simpl. rewrite Hok.
      split; [|split; [by rewrite <- app_assoc | simpl; lia]].
      rewrite Hreq, Nat.add_0_r. f_equal. apply imap_ext. intros k x _. simpl.
      by rewrite Nat.add_succ_r.
    + injection Hrun as <- <-. simpl in Hlen. lia.
Qed.

Lemma create_regions_all request ranges cc ids' cc' :
  create_regions W request 0 ranges [] cc = (ids', cc') →
  (length ids' <? length ranges)%nat = false →
  ∃ new,
    cc' = set_calls_ (calls_ cc ++ new) cc ∧
    create_requests new = imap request ranges ∧
    ids' = created_regions new ∧
    length (created_regions new) = length new ∧
    length new = length ranges.
Proof.
  intros Hrun Hlen.
  assert (length ids' = (length (@nil N) + length ranges)%nat) as Hall.
  { destruct (create_regions_run W _ _ _ _ _ _ _ Hrun) as (new & created & _ & -> & Hr).
    destruct Hr as [_ Hc _ Ho]. apply Nat.ltb_ge in Hlen. simpl in *.
    destruct Ho as [(_ & ? & _) | (_ & ?)]; lia. }
  destruct (create_regions_complete _ _ _ _ _ _ _ Hrun Hall)
    as (new & -> & Hreq & -> & Hcre & Hnew).
  exists new. by repeat split.
Qed.

End Requests.

(** Splits a run of a creation into its paths, keeping the creation loop. *)
Ltac split_creation :=
  repeat case_match; simplify_eq;
  unfold_services;
  repeat case_match; simplify_eq;
  discard_impossible;
  repeat match goal with
    | H : create_regions _ _ 0 _ [] _ = _, Hl : (length _ <? length _)%nat = false |- _ =>
        apply create_regions_all in H as (? & -> & ? & -> & ? & ?); [|exact Hl]
    end;
  simpl in *.

(** X7.  The calls of a successful [CreateTable] are, in this order: the
    creation of the auto-increment for the new table id, with the start
    value of the definition, when the definition has an auto-increment
    column (and no such call otherwise); then one [CreateRegion] per
    declared range, in the order of the ranges, the i-th one (from 0) for
    the region named T_<schema id>_<table name>_part_<i> with the i-th
    range, the replica count (3 when the declared one is below 1), the
    schema id and the new table id.  All these calls succeeded, and the
    partitions of the table recorded in the meta-increment are the region
    ids they returned, in that order. *)
Theorem CreateTable_calls_of_a_success
    (W : Collaborators) (schema_id : N) (table_definition : TableDefinition)
    (new_table_id : N) (cc : CoordinatorControl) (mi : MetaIncrement)
    (id' : N) (cc' : CoordinatorControl) (mi' : MetaIncrement) :
  CreateTable W schema_id table_definition new_table_id cc mi = (OK, id', cc', mi') →
  ∃ ranges new,
    table_partition table_definition = Some (range_rule ranges) ∧
    calls_ cc' = calls_ cc ++
      (if (CheckAutoIncrementInTableDefinition W table_definition).2
       then [CallSyncSendCreateAutoIncrement id'
               (table_auto_increment table_definition) OK]
       else []) ++ new ∧
    create_requests new =
      imap (table_region_request schema_id table_definition
              (replica_or_default (table_replica table_definition)) id') ranges ∧
    length new = length ranges ∧
    length (created_regions new) = length ranges ∧
    table_partitions <$> (table_increment_table <$> last (tables mi'))
      = Some (created_regions new).
Proof.
  intros Hrun. unfold CreateTable in Hrun. unfold replica_or_default.
  split_creation.
  all: try congruence.
  all: match goal with
       | H : validate_partition _ _ = inr _ |- _ =>
           apply validate_partition_inr in H as [_ ->]
       end.
  all: eexists _, _; split; [reflexivity|].
  all: repeat match goal with
       | H : negb _ = false |- _ => apply negb_false_iff in H
       end.
  all: repeat match goal with
       | H : ok ?x = true |- _ => destruct x eqn:?; simpl in H; try discriminate; clear H
       end.
  all: rewrite <- ?app_assoc; simpl.
  all: split; [reflexivity|].
  all: rewrite ?last_snoc; simpl.
  all: repeat split; try done; try congruence.
Qed.

(** X7 (witness).  Creating "invoices", which has an auto-increment column
    starting at 100, with two ranges in "sales": the trace holds the
    auto-increment creation for the new id and then the two region
    requests. *)
Lemma CreateTable_invoices_calls :
  let run := CreateTable (scenario_collaborators None) 1001 invoices 0
               sales_catalog MetaIncrement_empty in
  run.1.1.1 = OK ∧
  ∃ ranges new,
    table_partition invoices = Some (range_rule ranges) ∧
    calls_ run.1.2 = calls_ sales_catalog ++
      (if (CheckAutoIncrementInTableDefinition (scenario_collaborators None) invoices).2
       then [CallSyncSendCreateAutoIncrement run.1.1.2 (table_auto_increment invoices) OK]
       else []) ++ new ∧
    create_requests new =
      imap (table_region_request 1001 invoices
              (replica_or_default (table_replica invoices)) run.1.1.2) ranges ∧
    length new = length ranges ∧
    length (created_regions new) = length ranges ∧
    table_partitions <$> (table_increment_table <$> last (tables run.2))
      = Some (created_regions new).
Proof.
  intros run. split; [vm_compute; reflexivity|].
  apply (CreateTable_calls_of_a_success (scenario_collaborators None) 1001 invoices 0
           sales_catalog MetaIncrement_empty run.1.1.2 run.1.2 run.2).
  vm_compute. reflexivity.
Defined.

(** X8.  The calls of a successful [CreateIndex] are, in this order: the
    creation of the auto-increment for the new index id, with the start
    value of the definition, when the definition asks for auto-increment
    (and no such call otherwise); then one [CreateRegion] per declared
    range, in the order of the ranges, the i-th one (from 0) for the index
    region named I_<schema id>_<index name>_part_<i> with the i-th range,
    the replica count (3 when the declared one is below 1), the schema id,
    the new index id and the index parameter of the definition.  All these
    calls succeeded, and the partitions of the index recorded in the
    meta-increment are the region ids they returned, in that order. *)
Theorem CreateIndex_calls_of_a_success
    (W : Collaborators) (schema_id : N) (index_definition : IndexDefinition)
    (new_index_id : N) (cc : CoordinatorControl) (mi : MetaIncrement)
    (id' : N) (cc' : CoordinatorControl) (mi' : MetaIncrement) :
  CreateIndex W schema_id index_definition new_index_id cc mi = (OK, id', cc', mi') →
  ∃ ranges new,
    index_partition index_definition = Some (range_rule ranges) ∧
    calls_ cc' = calls_ cc ++
      (if with_auto_incrment index_definition
       then [CallSyncSendCreateAutoIncrement id'
               (index_auto_increment index_definition) OK]
       else []) ++ new ∧
    create_requests new =
      imap (index_region_request schema_id index_definition
              (replica_or_default (index_replica index_definition)) id') ranges ∧
    length new = length ranges ∧
    length (created_regions new) = length ranges ∧
    index_partitions <$> (index_increment_index <$> last (indexes mi'))
      = Some (created_regions new).
Proof.
  intros Hrun. unfold CreateIndex in Hrun. unfold replica_or_default.
  split_creation.
  all: try congruence.
  all: match goal with
       | H : validate_partition _ _ = inr _ |- _ =>
           apply validate_partition_inr in H as [_ ->]
       end.
  all: eexists _, _; split; [reflexivity|].
  all: repeat match goal with
       | H : negb _ = false |- _ => apply negb_false_iff in H
       end.
  all: repeat match goal with
       | H : ok ?x = true |- _ => destruct x eqn:?; simpl in H; try discriminate; clear H
       end.
  all: rewrite <- ?app_assoc; simpl.
  all: split; [reflexivity|].
  all: rewrite ?last_snoc; simpl.
  all: repeat split; try done; try congruence.
Qed.

(** X8 (witness).  Creating the index "by_vec" with two ranges in "sales":
    no auto-increment is asked for, and the trace holds the two index
    region requests. *)
Lemma CreateIndex_by_vec_calls :
  let run := CreateIndex (scenario_collaborators None) 1001
               (flat_index "by_vec" two_ranges) 0 sales_catalog MetaIncrement_empty in
  run.1.1.1 = OK ∧
  ∃ ranges new,
    index_partition (flat_index "by_vec" two_ranges) = Some (range_rule ranges) ∧
    calls_ run.1.2 = calls_ sales_catalog ++
      (if with_auto_incrment (flat_index "by_vec" two_ranges)
       then [CallSyncSendCreateAutoIncrement run.1.1.2
               (index_auto_increment (flat_index "by_vec" two_ranges)) OK]
       else []) ++ new ∧
    create_requests new =
      imap (index_region_request 1001 (flat_index "by_vec" two_ranges)
              (replica_or_default (index_replica (flat_index "by_vec" two_ranges)))
              run.1.1.2) ranges ∧
    length new = length ranges ∧
    length (created_regions new) = length ranges ∧
    index_partitions <$> (index_increment_index <$> last (indexes run.2))
      = Some (created_regions new).
Proof.
  intros run. split; [vm_compute; reflexivity|].
  apply (CreateIndex_calls_of_a_success (scenario_collaborators None) 1001
           (flat_index "by_vec" two_ranges) 0
           sales_catalog MetaIncrement_empty run.1.1.2 run.1.2 run.2).
  vm_compute. reflexivity.
Defined.

(** ** Auto-increment *)

Ltac failed_status :=
  match goal with
  | H : negb (ok ?x) = true |- _ =>
      exists x; split; [by intros E; rewrite E in H|]
  end.

(** X9.  A creation that stops with EAUTO_INCREMENT_WHILE_CREATING_TABLE has
    made one call only, the refused creation of the auto-increment for the
    new id: no region was requested, the name index is as before (the name
    is not reserved) and the meta-increment has no new table or index
    entry.  An id taken from the allocator is not given back: its entry
    stays in the meta-increment.  For [CreateTable] this holds when the
    auto-increment check of the definition passed (its own error is returned
    as it is); [CreateIndex] has no other source of this error. *)
Theorem auto_increment_refusal_stops_creation
    (W : Collaborators) (schema_id : N) (cc : CoordinatorControl) (mi : MetaIncrement) :
  (∀ table_definition new_table_id id' cc' mi',
     CreateTable W schema_id table_definition new_table_id cc mi
       = (EAUTO_INCREMENT_WHILE_CREATING_TABLE, id', cc', mi') →
     (CheckAutoIncrementInTableDefinition W table_definition).1 = OK →
     ∃ ret,
       ret ≠ OK ∧
       (CheckAutoIncrementInTableDefinition W table_definition).2 = true ∧
       calls_ cc' = calls_ cc ++
         [CallSyncSendCreateAutoIncrement id'
            (table_auto_increment table_definition) ret] ∧
       id' = (if (new_table_id <=? 0)%N
              then wrap64 (GetPresentId ID_NEXT_TABLE cc + 1) else new_table_id) ∧
       table_name_map_safe_temp_ cc' = table_name_map_safe_temp_ cc ∧
       tables mi' = tables mi ∧
       idepochs mi' = idepochs mi ++
         (if (new_table_id <=? 0)%N
          then [ {| idepoch_id := ID_NEXT_TABLE; idepoch_value := id' |} ] else [])) ∧
  (∀ index_definition new_index_id id' cc' mi',
     CreateIndex W schema_id index_definition new_index_id cc mi
       = (EAUTO_INCREMENT_WHILE_CREATING_TABLE, id', cc', mi') →
     ∃ ret,
       ret ≠ OK ∧
       with_auto_incrment index_definition = true ∧
       calls_ cc' = calls_ cc ++
         [CallSyncSendCreateAutoIncrement id'
            (index_auto_increment index_definition) ret] ∧
       id' = (if (new_index_id <=? 0)%N
              then wrap64 (GetPresentId ID_NEXT_TABLE cc + 1) else new_index_id) ∧
       index_name_map_safe_temp_ cc' = index_name_map_safe_temp_ cc ∧
       indexes mi' = indexes mi ∧
       idepochs mi' = idepochs mi ++
         (if (new_index_id <=? 0)%N
          then [ {| idepoch_id := ID_NEXT_TABLE; idepoch_value := id' |} ] else [])).
Proof.
  split.
  - intros table_definition new_table_id id' cc' mi' Hrun Hcheck.
    unfold CreateTable in Hrun. split_paths; discard_impossible.
    all: try (match goal with
              | H : validate_partition _ _ = inl _ |- _ =>
                  apply validate_partition_inl in H; discriminate
              end).
    all: failed_status.
    all: rewrite ?app_nil_r; repeat split; done.
  - intros index_definition new_index_id id' cc' mi' Hrun.
    unfold CreateIndex in Hrun. split_paths; discard_impossible.
    all: try (match goal with
              | H : validate_partition _ _ = inl _ |- _ =>
                  apply validate_partition_inl in H; discriminate
              end).
    all: try (match goal with
              | H : ValidateIndexDefinition ?d = EAUTO_INCREMENT_WHILE_CREATING_TABLE |- _ =>
                  destruct (ValidateIndexDefinition_codes d); congruence
              | H : EAUTO_INCREMENT_WHILE_CREATING_TABLE = ValidateIndexDefinition ?d |- _ =>
                  destruct (ValidateIndexDefinition_codes d); congruence
              end).
    all: failed_status.
    all: rewrite ?app_nil_r; repeat split; done.
Qed.

(** X9 (witness).  With an auto-increment service that is down, creating
    "invoices" stops with EAUTO_INCREMENT_WHILE_CREATING_TABLE after the one
    refused call; the id 1 it took from the allocator stays recorded. *)
Lemma CreateTable_invoices_auto_increment_down :
  let run := CreateTable auto_increment_down 1001 invoices 0
               sales_catalog MetaIncrement_empty in
  run.1.1.1 = EAUTO_INCREMENT_WHILE_CREATING_TABLE ∧
  ∃ ret,
    ret ≠ OK ∧
    (CheckAutoIncrementInTableDefinition auto_increment_down invoices).2 = true ∧
    calls_ run.1.2 = calls_ sales_catalog ++
      [CallSyncSendCreateAutoIncrement run.1.1.2 (table_auto_increment invoices) ret] ∧
    run.1.1.2 = (if (0 <=? 0)%N
                 then wrap64 (GetPresentId ID_NEXT_TABLE sales_catalog + 1) else 0%N) ∧
    table_name_map_safe_temp_ run.1.2 = table_name_map_safe_temp_ sales_catalog ∧
    tables run.2 = tables MetaIncrement_empty ∧
    idepochs run.2 = idepochs MetaIncrement_empty ++
      (if (0 <=? 0)%N
       then [ {| idepoch_id := ID_NEXT_TABLE; idepoch_value := run.1.1.2 |} ] else []).
Proof.
  intros run. split; [vm_compute; reflexivity|].
  apply (proj1 (auto_increment_refusal_stops_creation auto_increment_down 1001
                  sales_catalog MetaIncrement_empty)
           invoices 0%N run.1.1.2 run.1.2 run.2).
  - vm_compute. reflexivity.
  - vm_compute. reflexivity.
Defined.

(** ** Dropping tables and indexes *)

Section Drops.

Variable W : Collaborators.

(** The loop asks for the drop of each region in turn, whatever the
    earlier calls answered. *)
Lemma drop_regions_calls : ∀ region_ids cc,
  ∃ drops,
    drop_regions W region_ids cc = set_calls_ (calls_ cc ++ drops) cc ∧
    Forall2 (λ c region_id, ∃ ret, c = CallDropRegion region_id ret) drops region_ids.
Proof.
  induction region_ids as [|region_id region_ids IH]; intros cc; cbn [drop_regions].
  - exists []. by rewrite app_nil_r, set_calls_id.
  - destruct (IH (DropRegion W region_id cc).2) as (drops & -> & Hdrops).
    exists (CallDropRegion region_id (DropRegion_outcome W (calls_ cc) region_id) :: drops).
    split; [by unfold DropRegion, add_call; simpl; rewrite <- app_assoc|].
    constructor; eauto.
Qed.

End Drops.

(** X10.  The answer of [DropTable] depends on the catalog only: it is
    EILLEGAL_PARAMTETERS when the schema id is not in the schema map,
    ETABLE_NOT_FOUND when the schema is known and the table id is not in
    the table map (nothing changes in either case), and OK otherwise -
    whether or not the table belongs to that schema and whatever the region
    service answers.  A successful [DropTable] asks for the drop of every
    partition of the table, in order, then schedules the deletion of the
    auto-increment when the definition has an auto-increment column, and
    erases from the name index the key made of the passed schema id and the
    name of the table, and nothing else. *)
Theorem DropTable_status_and_calls
    (W : Collaborators) (schema_id table_id : N)
    (cc : CoordinatorControl) (mi : MetaIncrement) :
  let run := DropTable W schema_id table_id cc mi in
  (schema_map_ cc !! schema_id = None → run = (EILLEGAL_PARAMTETERS, cc, mi)) ∧
  (is_Some (schema_map_ cc !! schema_id) → table_map_ cc !! table_id = None →
     run = (ETABLE_NOT_FOUND, cc, mi)) ∧
  (∀ table_internal,
     is_Some (schema_map_ cc !! schema_id) →
     table_map_ cc !! table_id = Some table_internal →
     run.1.1 = OK ∧
     (∃ drops,
        calls_ run.1.2 = calls_ cc ++ drops ++
          (if (CheckAutoIncrementInTableDefinition W
                 (table_internal_definition table_internal)).2
           then [CallAsyncSendDeleteAutoIncrement table_id] else []) ∧
        Forall2 (λ c region_id, ∃ ret, c = CallDropRegion region_id ret)
          drops (table_partitions table_internal)) ∧
     table_name_map_safe_temp_ run.1.2 =
       delete (name_key schema_id
                 (table_name (table_internal_definition table_internal)))
         (table_name_map_safe_temp_ cc)).
Proof.
  intros run. subst run. unfold DropTable, ValidateSchema, SafeMap_Exists.
  rewrite N_ltb_0. split; [|split].
  - intros Hschema. rewrite Hschema.
    rewrite bool_decide_eq_false_2 by (by intros [? ?]). done.
  - intros Hschema Htable. by rewrite (bool_decide_eq_true_2 _ Hschema), Htable.
  - intros table_internal Hschema Htable.
    rewrite (bool_decide_eq_true_2 _ Hschema), Htable. simpl.
    destruct (drop_regions_calls W (table_partitions table_internal) cc)
      as (drops & -> & Hdrops).
    unfold GetNextId, AsyncSendDeleteAutoIncrementInternal.
    destruct (CheckAutoIncrementInTableDefinition W
                (table_internal_definition table_internal)) as [ret []]; simpl.
    + split; [done|]. split; [|done]. exists drops. by rewrite <- app_assoc.
    + split; [done|]. split; [|done]. exists drops. by rewrite app_nil_r.
Qed.

(** X11.  The answer of [DropIndex] depends on the catalog only: it is
    EILLEGAL_PARAMTETERS when the schema id is not in the schema map,
    EINDEX_NOT_FOUND when the schema is known and the index id is not in
    the index map (nothing changes in either case), and OK otherwise -
    whether or not the index belongs to that schema and whatever the region
    service answers.  A successful [DropIndex] asks for the drop of every
    partition of the index, in order, then schedules the deletion of the
    auto-increment when the definition asks for auto-increment, and erases
    from the name index the key made of the passed schema id and the name of
    the index, and nothing else. *)
Theorem DropIndex_status_and_calls
    (W : Collaborators) (schema_id index_id : N)
    (cc : CoordinatorControl) (mi : MetaIncrement) :
  let run := DropIndex W schema_id index_id cc mi in
  (schema_map_ cc !! schema_id = None → run = (EILLEGAL_PARAMTETERS, cc, mi)) ∧
  (is_Some (schema_map_ cc !! schema_id) → index_map_ cc !! index_id = None →
     run = (EINDEX_NOT_FOUND, cc, mi)) ∧
  (∀ index_internal,
     is_Some (schema_map_ cc !! schema_id) →
     index_map_ cc !! index_id = Some index_internal →
     run.1.1 = OK ∧
     (∃ drops,
        calls_ run.1.2 = calls_ cc ++ drops ++
          (if with_auto_incrment (index_internal_definition index_internal)
           then [CallAsyncSendDeleteAutoIncrement index_id] else []) ∧
        Forall2 (λ c region_id, ∃ ret, c = CallDropRegion region_id ret)
          drops (index_partitions index_internal)) ∧
     index_name_map_safe_temp_ run.1.2 =
       delete (name_key schema_id
                 (index_name (index_internal_definition index_internal)))
         (index_name_map_safe_temp_ cc)).
Proof.
  intros run. subst run. unfold DropIndex, ValidateSchema, SafeMap_Exists.
  rewrite N_ltb_0. split; [|split].
  - intros Hschema. rewrite Hschema.
    rewrite bool_decide_eq_false_2 by (by intros [? ?]). done.
  - intros Hschema Hindex. by rewrite (bool_decide_eq_true_2 _ Hschema), Hindex.
  - intros index_internal Hschema Hindex.
    rewrite (bool_decide_eq_true_2 _ Hschema), Hindex. simpl.
    destruct (drop_regions_calls W (index_partitions index_internal) cc)
      as (drops & -> & Hdrops).
    unfold GetNextId, AsyncSendDeleteAutoIncrementInternal.
    destruct (with_auto_incrment (index_internal_definition index_internal)); simpl.
    + split; [done|]. split; [|done]. exists drops. by rewrite <- app_assoc.
    + split; [done|]. split; [|done]. exists drops. by rewrite app_nil_r.
Qed.

(** ** Listing and looking up tables and indexes *)

Lemma fold_left_present {A B} (m : gmap N A) (view : N → A → B) ids : ∀ out,
  fold_left (λ out id, match m !! id with
                       | None => out
                       | Some x => out ++ [view id x]
                       end) ids out
  = out ++ omap (λ id, view id <$> m !! id) ids.
Proof.
  induction ids as [|id ids IH]; intros out; simpl; [by rewrite app_nil_r|].
  rewrite IH. destruct (m !! id); simpl; [by rewrite <- app_assoc | done].
Qed.

Lemma omap_present_length {A B} (m : gmap N A) (view : N → A → B) ids :
  length (omap (λ id, view id <$> m !! id) ids)
    = length (filter (λ id, is_Some (m !! id)) ids).
Proof.
  induction ids as [|id ids IH]; [done|].
  change (omap (λ id, view id <$> m !! id) (id :: ids))
    with (match view id <$> m !! id with
          | Some y => y :: omap (λ id, view id <$> m !! id) ids
          | None => omap (λ id, view id <$> m !! id) ids
          end).
  destruct (m !! id) eqn:Hget; simpl.
  - rewrite filter_cons_True by (by rewrite Hget). simpl. by rewrite IH.
  - rewrite filter_cons_False by (rewrite Hget; by intros [? ?]). done.
Qed.

Lemma GetTable_known schema_id table_id table_internal out cc :
  table_id ≠ 0%N →
  is_Some (schema_map_ cc !! schema_id) →
  table_map_ cc !! table_id = Some table_internal →
  GetTable schema_id table_id out cc = (OK, table_view schema_id table_id table_internal).
Proof.
  intros Hid Hschema Hget. unfold GetTable, ValidateSchema, SafeMap_Exists.
  rewrite N_ltb_0. destruct (N.leb_spec table_id 0) as [Hle|_]; [lia|].
  by rewrite (bool_decide_eq_true_2 _ Hschema), Hget.
Qed.

Lemma GetIndex_known schema_id index_id index_internal out cc :
  index_id ≠ 0%N →
  is_Some (schema_map_ cc !! schema_id) →
  index_map_ cc !! index_id = Some index_internal →
  GetIndex schema_id index_id out cc = (OK, index_view schema_id index_id index_internal).
Proof.
  intros Hid Hschema Hget. unfold GetIndex, ValidateSchema, SafeMap_Exists.
  rewrite N_ltb_0. destruct (N.leb_spec index_id 0) as [Hle|_]; [lia|].
  by rewrite (bool_decide_eq_true_2 _ Hschema), Hget.
Qed.

(** X12.  For a known schema, [GetTables] with an empty output returns, in
    the order of the table ids of the schema, one entry for each of these
    ids that is in the table map, with the passed schema id as parent and
    the definition of the table map; an id that is not in the table map is
    left out without an error.  [GetTablesCount] counts all the table ids
    of the schema, so the listing has at most that many entries, and
    exactly that many when every id is in the table map.  Each entry with an
    id other than 0 is what [GetTable] returns for that id. *)
Theorem GetTables_lists_the_known_tables
    (schema_id : N) (cc : CoordinatorControl) (schema_internal : SchemaInternal) :
  schema_map_ cc !! schema_id = Some schema_internal →
  let listing :=
    omap (λ table_id, table_view schema_id table_id <$> table_map_ cc !! table_id)
      (table_ids schema_internal) in
  GetTables schema_id [] cc = (OK, listing) ∧
  (∀ tables_count,
     GetTablesCount schema_id tables_count cc
       = (OK, N.of_nat (length (table_ids schema_internal)))) ∧
  length listing
    = length (filter (λ table_id, is_Some (table_map_ cc !! table_id))
                (table_ids schema_internal)) ∧
  (length listing ≤ length (table_ids schema_internal))%nat ∧
  (∀ entry out,
     entry ∈ listing → entity_id (table_with_id_id entry) ≠ 0%N →
     GetTable schema_id (entity_id (table_with_id_id entry)) out cc = (OK, entry)).
Proof.
  intros Hschema listing. subst listing.
  split; [|split; [|split; [|split]]].
  - unfold GetTables. rewrite N_ltb_0, Hschema. simpl.
    by rewrite (fold_left_present (table_map_ cc) (table_view schema_id)).
  - intros c. unfold GetTablesCount. by rewrite N_ltb_0, Hschema.
  - apply omap_present_length.
  - rewrite omap_present_length. apply length_filter.
  - intros entry out Hin Hid. apply list_elem_of_omap in Hin as (table_id & _ & Hview).
    destruct (table_map_ cc !! table_id) as [table_internal|] eqn:Hget;
      simpl in Hview; [|done].
    injection Hview as <-. simpl in *. by apply GetTable_known.
Qed.

(** X12 (witness).  In the catalog with "orders", the schema "sales" lists
    the one table 1002: the listing has one entry, the count is 1. *)
Lemma GetTables_orders_catalog :
  GetTables 1001 [] orders_catalog = (OK, [table_view 1001 1002 orders_table]) ∧
  GetTablesCount 1001 0 orders_catalog = (OK, 1%N).
Proof.
  destruct (GetTables_lists_the_known_tables 1001 orders_catalog (sales_schema [1002%N] []))
    as (Hlist & Hcount & _).
  - vm_compute. reflexivity.
  - split; [exact Hlist | exact (Hcount 0%N)].
Defined.

(** X13.  For a known schema, [GetIndexs] with an empty output returns, in
    the order of the index ids of the schema, one entry for each of these
    ids that is in the index map, with the passed schema id as parent and
    the definition of the index map; an id that is not in the index map is
    left out without an error.  [GetIndexsCount] counts all the index ids
    of the schema, so the listing has at most that many entries.  Each
    entry with an id other than 0 is what [GetIndex] returns for that
    id. *)
Theorem GetIndexs_lists_the_known_indexes
    (schema_id : N) (cc : CoordinatorControl) (schema_internal : SchemaInternal) :
  schema_map_ cc !! schema_id = Some schema_internal →
  let listing :=
    omap (λ index_id, index_view schema_id index_id <$> index_map_ cc !! index_id)
      (index_ids schema_internal) in
  GetIndexs schema_id [] cc = (OK, listing) ∧
  (∀ indexs_count,
     GetIndexsCount schema_id indexs_count cc
       = (OK, N.of_nat (length (index_ids schema_internal)))) ∧
  length listing
    = length (filter (λ index_id, is_Some (index_map_ cc !! index_id))
                (index_ids schema_internal)) ∧
  (length listing ≤ length (index_ids schema_internal))%nat ∧
  (∀ entry out,
     entry ∈ listing → entity_id (index_with_id_id entry) ≠ 0%N →
     GetIndex schema_id (entity_id (index_with_id_id entry)) out cc = (OK, entry)).
Proof.
  intros Hschema listing. subst listing.
  split; [|split; [|split; [|split]]].
  - unfold GetIndexs. rewrite N_ltb_0, Hschema. simpl.
    by rewrite (fold_left_present (index_map_ cc) (index_view schema_id)).
  - intros c. unfold GetIndexsCount. by rewrite N_ltb_0, Hschema.
  - apply omap_present_length.
  - rewrite omap_present_length. apply length_filter.
  - intros entry out Hin Hid. apply list_elem_of_omap in Hin as (index_id & _ & Hview).
    destruct (index_map_ cc !! index_id) as [index_internal|] eqn:Hget;
      simpl in Hview; [|done].
    injection Hview as <-. simpl in *. by apply GetIndex_known.
Qed.

(** X13 (witness).  In the catalog where "sales" holds the index "by_vec",
    the listing has the one entry of the index 1003 and the count is 1. *)
Lemma GetIndexs_sales_with_index_catalog :
  GetIndexs 1001 [] sales_with_index_catalog
    = (OK, [index_view 1001 1003 by_vec_index]) ∧
  GetIndexsCount 1001 0 sales_with_index_catalog = (OK, 1%N).
Proof.
  destruct (GetIndexs_lists_the_known_indexes 1001 sales_with_index_catalog
              (sales_schema [] [1003%N]))
    as (Hlist & Hcount & _).
  - vm_compute. reflexivity.
  - split; [exact Hlist | exact (Hcount 0%N)].
Defined.

(** X14.  [GetTableByName] and [GetIndexByName] go through the name index:
    the lookup succeeds exactly when the name is not empty, the schema is
    known and the name index maps the key of the schema id and the name to
    an id other than 0 that is in the table (index) map; the reply is the
    entry stored under that id, with the passed schema id as parent.  On
    every error the output is as it was, and a name that has no key in the
    name index gives ETABLE_NOT_FOUND (EINDEX_NOT_FOUND). *)
Theorem lookup_by_name_goes_through_the_name_index
    (schema_id : N) (name : string) (cc : CoordinatorControl) :
  (∀ out reply,
     GetTableByName schema_id name out cc = (OK, reply) ↔
     name ≠ "" ∧ is_Some (schema_map_ cc !! schema_id) ∧
     ∃ table_id table_internal,
       table_name_map_safe_temp_ cc !! name_key schema_id name = Some table_id ∧
       table_id ≠ 0%N ∧
       table_map_ cc !! table_id = Some table_internal ∧
       reply = table_view schema_id table_id table_internal) ∧
  (∀ out, (GetTableByName schema_id name out cc).1 ≠ OK →
          (GetTableByName schema_id name out cc).2 = out) ∧
  (∀ out, name ≠ "" → is_Some (schema_map_ cc !! schema_id) →
          table_name_map_safe_temp_ cc !! name_key schema_id name = None →
          GetTableByName schema_id name out cc = (ETABLE_NOT_FOUND, out)) ∧
  (∀ out reply,
     GetIndexByName schema_id name out cc = (OK, reply) ↔
     name ≠ "" ∧ is_Some (schema_map_ cc !! schema_id) ∧
     ∃ index_id index_internal,
       index_name_map_safe_temp_ cc !! name_key schema_id name = Some index_id ∧
       index_id ≠ 0%N ∧
       index_map_ cc !! index_id = Some index_internal ∧
       reply = index_view schema_id index_id index_internal) ∧
  (∀ out, (GetIndexByName schema_id name out cc).1 ≠ OK →
          (GetIndexByName schema_id name out cc).2 = out) ∧
  (∀ out, name ≠ "" → is_Some (schema_map_ cc !! schema_id) →
          index_name_map_safe_temp_ cc !! name_key schema_id name = None →
          GetIndexByName schema_id name out cc = (EINDEX_NOT_FOUND, out)).
Proof.
  split; [|split; [|split; [|split; [|split]]]].
  - intros out reply.
    unfold GetTableByName, GetTable, ValidateSchema, SafeMap_Exists, SafeMap_Get.
    rewrite !N_ltb_0.
    destruct (bool_decide_reflect (name = "")) as [->|Hname];
      [split; [done | by intros (? & _)]|].
    destruct (bool_decide_reflect (is_Some (schema_map_ cc !! schema_id)))
      as [Hschema|Hschema]; simpl; [|split; [done | by intros (_ & ? & _)]].
    destruct (table_name_map_safe_temp_ cc !! name_key schema_id name)
      as [table_id|] eqn:Hkey; simpl;
      [|split; [done | by intros (_ & _ & ? & ? & ? & _)]].
    destruct (N.leb_spec table_id 0) as [Hle|Hlt].
    { split; [done|]. intros (_ & _ & ? & ? & [= <-] & ? & _). lia. }
    destruct (table_map_ cc !! table_id) as [table_internal|] eqn:Hget.
    + split.
      * intros [= <-]. repeat split; try done. exists table_id, table_internal.
        repeat split; try done. lia.
      * intros (_ & _ & ? & ? & [= <-] & _ & Hget' & ->). by simplify_eq.
    + split; [done|]. intros (_ & _ & ? & ? & [= <-] & _ & Hget' & _). congruence.
  - intros out. unfold GetTableByName, GetTable. repeat case_match; simpl; try done.
    all: unfold SafeMap_Get in *; repeat case_match; by simplify_eq.
  - intros out Hname Hschema Hkey.
    unfold GetTableByName, ValidateSchema, SafeMap_Exists, SafeMap_Get.
    rewrite N_ltb_0, (bool_decide_eq_false_2 _ Hname), (bool_decide_eq_true_2 _ Hschema).
    by rewrite Hkey.
  - intros out reply.
    unfold GetIndexByName, GetIndex, ValidateSchema, SafeMap_Exists, SafeMap_Get.
    rewrite !N_ltb_0.
    destruct (bool_decide_reflect (name = "")) as [->|Hname];
      [split; [done | by intros (? & _)]|].
    destruct (bool_decide_reflect (is_Some (schema_map_ cc !! schema_id)))
      as [Hschema|Hschema]; simpl; [|split; [done | by intros (_ & ? & _)]].
    destruct (index_name_map_safe_temp_ cc !! name_key schema_id name)
      as [index_id|] eqn:Hkey; simpl;
      [|split; [done | by intros (_ & _ & ? & ? & ? & _)]].
    destruct (N.leb_spec index_id 0) as [Hle|Hlt].
    { split; [done|]. intros (_ & _ & ? & ? & [= <-] & ? & _). lia. }
    destruct (index_map_ cc !! index_id) as [index_internal|] eqn:Hget.
    + split.
      * intros [= <-]. repeat split; try done. exists index_id, index_internal.
        repeat split; try done. lia.
      * intros (_ & _ & ? & ? & [= <-] & _ & Hget' & ->). by simplify_eq.
    + split; [done|]. intros (_ & _ & ? & ? & [= <-] & _ & Hget' & _). congruence.
  - intros out. unfold GetIndexByName, GetIndex. repeat case_match; simpl; try done.
    all: unfold SafeMap_Get in *; repeat case_match; by simplify_eq.
  - intros out Hname Hschema Hkey.
    unfold GetIndexByName, ValidateSchema, SafeMap_Exists, SafeMap_Get.
    rewrite N_ltb_0, (bool_decide_eq_false_2 _ Hname), (bool_decide_eq_true_2 _ Hschema).
    by rewrite Hkey.
Qed.

(** ** Creations wait for the meta-increment *)

(** X15.  A successful creation reserves the name and records the entity in
    the meta-increment only; until the maps are updated from the
    meta-increment the new entity cannot be read.  After a successful
    [CreateSchema] whose new id is not yet in the schema map,
    [GetSchemaByName] of the new name answers ESCHEMA_NOT_FOUND.  After a
    successful [CreateTable] ([CreateIndex]) whose new id is not 0 and not
    yet in the table (index) map, [GetTable] ([GetIndex]) of the new id
    answers ETABLE_NOT_FOUND (EINDEX_NOT_FOUND), and so does the lookup by
    the new name - except for a table created with an empty name, which
    [CreateTable] accepts and [GetTableByName] refuses with
    EILLEGAL_PARAMTETERS. *)
Theorem creations_cannot_be_read_before_they_are_applied
    (W : Collaborators) (cc : CoordinatorControl) (mi : MetaIncrement) :
  (∀ parent_schema_id schema_name new_schema_id id' cc' mi' out,
     CreateSchema W parent_schema_id schema_name new_schema_id cc mi
       = (OK, id', cc', mi') →
     schema_map_ cc !! id' = None →
     GetSchemaByName W schema_name out cc' = (ESCHEMA_NOT_FOUND, out)) ∧
  (∀ schema_id table_definition new_table_id id' cc' mi' out,
     CreateTable W schema_id table_definition new_table_id cc mi
       = (OK, id', cc', mi') →
     id' ≠ 0%N → table_map_ cc !! id' = None →
     GetTable schema_id id' out cc' = (ETABLE_NOT_FOUND, out) ∧
     GetTableByName schema_id (table_name table_definition) out cc'
       = (if bool_decide (table_name table_definition = "")
          then EILLEGAL_PARAMTETERS else ETABLE_NOT_FOUND, out)) ∧
  (∀ schema_id index_definition new_index_id id' cc' mi' out,
     CreateIndex W schema_id index_definition new_index_id cc mi
       = (OK, id', cc', mi') →
     id' ≠ 0%N → index_map_ cc !! id' = None →
     GetIndex schema_id id' out cc' = (EINDEX_NOT_FOUND, out) ∧
     GetIndexByName schema_id (index_name index_definition) out cc'
       = (EINDEX_NOT_FOUND, out)).
Proof.
  split; [|split].
  - intros parent_schema_id schema_name new_schema_id id' cc' mi' out Hrun Hnew.
    destruct (CreateSchema_appends W _ _ _ _ _ _ _ _ _ Hrun) as ((Hmap & _) & _).
    apply CreateSchema_ok in Hrun as (v & _ & Hname & _ & _ & _ & _ & _ & Hnames).
    unfold GetSchemaByName, GetSchema, SafeMap_Get.
    rewrite (bool_decide_eq_false_2 _ Hname), Hnames, lookup_insert_eq. simpl.
    by rewrite N_ltb_0, Hmap, Hnew.
  - intros schema_id table_definition new_table_id id' cc' mi' out Hrun Hid Hnew.
    destruct (CreateTable_ok_checks W _ _ _ _ _ _ _ _ Hrun) as (_ & Hschema & _).
    destruct (CreateTable_appends W _ _ _ _ _ _ _ _ _ Hrun)
      as ((Hmap & Htables & _) & _).
    apply CreateTable_ok in Hrun
      as (? & ? & ? & ? & _ & _ & _ & _ & _ & _ & _ & _ & _ & _ & _ & _ & _ & Hnames & _).
    assert (Hget : GetTable schema_id id' out cc' = (ETABLE_NOT_FOUND, out)).
    { unfold GetTable, ValidateSchema, SafeMap_Exists. rewrite N_ltb_0, Hmap, Htables.
      destruct (N.leb_spec id' 0); [lia|].
      by rewrite (bool_decide_eq_true_2 _ Hschema), Hnew. }
    split; [done|].
    unfold GetTableByName, ValidateSchema, SafeMap_Exists, SafeMap_Get.
    rewrite N_ltb_0. destruct (bool_decide (table_name table_definition = "")); [done|].
    rewrite Hmap, (bool_decide_eq_true_2 _ Hschema), Hnames, lookup_insert_eq. simpl.
    done.
  - intros schema_id index_definition new_index_id id' cc' mi' out Hrun Hid Hnew.
    destruct (CreateIndex_ok_checks W _ _ _ _ _ _ _ _ Hrun) as (_ & Hschema & Hvalid).
    destruct (CreateIndex_appends W _ _ _ _ _ _ _ _ _ Hrun)
      as ((Hmap & _ & Hindexes & _) & _).
    apply CreateIndex_ok in Hrun
      as (? & ? & ? & ? & _ & _ & _ & _ & _ & _ & _ & _ & _ & _ & _ & _ & _ & Hnames & _).
    assert (Hget : GetIndex schema_id id' out cc' = (EINDEX_NOT_FOUND, out)).
    { unfold GetIndex, ValidateSchema, SafeMap_Exists. rewrite N_ltb_0, Hmap, Hindexes.
      destruct (N.leb_spec id' 0); [lia|].
      by rewrite (bool_decide_eq_true_2 _ Hschema), Hnew. }
    split; [done|].
    apply ValidateIndexDefinition_OK_iff in Hvalid as [Hname _].
    unfold GetIndexByName, ValidateSchema, SafeMap_Exists, SafeMap_Get.
    rewrite N_ltb_0, (bool_decide_eq_false_2 _ Hname).
    rewrite Hmap, (bool_decide_eq_true_2 _ Hschema), Hnames, lookup_insert_eq. simpl.
    done.
Qed.

(** X15 (witness).  After "orders" has been created in "sales", neither its
    id nor its name can be read: the table map does not hold it yet. *)
Lemma CreateTable_orders_then_GetTableByName :
  let run := CreateTable (scenario_collaborators None) 1001 (orders 3 two_ranges) 0
               sales_catalog MetaIncrement_empty in
  run.1.1.1 = OK ∧
  GetTable 1001 run.1.1.2 (table_view 0 0 orders_table) run.1.2
    = (ETABLE_NOT_FOUND, table_view 0 0 orders_table) ∧
  GetTableByName 1001 "orders" (table_view 0 0 orders_table) run.1.2
    = (ETABLE_NOT_FOUND, table_view 0 0 orders_table).
Proof.
  intros run. split; [vm_compute; reflexivity|].
  apply (proj1 (proj2 (creations_cannot_be_read_before_they_are_applied
                         (scenario_collaborators None) sales_catalog MetaIncrement_empty))
           1001%N (orders 3 two_ranges) 0%N run.1.1.2 run.1.2 run.2).
  - vm_compute. reflexivity.
  - vm_compute. discriminate.
  - vm_compute. reflexivity.
Defined.

(** ** Listing schemas *)

Lemma fold_left_snoc_map {A B} (f : A → B) l : ∀ out,
  fold_left (λ out x, out ++ [f x]) l out = out ++ (f <$> l).
Proof.
  induction l as [|x l IH]; intros out; simpl; [by rewrite app_nil_r|].
  by rewrite IH, <- app_assoc.
Qed.

(** X16.  When the root schema has the id 0 and every schema is stored
    under its own id, [GetSchemas] of the root with an empty output returns
    one entry per schema of the schema map, and its entries are exactly the
    replies that [GetSchema] gives, id by id, to an output without table
    ids: the id of the schema with the root as parent, its name, and its
    table ids in order, each with the schema as parent. *)
Theorem GetSchemas_agrees_with_GetSchema
    (W : Collaborators) (cc : CoordinatorControl) :
  ROOT_SCHEMA W = 0%N →
  schema_ids_consistent cc →
  ∃ schemas,
    GetSchemas 0 [] cc = (OK, schemas) ∧
    length schemas = size (schema_map_ cc) ∧
    ∀ schema,
      schema ∈ schemas ↔
      ∃ schema_id out,
        schema_table_ids out = [] ∧ GetSchema W schema_id out cc = (OK, schema).
Proof.
  intros Hroot Hids. unfold GetSchemas. simpl.
  rewrite fold_left_snoc_map. simpl. eexists. split; [reflexivity|].
  split; [by rewrite length_fmap, length_map_to_list|].
  intros schema. rewrite list_elem_of_fmap. split.
  - intros ([sid schema_internal] & -> & Hin). apply elem_of_map_to_list in Hin.
    exists sid, {| schema_id := {| entity_type := ENTITY_TYPE_SCHEMA;
                                         parent_entity_id := 0; entity_id := 0 |};
                         schema_name := ""; schema_table_ids := [] |}.
    split; [done|]. unfold GetSchema. rewrite N_ltb_0, Hin. simpl.
    by rewrite Hroot, (Hids _ _ Hin).
  - intros (sid & out & Hout & Hrun). unfold GetSchema in Hrun.
    rewrite N_ltb_0 in Hrun.
    destruct (schema_map_ cc !! sid) as [schema_internal|] eqn:Hget; [|done].
    injection Hrun as <-. exists (sid, schema_internal).
    split; [|by apply elem_of_map_to_list].
    unfold schema_view. simpl. by rewrite Hroot, (Hids _ _ Hget), Hout.
Qed.

(** X16 (witness).  The catalog with "orders": the root has the id 0 and
    "sales" is stored under its id 1001. *)
Lemma GetSchemas_orders_catalog :
  ∃ schemas,
    GetSchemas 0 [] orders_catalog = (OK, schemas) ∧
    length schemas = size (schema_map_ orders_catalog) ∧
    ∀ schema,
      schema ∈ schemas ↔
      ∃ schema_id out,
        schema_table_ids out = [] ∧
        GetSchema (scenario_collaborators None) schema_id out orders_catalog
          = (OK, schema).
Proof.
  apply (GetSchemas_agrees_with_GetSchema (scenario_collaborators None) orders_catalog).
  - reflexivity.
  - intros schema_id schema_internal Hget. unfold orders_catalog in Hget. simpl in Hget.
    apply lookup_singleton_Some in Hget as [<- <-]. reflexivity.
Defined.

(** ** The sweep of the metrics caches *)

Lemma calculate_metrics_regions cc cc' partitions :
  region_map_ cc' = region_map_ cc →
  calculate_metrics cc' partitions = calculate_metrics cc partitions.
Proof.
  intros Hregions. unfold calculate_metrics.
  assert (Hfold : ∀ acc, fold_left (add_region_metrics cc') partitions acc
                         = fold_left (add_region_metrics cc) partitions acc).
  { induction partitions as [|p ps IH]; intros acc; simpl; [done|].
    rewrite IH. f_equal. unfold add_region_metrics. by rewrite Hregions. }
  by rewrite Hfold.
Qed.

Lemma sweep_table_metrics_fold cc l :
  NoDup l.*1 →
  ∀ cc0, table_map_ cc0 = table_map_ cc → region_map_ cc0 = region_map_ cc →
  ∃ m',
    fold_left sweep_table_metrics l cc0 = set_table_metrics_map_ (λ _, m') cc0 ∧
    ∀ k, m' !! k =
         match table_metrics_map_ cc0 !! k, (list_to_map l : gmap N MetricsInternal) !! k with
         | Some _, Some cached =>
             Some (refreshed_metrics cc (table_partitions <$> table_map_ cc !! k) cached)
         | old, _ => old
         end.
Proof.
  induction l as [|[k0 c0] l IH]; intros Hnodup cc0 Htables Hregions.
  - exists (table_metrics_map_ cc0). split; [by destruct cc0|].
    intros k. simpl. rewrite lookup_empty. by destruct (table_metrics_map_ cc0 !! k).
  - rewrite fmap_cons in Hnodup. apply NoDup_cons in Hnodup as [Hk0 Hnodup].
    cbn [fold_left list_to_map foldr]. simpl in Hk0.
    destruct (IH Hnodup (sweep_table_metrics cc0 (k0, c0))) as (m' & Hrun & Hm');
      [| |rewrite Hrun; clear Hrun].
    { unfold sweep_table_metrics. by repeat case_match. }
    { unfold sweep_table_metrics. by repeat case_match. }
    exists m'. split.
    { unfold sweep_table_metrics. by repeat case_match. }
    intros k. rewrite Hm'. clear Hm' IH.
    unfold sweep_table_metrics, CalculateTableMetricsSingle, SafeMap_PutIfExists.
    rewrite Htables.
    destruct (decide (k = k0)) as [->|Hne].
    + rewrite lookup_insert_eq.
      rewrite (not_elem_of_list_to_map_1 l k0) by done.
      destruct (table_map_ cc !! k0) as [table_internal|] eqn:Htable; simpl;
        rewrite ?N_ltb_0; simpl;
        destruct (table_metrics_map_ cc0 !! k0) eqn:Hold; simpl;
        rewrite ?lookup_insert_eq, ?Hold; try done.
      unfold refreshed_metrics. simpl. by rewrite (calculate_metrics_regions cc cc0).
    + rewrite lookup_insert_ne by done.
      destruct (table_map_ cc !! k0) as [table_internal|] eqn:Htable; simpl;
        rewrite ?N_ltb_0; simpl;
        destruct (table_metrics_map_ cc0 !! k0) eqn:Hold; simpl;
        rewrite ?lookup_insert_ne by done; done.
Qed.

Lemma sweep_index_metrics_fold cc l :
  NoDup l.*1 →
  ∀ cc0, index_map_ cc0 = index_map_ cc → region_map_ cc0 = region_map_ cc →
  ∃ m',
    fold_left sweep_index_metrics l cc0 = set_index_metrics_map_ (λ _, m') cc0 ∧
    ∀ k, m' !! k =
         match index_metrics_map_ cc0 !! k, (list_to_map l : gmap N MetricsInternal) !! k with
         | Some _, Some cached =>
             Some (refreshed_metrics cc (index_partitions <$> index_map_ cc !! k) cached)
         | old, _ => old
         end.
Proof.
  induction l as [|[k0 c0] l IH]; intros Hnodup cc0 Hindexes Hregions.
  - exists (index_metrics_map_ cc0). split; [by destruct cc0|].
    intros k. simpl. rewrite lookup_empty. by destruct (index_metrics_map_ cc0 !! k).
  - rewrite fmap_cons in Hnodup. apply NoDup_cons in Hnodup as [Hk0 Hnodup].
    cbn [fold_left list_to_map foldr]. simpl in Hk0.
    destruct (IH Hnodup (sweep_index_metrics cc0 (k0, c0))) as (m' & Hrun & Hm');
      [| |rewrite Hrun; clear Hrun].
    { unfold sweep_index_metrics. by repeat case_match. }
    { unfold sweep_index_metrics. by repeat case_match. }
    exists m'. split.
    { unfold sweep_index_metrics. by repeat case_match. }
    intros k. rewrite Hm'. clear Hm' IH.
    unfold sweep_index_metrics, CalculateIndexMetricsSingle, SafeMap_PutIfExists.
    rewrite Hindexes.
    destruct (decide (k = k0)) as [->|Hne].
    + rewrite lookup_insert_eq.
      rewrite (not_elem_of_list_to_map_1 l k0) by done.
      destruct (index_map_ cc !! k0) as [index_internal|] eqn:Hindex; simpl;
        rewrite ?N_ltb_0; simpl;
        destruct (index_metrics_map_ cc0 !! k0) eqn:Hold; simpl;
        rewrite ?lookup_insert_eq, ?Hold; try done.
      unfold refreshed_metrics. simpl. by rewrite (calculate_metrics_regions cc cc0).
    + rewrite lookup_insert_ne by done.
      destruct (index_map_ cc !! k0) as [index_internal|] eqn:Hindex; simpl;
        rewrite ?N_ltb_0; simpl;
        destruct (index_metrics_map_ cc0 !! k0) eqn:Hold; simpl;
        rewrite ?lookup_insert_ne by done; done.
Qed.

Lemma CalculateTableMetrics_refreshed cc :
  ∃ m',
    CalculateTableMetrics cc = set_table_metrics_map_ (λ _, m') cc ∧
    ∀ k, m' !! k =
         refreshed_metrics cc (table_partitions <$> table_map_ cc !! k)
           <$> table_metrics_map_ cc !! k.
Proof.
  destruct (sweep_table_metrics_fold cc (map_to_list (table_metrics_map_ cc))
              (NoDup_fst_map_to_list _) cc eq_refl eq_refl) as (m' & Hrun & Hm').
  exists m'. split; [done|]. intros k. rewrite Hm', list_to_map_to_list.
  by destruct (table_metrics_map_ cc !! k).
Qed.

Lemma CalculateIndexMetrics_refreshed cc :
  ∃ m',
    CalculateIndexMetrics cc = set_index_metrics_map_ (λ _, m') cc ∧
    ∀ k, m' !! k =
         refreshed_metrics cc (index_partitions <$> index_map_ cc !! k)
           <$> index_metrics_map_ cc !! k.
Proof.
  destruct (sweep_index_metrics_fold cc (map_to_list (index_metrics_map_ cc))
              (NoDup_fst_map_to_list _) cc eq_refl eq_refl) as (m' & Hrun & Hm').
  exists m'. split; [done|]. intros k. rewrite Hm', list_to_map_to_list.
  by destruct (index_metrics_map_ cc !! k).
Qed.

Lemma GetIndexMetrics_miss schema_id index_id index_internal index_metrics cc :
  id_entity_id (metrics_with_id_id index_metrics) = 0%N →
  is_Some (schema_map_ cc !! schema_id) →
  index_map_ cc !! index_id = Some index_internal →
  index_metrics_map_ cc !! index_id = None →
  GetIndexMetrics schema_id index_id index_metrics cc =
  (OK,
   {| metrics_with_id_id :=
        Some {| entity_type := ENTITY_TYPE_INDEX;
                parent_entity_id := schema_id; entity_id := index_id |};
      metrics_with_id_metrics :=
        Some (calculate_metrics cc (index_partitions index_internal)) |},
   set_index_metrics_map_
     (insert index_id
        {| metrics_internal_id := index_id;
           metrics_internal_metrics :=
             calculate_metrics cc (index_partitions index_internal) |}) cc).
Proof.
  intros Hid Hschema Hindex Hmiss.
  unfold GetIndexMetrics, SafeMap_Exists, SafeMap_Get, CalculateIndexMetricsSingle.
  rewrite N_ltb_0, Hid, Hindex, Hmiss. simpl.
  by rewrite (bool_decide_eq_true_2 _ Hschema).
Qed.

Lemma GetIndexMetrics_hit schema_id index_id index_metrics cc cached :
  id_entity_id (metrics_with_id_id index_metrics) = 0%N →
  is_Some (schema_map_ cc !! schema_id) →
  is_Some (index_map_ cc !! index_id) →
  index_metrics_map_ cc !! index_id = Some cached →
  GetIndexMetrics schema_id index_id index_metrics cc =
  (OK,
   {| metrics_with_id_id :=
        Some {| entity_type := ENTITY_TYPE_INDEX;
                parent_entity_id := schema_id; entity_id := index_id |};
      metrics_with_id_metrics := Some (metrics_internal_metrics cached) |},
   cc).
Proof.
  intros Hid Hschema Hindex Hhit.
  unfold GetIndexMetrics, SafeMap_Exists, SafeMap_Get.
  rewrite N_ltb_0, Hid, Hhit. simpl.
  by rewrite (bool_decide_eq_true_2 _ Hschema), (bool_decide_eq_true_2 _ Hindex).
Qed.

(** X17.  [CalculateTableMetrics] changes nothing but the table metrics
    cache, and in the cache it recomputes every entry and adds or removes
    none: after the sweep the cache has an entry for a key exactly when it
    had one before; the entry keeps its id, and its metrics are those
    computed from the partitions of the table now stored under the key, or
    the empty metrics when no table is stored under the key. *)
Theorem CalculateTableMetrics_recomputes_every_entry (cc : CoordinatorControl) :
  ∃ cache,
    CalculateTableMetrics cc = set_table_metrics_map_ (λ _, cache) cc ∧
    ∀ table_id,
      cache !! table_id =
      refreshed_metrics cc (table_partitions <$> table_map_ cc !! table_id)
        <$> table_metrics_map_ cc !! table_id.
Proof.
  unfold CalculateTableMetrics.
  destruct (sweep_table_metrics_fold cc (map_to_list (table_metrics_map_ cc))
              (NoDup_fst_map_to_list _) cc eq_refl eq_refl) as (cache & Hrun & Hcache).
  exists cache. split; [exact Hrun|]. intros table_id.
  rewrite Hcache, list_to_map_to_list.
  by destruct (table_metrics_map_ cc !! table_id).
Qed.

(** X18.  [CalculateIndexMetrics] changes nothing but the index metrics
    cache, and in the cache it recomputes every entry and adds or removes
    none: after the sweep the cache has an entry for a key exactly when it
    had one before; the entry keeps its id, and its metrics are those
    computed from the partitions of the index now stored under the key, or
    the empty metrics when no index is stored under the key. *)
Theorem CalculateIndexMetrics_recomputes_every_entry (cc : CoordinatorControl) :
  ∃ cache,
    CalculateIndexMetrics cc = set_index_metrics_map_ (λ _, cache) cc ∧
    ∀ index_id,
      cache !! index_id =
      refreshed_metrics cc (index_partitions <$> index_map_ cc !! index_id)
        <$> index_metrics_map_ cc !! index_id.
Proof.
  unfold CalculateIndexMetrics.
  destruct (sweep_index_metrics_fold cc (map_to_list (index_metrics_map_ cc))
              (NoDup_fst_map_to_list _) cc eq_refl eq_refl) as (cache & Hrun & Hcache).
  exists cache. split; [exact Hrun|]. intros index_id.
  rewrite Hcache, list_to_map_to_list.
  by destruct (index_metrics_map_ cc !! index_id).
Qed.

(** X19.  After the sweep the metrics reads are up to date: for a known
    schema and a known table (index), [GetTableMetrics] ([GetIndexMetrics])
    with a fresh output, called on the state left by [CalculateTableMetrics]
    ([CalculateIndexMetrics]), answers OK with the metrics computed from
    the current partitions and regions, whatever the cache held before. *)
Theorem metrics_reads_after_the_sweep_are_fresh
    (schema_id : N) (cc : CoordinatorControl) :
  is_Some (schema_map_ cc !! schema_id) →
  (∀ table_id table_internal table_metrics,
     id_entity_id (metrics_with_id_id table_metrics) = 0%N →
     table_map_ cc !! table_id = Some table_internal →
     (GetTableMetrics schema_id table_id table_metrics (CalculateTableMetrics cc)).1 =
     (OK,
      {| metrics_with_id_id :=
           Some {| entity_type := ENTITY_TYPE_TABLE;
                   parent_entity_id := schema_id; entity_id := table_id |};
         metrics_with_id_metrics :=
           Some (calculate_metrics cc (table_partitions table_internal)) |})) ∧
  (∀ index_id index_internal index_metrics,
     id_entity_id (metrics_with_id_id index_metrics) = 0%N →
     index_map_ cc !! index_id = Some index_internal →
     (GetIndexMetrics schema_id index_id index_metrics (CalculateIndexMetrics cc)).1 =
     (OK,
      {| metrics_with_id_id :=
           Some {| entity_type := ENTITY_TYPE_INDEX;
                   parent_entity_id := schema_id; entity_id := index_id |};
         metrics_with_id_metrics :=
           Some (calculate_metrics cc (index_partitions index_internal)) |})).
Proof.
  intros Hschema. split.
  - intros table_id table_internal m Hid Htable.
    destruct (CalculateTableMetrics_refreshed cc) as (cache & -> & Hcache).
    specialize (Hcache table_id). rewrite Htable in Hcache. simpl in Hcache.
    destruct (table_metrics_map_ cc !! table_id) as [cached|]; simpl in Hcache.
    + by rewrite (GetTableMetrics_hit schema_id table_id table_internal m
                    (set_table_metrics_map_ (λ _, cache) cc) _
                    Hid Hschema Htable Hcache).
    + rewrite (GetTableMetrics_miss schema_id table_id table_internal m
                 (set_table_metrics_map_ (λ _, cache) cc)
                 Hid Hschema Htable Hcache). simpl.
      by rewrite (calculate_metrics_regions cc).
  - intros index_id index_internal m Hid Hindex.
    destruct (CalculateIndexMetrics_refreshed cc) as (cache & -> & Hcache).
    specialize (Hcache index_id). rewrite Hindex in Hcache. simpl in Hcache.
    destruct (index_metrics_map_ cc !! index_id) as [cached|]; simpl in Hcache.
    + by rewrite (GetIndexMetrics_hit schema_id index_id m
                    (set_index_metrics_map_ (λ _, cache) cc) _ Hid Hschema
                    (mk_is_Some _ _ Hindex) Hcache).
    + rewrite (GetIndexMetrics_miss schema_id index_id index_internal m
                 (set_index_metrics_map_ (λ _, cache) cc)
                 Hid Hschema Hindex Hcache). simpl.
      by rewrite (calculate_metrics_regions cc).
Qed.

(** X19 (witness).  The cache of the catalog with "orders" holds 99 rows for
    the table 1002; after the sweep [GetTableMetrics] answers with the
    metrics computed from its two partitions. *)
Lemma GetTableMetrics_orders_after_the_sweep :
  metrics_internal_metrics <$> table_metrics_map_ stale_cache_catalog !! 1002%N
    = Some {| rows_count := 99; metrics_min_key := min_key_seed;
              metrics_max_key := max_key_seed; part_count := 2 |} ∧
  (GetTableMetrics 1001 1002 fresh_metrics (CalculateTableMetrics stale_cache_catalog)).1 =
  (OK,
   {| metrics_with_id_id :=
        Some {| entity_type := ENTITY_TYPE_TABLE;
                parent_entity_id := 1001; entity_id := 1002 |};
      metrics_with_id_metrics :=
        Some (calculate_metrics stale_cache_catalog (table_partitions orders_table)) |}).
Proof.
  split; [vm_compute; reflexivity|].
  apply (proj1 (metrics_reads_after_the_sweep_are_fresh 1001 stale_cache_catalog
                  (mk_is_Some _ _ eq_refl))).
  - reflexivity.
  - vm_compute. reflexivity.
Defined.

(** X20.  A metrics read is answered from the cache, not from the regions:
    once [GetTableMetrics] ([GetIndexMetrics]) has answered OK, a later call
    with a fresh output gives the same answer and changes nothing, in any
    state where the schema and the table (index) are still known and the
    cache entry is the one the first call left - whatever has happened to
    the regions and to the partitions of the table (index) since. *)
Theorem metrics_reads_repeat_the_cached_answer
    (schema_id id : N) (cc cc1 cc2 : CoordinatorControl) (m1 m2 out : MetricsWithId) :
  id_entity_id (metrics_with_id_id m2) = 0%N →
  is_Some (schema_map_ cc2 !! schema_id) →
  (GetTableMetrics schema_id id m1 cc = (OK, out, cc1) →
   is_Some (table_map_ cc2 !! id) →
   table_metrics_map_ cc2 !! id = table_metrics_map_ cc1 !! id →
   GetTableMetrics schema_id id m2 cc2 = (OK, out, cc2)) ∧
  (GetIndexMetrics schema_id id m1 cc = (OK, out, cc1) →
   is_Some (index_map_ cc2 !! id) →
   index_metrics_map_ cc2 !! id = index_metrics_map_ cc1 !! id →
   GetIndexMetrics schema_id id m2 cc2 = (OK, out, cc2)).
Proof.
  intros Hid2 Hschema2. split.
  - intros Hrun [t2 Htable2] Hcache. unfold GetTableMetrics in Hrun.
    rewrite !N_ltb_0 in Hrun. unfold SafeMap_Exists, SafeMap_Get in Hrun.
    destruct (bool_decide (id_entity_id (metrics_with_id_id m1) ≠ 0%N)); [done|].
    destruct (bool_decide (is_Some (schema_map_ cc !! schema_id))); [|done].
    destruct (table_map_ cc !! id) as [table_internal|] eqn:Htable;
      simpl in Hrun; [|done].
    destruct (table_metrics_map_ cc !! id) as [cached|] eqn:Hold; simpl in Hrun.
    + injection Hrun as <- <-. rewrite Hold in Hcache.
      by rewrite (GetTableMetrics_hit schema_id id t2 m2 cc2 cached).
    + unfold CalculateTableMetricsSingle in Hrun. rewrite Htable in Hrun.
      simpl in Hrun. injection Hrun as <- <-.
      simpl in Hcache. rewrite lookup_insert_eq in Hcache.
      by rewrite (GetTableMetrics_hit schema_id id t2 m2 cc2 _ Hid2 Hschema2 Htable2 Hcache).
  - intros Hrun Hindex2 Hcache. unfold GetIndexMetrics in Hrun.
    rewrite !N_ltb_0 in Hrun. unfold SafeMap_Exists, SafeMap_Get in Hrun.
    destruct (bool_decide (id_entity_id (metrics_with_id_id m1) ≠ 0%N)); [done|].
    destruct (bool_decide (is_Some (schema_map_ cc !! schema_id))); [|done].
    destruct (index_map_ cc !! id) as [index_internal|] eqn:Hindex;
      simpl in Hrun; [|done].
    destruct (index_metrics_map_ cc !! id) as [cached|] eqn:Hold; simpl in Hrun.
    + injection Hrun as <- <-. rewrite Hold in Hcache.
      by rewrite (GetIndexMetrics_hit schema_id id m2 cc2 cached).
    + unfold CalculateIndexMetricsSingle in Hrun. rewrite Hindex in Hrun.
      simpl in Hrun. injection Hrun as <- <-.
      simpl in Hcache. rewrite lookup_insert_eq in Hcache.
      by rewrite (GetIndexMetrics_hit schema_id id m2 cc2 _ Hid2 Hschema2 Hindex2 Hcache).
Qed.

(** X20 (witness).  The table with three regions of 10, 20 and 30 rows: the
    first read computes 60 rows; after all regions have gone from the region
    map a second read still answers with the same metrics. *)
Lemma GetTableMetrics_events_after_the_regions_have_gone :
  let first := GetTableMetrics 1001 1004 fresh_metrics events_catalog in
  first.1.1 = OK ∧
  rows_count <$> metrics_with_id_metrics first.1.2 = Some 60%N ∧
  GetTableMetrics 1001 1004 fresh_metrics (without_regions first.2)
    = (OK, first.1.2, without_regions first.2).
Proof.
  intros first. split; [vm_compute; reflexivity|]. split; [vm_compute; reflexivity|].
  apply (proj1 (metrics_reads_repeat_the_cached_answer 1001 1004 events_catalog first.2
                  (without_regions first.2) fresh_metrics fresh_metrics first.1.2
                  eq_refl (mk_is_Some _ _ eq_refl))).
  - vm_compute. reflexivity.
  - exact (mk_is_Some _ _ eq_refl).
  - reflexivity.
Defined.

(** ** The keys of the name indexes *)

Lemma string_app_assoc (a b c : string) : (a +:+ b) +:+ c = a +:+ (b +:+ c).
Proof.
  induction a as [|x a IH]; [done|].
  change (String x ((a +:+ b) +:+ c) = String x (a +:+ (b +:+ c))). by rewrite IH.
Qed.

Lemma pretty_N_go_app x : ∀ s, pretty_N_go x s = pretty_N_go x "" +:+ s.
Proof.
  induction (N.lt_wf_0 x) as [x _ IH]. intros s.
  destruct (decide (x = 0%N)) as [->|Hx]; [by rewrite !pretty_N_go_0|].
  rewrite (pretty_N_go_step x s), (pretty_N_go_step x "") by lia.
  assert (Hlt : (x `div` 10 < x)%N) by (apply N.div_lt; lia).
  rewrite (IH _ Hlt (String _ s)), (IH _ Hlt (String _ "")).
  by rewrite string_app_assoc.
Qed.

Lemma pretty_N_digit digit :
  (digit < 10)%N → pretty digit = String (pretty_N_char digit) "".
Proof.
  intros Hdigit. unfold pretty, pretty_N.
  destruct (decide (digit = 0%N)) as [->|Hne]; [done|].
  rewrite pretty_N_go_step by lia.
  rewrite N.div_small, N.mod_small by done. by rewrite pretty_N_go_0.
Qed.

Lemma pretty_N_snoc schema_id digit :
  (0 < schema_id)%N → (digit < 10)%N →
  pretty (10 * schema_id + digit)%N = pretty schema_id +:+ pretty digit.
Proof.
  intros Hschema Hdigit. rewrite (pretty_N_digit digit Hdigit).
  unfold pretty, pretty_N.
  rewrite !decide_False by lia.
  rewrite pretty_N_go_step by lia.
  replace ((10 * schema_id + digit) `div` 10)%N with schema_id
    by (apply N.div_unique with digit; lia).
  replace ((10 * schema_id + digit) `mod` 10)%N with digit
    by (apply N.mod_unique with schema_id; lia).
  apply pretty_N_go_app.
Qed.

(** X21.  The key of the name index is the decimal schema id followed by
    the name, with nothing between them, so two different pairs can share a
    key: the name that starts with a digit d in the schema s has the key of
    the rest of that name in the schema 10*s+d.  A table name that is in
    the name index for the schema s is therefore taken in the schema
    10*s+d as well: [CreateTable] of the rest of the name in that schema
    is refused with ETABLE_EXISTS although that schema has no table of
    that name. *)
Theorem name_index_keys_collide_across_schemas
    (W : Collaborators) (schema_id digit : N) (table_definition : TableDefinition)
    (new_table_id : N) (cc : CoordinatorControl) (mi : MetaIncrement) (taken : N) :
  (0 < schema_id)%N → (digit < 10)%N →
  table_name_map_safe_temp_ cc
    !! name_key schema_id (pretty digit +:+ table_name table_definition) = Some taken →
  taken ≠ 0%N →
  (10 * schema_id + digit)%N ≠ ROOT_SCHEMA W →
  is_Some (schema_map_ cc !! (10 * schema_id + digit)%N) →
  (CheckAutoIncrementInTableDefinition W table_definition).1 = OK →
  ¬ partition_rejected (table_partition table_definition) →
  name_key schema_id (pretty digit +:+ table_name table_definition)
    = name_key (10 * schema_id + digit) (table_name table_definition) ∧
  CreateTable W (10 * schema_id + digit) table_definition new_table_id cc mi
    = (ETABLE_EXISTS, new_table_id, cc, mi).
Proof.
  intros Hschema Hdigit Htaken Hne Hroot Hknown Hcheck Hpart.
  assert (Hkey : name_key schema_id (pretty digit +:+ table_name table_definition)
                 = name_key (10 * schema_id + digit) (table_name table_definition)).
  { unfold name_key. by rewrite pretty_N_snoc, string_app_assoc. }
  split; [done|].
  apply (CreateTable_taken W _ _ _ _ _ taken); try done. by rewrite <- Hkey.
Qed.

(** X21 (witness).  "sales" has the id 1001 and holds the table "3orders";
    "hr" has the id 10013 and no table: creating "orders" in "hr" is
    refused with ETABLE_EXISTS. *)
Lemma CreateTable_orders_in_hr_refused :
  name_key 1001 (pretty 3%N +:+ table_name (orders 3 one_range))
    = name_key (10 * 1001 + 3) (table_name (orders 3 one_range)) ∧
  CreateTable (scenario_collaborators None) (10 * 1001 + 3) (orders 3 one_range) 0
    sales_and_hr_catalog MetaIncrement_empty
    = (ETABLE_EXISTS, 0%N, sales_and_hr_catalog, MetaIncrement_empty).
Proof.
  apply (name_index_keys_collide_across_schemas (scenario_collaborators None) 1001 3
           (orders 3 one_range) 0 sales_and_hr_catalog MetaIncrement_empty 1002).
  - reflexivity.
  - reflexivity.
  - vm_compute. reflexivity.
  - discriminate.
  - vm_compute. discriminate.
  - vm_compute. eauto.
  - reflexivity.
  - intros Hrej. apply (validate_partition_illegal ETABLE_DEFINITION_ILLEGAL) in Hrej.
    destruct Hrej as [e He]. vm_compute in He. discriminate.
Defined.

(** ** Refusals without effect *)

(** X22.  [CreateIndex] refuses, in this order and without changing the
    catalog, the meta-increment or the passed id: the root schema and an
    unknown schema, with EILLEGAL_PARAMTETERS; a definition that
    [ValidateIndexDefinition] rejects, with EILLEGAL_PARAMTETERS; and a
    definition without partition rule, with a hash partition or without any
    range, with EINDEX_DEFINITION_ILLEGAL. *)
Theorem CreateIndex_refusals_change_nothing
    (W : Collaborators) (schema_id : N) (index_definition : IndexDefinition)
    (new_index_id : N) (cc : CoordinatorControl) (mi : MetaIncrement) :
  let run := CreateIndex W schema_id index_definition new_index_id cc mi in
  (schema_id = ROOT_SCHEMA W ∨ schema_map_ cc !! schema_id = None →
     run = (EILLEGAL_PARAMTETERS, new_index_id, cc, mi)) ∧
  (schema_id ≠ ROOT_SCHEMA W → is_Some (schema_map_ cc !! schema_id) →
     ValidateIndexDefinition index_definition ≠ OK →
     run = (EILLEGAL_PARAMTETERS, new_index_id, cc, mi)) ∧
  (schema_id ≠ ROOT_SCHEMA W → is_Some (schema_map_ cc !! schema_id) →
     ValidateIndexDefinition index_definition = OK →
     partition_rejected (index_partition index_definition) →
     run = (EINDEX_DEFINITION_ILLEGAL, new_index_id, cc, mi)).
Proof.
  intros run. subst run. unfold CreateIndex, SafeMap_Exists. rewrite N_ltb_0. simpl.
  split; [|split].
  - intros [Hroot | Hschema].
    + by rewrite (bool_decide_eq_true_2 _ Hroot).
    + destruct (bool_decide (schema_id = ROOT_SCHEMA W)); [done|].
      rewrite Hschema. rewrite bool_decide_eq_false_2 by (by intros [? ?]). done.
  - intros Hroot Hschema Hvalid.
    rewrite (bool_decide_eq_false_2 _ Hroot), (bool_decide_eq_true_2 _ Hschema). simpl.
    destruct (ValidateIndexDefinition_codes index_definition) as [Hok | Hcode];
      [done|]. by rewrite Hcode.
  - intros Hroot Hschema Hvalid Hpart.
    rewrite (bool_decide_eq_false_2 _ Hroot), (bool_decide_eq_true_2 _ Hschema). simpl.
    rewrite Hvalid. simpl.
    apply (validate_partition_illegal EINDEX_DEFINITION_ILLEGAL) in Hpart as [e He].
    rewrite He. by apply validate_partition_inl in He as ->.
Qed.
